(** * AprioriGO: frequent itemset mining and association rules

    A shallow embedding of the mining core of AprioriGO: package [models],
    and [FindFrequentItemsets], [generateCandidates] and
    [GenerateAssociationRules] of package [algorithm], followed by the
    properties of the mining output and of the emitted rules.

    Package [algorithm] calls the slice helpers [containsItem], [isSubset],
    [slicesEqual], [difference] and [generateAllSubsets].  [main.go] holds
    the same program in a single file, with these helpers and with its own
    copies of the three functions above; the helpers are embedded from
    there.

    Further models: [LoadFromCSV] of package [loader], from the records
    that the CSV reader returned; the histogram of itemset lengths of
    command [apriori]; [loadBenchmarkResults] and the two ranked tables of
    command [visualize].

    Modelling conventions.
    - Go [string] is [string]; [<] on strings is the bytewise lexicographic
      order, which is [String.compare].
    - Go [float64] is the primitive binary64 type [float]: [/], [-], [*],
      [>=] and [==] are the IEEE 754 operations, so that 0/0 is NaN and
      every comparison with NaN is false.
    - Go [int] is [Z]; loop counters and lengths that range over a slice are
      [nat].  The only place where 64-bit wrap-around can be reached is
      [1 << uint(n)] in [generateAllSubsets], which is written out there.
    - A run-time panic (index out of range, bad [make]) is [None]. *)

From Stdlib Require Import ZArith Floats Uint63 String Ascii OrdersEx.
From stdpp Require Import gmap strings list sorting.

Local Open Scope Z_scope.

(** ** Go primitives *)

Module Go.

(** [a <= b] and [a < b] on Go strings. *)
Definition str_le (a b : string) : Prop := String.leb a b = true.
Definition str_lt (a b : string) : Prop := String.ltb a b = true.

#[global] Instance str_le_dec : RelDecision str_le.
Proof. intros a b. unfold str_le. apply bool_eq_dec. Defined.

(** [sort.Strings]: the slice is put in increasing order.  Equal strings
    cannot be told apart, so the result does not depend on the sorting
    algorithm; it is rendered by a merge sort. *)
Definition sortStrings (s : list string) : list string := merge_sort str_le s.

(** [strings.Join(elems, sep)]. *)
Definition Join (elems : list string) (sep : string) : string :=
  String.concat sep elems.

(** [float64(n)] for a non-negative [int] (a counter or a length). *)
Definition float64 (n : nat) : float :=
  PrimFloat.of_uint63 (Uint63.of_Z (Z.of_nat n)).

(** [copy(dst, src)]: overwrites the first [min(len(dst), len(src))]
    elements of [dst]. *)
Definition copy (dst src : list string) : list string :=
  take (length dst) src ++ drop (length src) dst.

(** [make([]string, n)] for [0 <= n]. *)
Definition make (n : Z) : list string := replicate (Z.to_nat n) EmptyString.

End Go.

(** ** Package [models] *)

Definition Transaction := list string.

Record FrequentItemset := {
  Items : list string;
  Support : float;
  Length : Z
}.

(** [RuleSupport] is the field [Support] of [AssociationRule]. *)
Record AssociationRule := {
  Antecedent : list string;
  Consequent : list string;
  RuleSupport : float;
  Confidence : float;
  Lift : float;
  LeverageMetric : float;
  ConvictionMetric : float
}.

Record Dataset := {
  Transactions : list Transaction;
  UniqueItems : list string;
  ItemsMap : gmap string bool
}.

(** ** Slice helpers *)

Fixpoint containsItem (transaction : Transaction) (item : string) : bool :=
  match transaction with
  | [] => false
  | t :: rest => if String.eqb t item then true else containsItem rest item
  end.

Fixpoint isSubset (items : list string) (transaction : Transaction) : bool :=
  match items with
  | [] => true
  | item :: rest =>
      if negb (containsItem transaction item) then false
      else isSubset rest transaction
  end.

Fixpoint elementsEqual (a b : list string) : bool :=
  match a, b with
  | x :: a', y :: b' =>
      if negb (String.eqb x y) then false else elementsEqual a' b'
  | _, _ => true
  end.

Definition slicesEqual (a b : list string) : bool :=
  if negb (Nat.eqb (length a) (length b)) then false else elementsEqual a b.

(** [difference(a, b)]: the map [bMap] is only looked up; a missing key
    reads as [false]. *)
Definition difference (a b : list string) : list string :=
  let bMap : gmap string bool :=
    foldl (fun m item => <[item := true]> m) ∅ b in
  filter (fun item => negb (default false (bMap !! item)) = true) a.

(** The inner loop of [generateAllSubsets]: the elements [set[j]] whose bit
    [j] is set in [i], for [j] from the position of the head of [set]. *)
Fixpoint pickBits (i : Z) (j : nat) (set : list string) : list string :=
  match set with
  | [] => []
  | x :: rest =>
      if 0 <? Z.land i (Z.shiftl 1 (Z.of_nat j))
      then x :: pickBits i (S j) rest
      else pickBits i (S j) rest
  end.

(** [generateAllSubsets(set)].  [count := 1 << uint(n)] is a 64-bit [int]:
    for [n = 63] it is the least [int] and [count-1] wraps to the greatest,
    for [n >= 64] it is 0 and [count-1] is -1; in both cases
    [make([][]string, 0, count-1)] panics.  (For smaller [n] the runtime may
    still refuse a capacity of that size; this limit of the platform is not
    modelled, and nothing below relies on the call returning.) *)
Definition generateAllSubsets (set : list string) : option (list (list string)) :=
  let n := length set in
  if (63 <=? n)%nat then None
  else
    let count := Z.shiftl 1 (Z.of_nat n) in
    Some (map (fun i => pickBits i 0 set) (seqZ 1 (count - 1))).

(** ** Package [algorithm] *)

(** [count] after the loop [for _, transaction := range ... { if p { count++ } }]. *)
Fixpoint countWhere (p : Transaction -> bool) (transactions : list Transaction) : nat :=
  match transactions with
  | [] => O
  | transaction :: rest =>
      if p transaction then S (countWhere p rest) else countWhere p rest
  end.

(** [support] of a universe item at level 1 (lines 19-26). *)
Definition itemSupport (dataset : Dataset) (item : string) : float :=
  let transactionCount := Go.float64 (length (Transactions dataset)) in
  let count := countWhere (fun t => containsItem t item) (Transactions dataset) in
  PrimFloat.div (Go.float64 count) transactionCount.

(** [support] of a candidate at level [k > 1] (lines 44-51). *)
Definition candidateSupport (dataset : Dataset) (items : list string) : float :=
  let transactionCount := Go.float64 (length (Transactions dataset)) in
  let count := countWhere (fun t => isSubset items t) (Transactions dataset) in
  PrimFloat.div (Go.float64 count) transactionCount.

(** The frequent 1-itemsets [L1]. *)
Definition frequentItems (dataset : Dataset) (minSupport : float) : list FrequentItemset :=
  flat_map (fun item =>
    let support := itemSupport dataset item in
    if PrimFloat.leb minSupport support
    then [ {| Items := [item]; Support := support; Length := 1 |} ]
    else []) (UniqueItems dataset).

(** [Lk]: the candidates of [Ck] that reach the threshold. *)
Definition frequentCandidates (dataset : Dataset) (minSupport : float) (k : Z)
    (Ck : list FrequentItemset) : list FrequentItemset :=
  flat_map (fun candidate =>
    let support := candidateSupport dataset (Items candidate) in
    if PrimFloat.leb minSupport support
    then [ {| Items := Items candidate; Support := support; Length := k |} ]
    else []) Ck.

(** The join test [for l := 0; l < k-2; l++]: [n] iterations remain, [l] is
    the current index. *)
Fixpoint prefixLoop (a b : list string) (l n : nat) : option bool :=
  match n with
  | O => Some true
  | S n' =>
      x ← a !! l;
      y ← b !! l;
      if String.eqb x y then prefixLoop a b (S l) n' else Some false
  end.

Definition canJoin (k : Z) (a b : list string) : option bool :=
  if 2 <? k then prefixLoop a b 0 (Z.to_nat (k - 2)) else Some true.

(** Lines 92-96: the sorted candidate built from [itemsets[i].Items] and the
    item [itemsets[j].Items[k-2]]. *)
Definition makeCandidate (k : Z) (a b : list string) : option (list string) :=
  last ← b !! Z.to_nat (k - 2);
  let candidate := Go.copy (Go.make k) a in
  Some (Go.sortStrings (<[Z.to_nat (k - 1) := last]> candidate)).

(** Lines 101-105: [candidate] without its element at index [l]. *)
Definition subsetWithout (l : nat) (candidate : list string) : list string :=
  take l candidate ++ drop (S l) candidate.

(** The prune test, lines 98-119. *)
Definition isValid (k : Z) (itemsets : list FrequentItemset)
    (candidate : list string) : bool :=
  if 2 <? k then
    forallb (fun l =>
      existsb (fun itemset => slicesEqual (Items itemset) (subsetWithout l candidate))
        itemsets) (seq 0 (Z.to_nat k))
  else true.

(** The body of the two nested loops for the pair of indices [(i, j)]: what
    it appends to [candidates], or a panic.  For [k < 2] the statement
    [candidate[k-1] = itemsets[j].Items[k-2]] (or [make] itself) panics. *)
Definition joinPair (itemsets : list FrequentItemset) (k : Z)
    (ij : nat * nat) : option (list FrequentItemset) :=
  A ← itemsets !! ij.1;
  B ← itemsets !! ij.2;
  if k <? 2 then None else
  ok ← canJoin k (Items A) (Items B);
  if negb ok then Some [] else
  candidate ← makeCandidate k (Items A) (Items B);
  if negb (isValid k itemsets candidate) then Some [] else
  Some [ {| Items := candidate; Support := 0%float; Length := k |} ].

(** The index pairs [i < j < n] in the order of the nested loops. *)
Definition indexPairs (n : nat) : list (nat * nat) :=
  flat_map (fun i => (fun j => (i, j)) <$> seq (S i) (n - S i)) (seq 0 n).

Definition generateCandidates (itemsets : list FrequentItemset) (k : Z)
    : option (list FrequentItemset) :=
  appended ← mapM (joinPair itemsets k) (indexPairs (length itemsets));
  Some (concat appended).

(** The loop [for k := 2; k <= maxLen; k++] with [n] iterations left. *)
Fixpoint levelLoop (dataset : Dataset) (minSupport : float) (n : nat) (k : Z)
    (Lk_1 result : list FrequentItemset) : option (list FrequentItemset) :=
  match n with
  | O => Some result
  | S n' =>
      Ck ← generateCandidates Lk_1 k;
      let Lk := frequentCandidates dataset minSupport k Ck in
      if Nat.eqb (length Lk) 0 then Some result
      else levelLoop dataset minSupport n' (k + 1) Lk (result ++ Lk)
  end.

Definition FindFrequentItemsets (dataset : Dataset) (minSupport : float)
    (maxLen : Z) : option (list FrequentItemset) :=
  let L1 := frequentItems dataset minSupport in
  levelLoop dataset minSupport (Z.to_nat (maxLen - 1)) 2 L1 ([] ++ L1).

(** *** Rule generation *)

(** [itemsetMap]: later entries overwrite earlier ones with the same key. *)
Definition buildItemsetMap (itemsets : list FrequentItemset) : gmap string float :=
  foldl (fun m itemset => <[Go.Join (Items itemset) "," := Support itemset]> m)
    ∅ itemsets.

(** The conviction of a rule (lines 185-190): plus infinity in the special
    case, the quotient otherwise. *)
Definition conviction (consequentSupport confidence : float) : float :=
  if PrimFloat.eqb consequentSupport 1%float || PrimFloat.eqb confidence 1%float
  then infinity
  else PrimFloat.div (PrimFloat.sub 1%float consequentSupport)
                     (PrimFloat.sub 1%float confidence).

(** What one iteration of the loop over [antecedents] does: one of the
    four [continue]s and fall-throughs, or the rule it appends. *)
Inductive RuleStep :=
  | SkipTrivial              (* empty antecedent or the whole itemset *)
  | SkipAntecedentMissing    (* line 168 *)
  | BelowConfidence
  | SkipConsequentMissing    (* line 179 *)
  | Emit (rule : AssociationRule).

(** The body of the loop over [antecedents], lines 156-201.  The leverage
    is computed with a rounded product followed by a rounded difference, as
    on amd64 (Go allows an architecture to fuse the two). *)
Definition ruleStep (itemsetMap : gmap string float) (minConfidence : float)
    (itemset : FrequentItemset) (antecedent : list string) : RuleStep :=
  if Nat.eqb (length antecedent) 0
     || Nat.eqb (length antecedent) (length (Items itemset))
  then SkipTrivial
  else
    let consequent := difference (Items itemset) antecedent in
    let antecedentKey := Go.Join antecedent "," in
    match itemsetMap !! antecedentKey with
    | None => SkipAntecedentMissing
    | Some antecedentSupport =>
        let confidence := PrimFloat.div (Support itemset) antecedentSupport in
        if PrimFloat.leb minConfidence confidence then
          let consequentKey := Go.Join consequent "," in
          match itemsetMap !! consequentKey with
          | None => SkipConsequentMissing
          | Some consequentSupport =>
              let lift := PrimFloat.div confidence consequentSupport in
              let leverage :=
                PrimFloat.sub (Support itemset)
                  (PrimFloat.mul antecedentSupport consequentSupport) in
              Emit {| Antecedent := antecedent;
                      Consequent := consequent;
                      RuleSupport := Support itemset;
                      Confidence := confidence;
                      Lift := lift;
                      LeverageMetric := leverage;
                      ConvictionMetric := conviction consequentSupport confidence |}
          end
        else BelowConfidence
    end.

(** The steps taken for one itemset of the outer loop. *)
Definition itemsetSteps (itemsetMap : gmap string float) (minConfidence : float)
    (itemset : FrequentItemset) : option (list RuleStep) :=
  if Length itemset <=? 1 then Some []
  else
    match generateAllSubsets (Items itemset) with
    | None => None
    | Some antecedents =>
        Some (map (ruleStep itemsetMap minConfidence itemset) antecedents)
    end.

(** All steps of a run, in order. *)
Definition ruleSteps (itemsets : list FrequentItemset) (minConfidence : float)
    : option (list RuleStep) :=
  let itemsetMap := buildItemsetMap itemsets in
  steps ← mapM (itemsetSteps itemsetMap minConfidence) itemsets;
  Some (concat steps).

Definition emitted (s : RuleStep) : option AssociationRule :=
  match s with Emit rule => Some rule | _ => None end.

Definition GenerateAssociationRules (itemsets : list FrequentItemset)
    (minConfidence : float) : option (list AssociationRule) :=
  match ruleSteps itemsets minConfidence with
  | None => None
  | Some steps => Some (omap emitted steps)
  end.

(** ** Package [loader] *)

(** [strings.Contains(s, substr)]. *)
Fixpoint Contains (s substr : string) : bool :=
  String.prefix substr s ||
  match s with
  | EmptyString => false
  | String _ rest => Contains rest substr
  end.

Section Loader.

(** [strings.TrimSpace] and [strings.ToLower] work on Unicode code points;
    their tables are not reproduced, and nothing is assumed of them. *)
Variable TrimSpace : string -> string.
Variable ToLower : string -> string.

(** The test of lines 36-37 on the first record. *)
Definition isHeader (record : list string) : bool :=
  match record with
  | first :: second :: _ =>
      Contains (ToLower first) "basket" || Contains (ToLower second) "item"
  | _ => false
  end.

(** Lines 44-57 for the record of index [i]: the state is [basketMap] and
    the numbers of the rows reported as skipped on standard output. *)
Definition addRecord (state : gmap string (list string) * list nat) (i : nat)
    (record : list string) : gmap string (list string) * list nat :=
  match record with
  | first :: second :: _ =>
      let basket := TrimSpace first in
      let item := TrimSpace second in
      if String.eqb basket "" || String.eqb item "" then state
      else (<[basket := default [] (state.1 !! basket) ++ [item]]> state.1,
            state.2)
  | _ => (state.1, state.2 ++ [S i])
  end.

(** The loop over [records], lines 32-58.  [headerRow] is true whenever
    [i == 0]. *)
Fixpoint groupLoop (i : nat) (records : list (list string))
    (state : gmap string (list string) * list nat)
    : gmap string (list string) * list nat :=
  match records with
  | [] => state
  | record :: rest =>
      if Nat.eqb i 0 && isHeader record then groupLoop (S i) rest state
      else groupLoop (S i) rest (addRecord state i record)
  end.

Definition groupByBasket (records : list (list string))
    : gmap string (list string) * list nat :=
  groupLoop 0 records (∅, []).

(** [for k, v := range m] visits every entry once, in an order that is not
    specified. *)
Definition rangesOver {V} (m : gmap string V) (entries : list (string * V)) : Prop :=
  entries ≡ₚ map_to_list m.

(** Lines 67-71: the items of a basket are entered into a map. *)
Definition markItems (m : gmap string bool) (items : list string) : gmap string bool :=
  foldl (fun m item => <[item := true]> m) m items.

(** [LoadFromCSV] from the records that [reader.ReadAll] returned to the
    dataset returned, lines 28-90.  The three loops over maps make the
    order of the transactions and the order of the items of a transaction
    depend on the run; [UniqueItems] is sorted at the end. *)
Definition LoadFromCSV (records : list (list string)) (dataset : Dataset) : Prop :=
  exists (baskets : list (string * list string)) (universe : list (string * bool)),
    rangesOver (groupByBasket records).1 baskets /\
    Forall2 (fun basket transaction =>
      exists entries,
        rangesOver (markItems ∅ basket.2) entries /\ transaction = entries.*1)
      baskets (Transactions dataset) /\
    ItemsMap dataset = foldl (fun m basket => markItems m basket.2) ∅ baskets /\
    rangesOver (ItemsMap dataset) universe /\
    UniqueItems dataset = Go.sortStrings universe.*1.

(** The run in which every map is visited in the order of [map_to_list]. *)
Definition loadInMapOrder (records : list (list string)) : Dataset :=
  let baskets := map_to_list (groupByBasket records).1 in
  let itemsMap := foldl (fun m basket => markItems m basket.2) ∅ baskets in
  {| Transactions :=
       (fun basket => (map_to_list (markItems ∅ basket.2)).*1) <$> baskets;
     UniqueItems := Go.sortStrings (map_to_list itemsMap).*1;
     ItemsMap := itemsMap |}.

(** The run in which every map is visited in the reverse of the order of
    [map_to_list]. *)
Definition loadInReverseOrder (records : list (list string)) : Dataset :=
  let baskets := reverse (map_to_list (groupByBasket records).1) in
  let itemsMap := foldl (fun m basket => markItems m basket.2) ∅ baskets in
  {| Transactions :=
       (fun basket => (reverse (map_to_list (markItems ∅ basket.2))).*1)
         <$> baskets;
     UniqueItems := Go.sortStrings (reverse (map_to_list itemsMap)).*1;
     ItemsMap := itemsMap |}.

(** The basket and the item of a record that is kept. *)
Definition rowOf (record : list string) : option (string * string) :=
  match record with
  | first :: second :: _ =>
      if String.eqb (TrimSpace first) "" || String.eqb (TrimSpace second) ""
      then None
      else Some (TrimSpace first, TrimSpace second)
  | _ => None
  end.

(** The rows of the file that carry data: the first record is left out
    when it is taken for a header, and so is every record with fewer than
    two fields, or with a blank basket or a blank item. *)
Definition keptRows (records : list (list string)) : list (string * string) :=
  match records with
  | [] => []
  | record :: rest =>
      if isHeader record then omap rowOf rest else omap rowOf (record :: rest)
  end.

End Loader.

(** ** Command [apriori] *)

(** [lengths[itemset.Length]++] for every itemset: a missing key reads
    as 0. *)
Definition lengthCounts (frequentItemsets : list FrequentItemset) : gmap Z Z :=
  foldl (fun lengths itemset =>
    <[Length itemset := default 0 (lengths !! Length itemset) + 1]> lengths)
    ∅ frequentItemsets.

(** ** Command [visualize] *)

(** A benchmark result; [int64] and [int] fields are [Z]. *)
Record Result := {
  MinSupport : float;
  MinConfidence : float;
  MaxLength : Z;
  ItemsetTime : Z;
  RuleTime : Z;
  TotalTime : Z;
  ItemsetCount : Z;
  RuleCount : Z;
  MemoryUsage : float
}.

Section LoadResults.

(** The error type and the three parsers of package [strconv]; nothing is
    assumed of them. *)
Variable strconvError : Type.
Variable ParseFloat : string -> strconvError + float.
Variable Atoi : string -> strconvError + Z.
Variable ParseInt : string -> strconvError + Z.

(** The errors that [loadBenchmarkResults] builds from the records. *)
Inductive LoadError :=
  | NoData
  | NotEnoughFields (line : Z)
  | InvalidField (name : string) (line : Z) (err : strconvError).

(** [v, err := parse(field); if err != nil { return nil, ... }]. *)
Definition parsed {A B} (name : string) (line : Z) (result : strconvError + A)
    (next : A -> LoadError + B) : LoadError + B :=
  match result with
  | inl err => inl (InvalidField name line err)
  | inr v => next v
  end.

(** The body of the loop for the record of index [i] after the header. *)
Definition parseRecord (i : nat) (record : list string) : LoadError + Result :=
  let line := Z.of_nat i + 2 in
  match record with
  | f0 :: f1 :: f2 :: f3 :: f4 :: f5 :: f6 :: f7 :: f8 :: _ =>
      parsed "min_support" line (ParseFloat f0) (fun minSupport =>
      parsed "min_confidence" line (ParseFloat f1) (fun minConfidence =>
      parsed "max_length" line (Atoi f2) (fun maxLength =>
      parsed "itemset_time" line (ParseInt f3) (fun itemsetTime =>
      parsed "rule_time" line (ParseInt f4) (fun ruleTime =>
      parsed "total_time" line (ParseInt f5) (fun totalTime =>
      parsed "itemset_count" line (Atoi f6) (fun itemsetCount =>
      parsed "rule_count" line (Atoi f7) (fun ruleCount =>
      parsed "memory_usage" line (ParseFloat f8) (fun memoryUsage =>
      inr {| MinSupport := minSupport;
             MinConfidence := minConfidence;
             MaxLength := maxLength;
             ItemsetTime := itemsetTime;
             RuleTime := ruleTime;
             TotalTime := totalTime;
             ItemsetCount := itemsetCount;
             RuleCount := ruleCount;
             MemoryUsage := memoryUsage |})))))))))
  | _ => inl (NotEnoughFields line)
  end.

Fixpoint parseLoop (i : nat) (records : list (list string))
    (results : list Result) : LoadError + list Result :=
  match records with
  | [] => inr results
  | record :: rest =>
      match parseRecord i record with
      | inl e => inl e
      | inr result => parseLoop (S i) rest (results ++ [result])
      end
  end.

(** [loadBenchmarkResults] from the records that [reader.ReadAll]
    returned. *)
Definition loadBenchmarkResults (records : list (list string))
    : LoadError + list Result :=
  if (length records <? 2)%nat then inl NoData
  else parseLoop 0 (drop 1 records) [].

(** The line that an error names. *)
Definition errorLine (e : LoadError) : option Z :=
  match e with
  | NoData => None
  | NotEnoughFields line | InvalidField _ line _ => Some line
  end.

End LoadResults.

(** The body of the inner loop of the two sorts: the elements at [i] and
    [j] are exchanged when the first is greater. *)
Definition swapIfGreater (gt : Result -> Result -> bool) (i j : nat)
    (results : list Result) : option (list Result) :=
  ri ← results !! i;
  rj ← results !! j;
  Some (if gt ri rj then <[j := ri]> (<[i := rj]> results) else results).

(** [for j := i + 1; j < len(results); j++] with [n] iterations left. *)
Fixpoint exchangeInner (gt : Result -> Result -> bool) (i j n : nat)
    (results : list Result) : option (list Result) :=
  match n with
  | O => Some results
  | S n' =>
      results' ← swapIfGreater gt i j results;
      exchangeInner gt i (S j) n' results'
  end.

(** [for i := 0; i < len(results); i++] with [n] iterations left. *)
Fixpoint exchangeOuter (gt : Result -> Result -> bool) (i n : nat)
    (results : list Result) : option (list Result) :=
  match n with
  | O => Some results
  | S n' =>
      results' ← exchangeInner gt i (S i) (length results - S i) results;
      exchangeOuter gt (S i) n' results'
  end.

Definition exchangeSort (gt : Result -> Result -> bool) (results : list Result)
    : option (list Result) :=
  exchangeOuter gt 0 (length results) results.

(** The test of the first sort: [results[i].TotalTime > results[j].TotalTime]. *)
Definition slower (a b : Result) : bool := TotalTime b <? TotalTime a.

(** The rows of the table of the fastest configurations: [results] is
    sorted in place, then the first [count] rows are printed, where
    [count] is 5, or [len(results)] if that is less. *)
Definition fastestConfigurations (results : list Result) : option (list Result) :=
  sorted ← exchangeSort slower results;
  let count := if (length sorted <? 5)%nat then length sorted else 5%nat in
  mapM (fun i => sorted !! i) (seq 0 count).

(** [float64(x)] for an [int64] or an [int] of 64 bits: the nearest
    double, ties to even.  ([Uint63] holds the magnitudes below [2^63];
    the least [int64] is the power of two [-2^63].) *)
Definition float64OfInt (x : Z) : float :=
  if x =? - 2 ^ 63 then PrimFloat.opp 0x1p+63%float
  else if x <? 0 then PrimFloat.opp (PrimFloat.of_uint63 (Uint63.of_Z (- x)))
  else PrimFloat.of_uint63 (Uint63.of_Z x).

(** [float64(r.TotalTime) / float64(r.RuleCount)]. *)
Definition timePerRule (r : Result) : float :=
  PrimFloat.div (float64OfInt (TotalTime r)) (float64OfInt (RuleCount r)).

(** The test of the second sort: [ratio1 > ratio2]. *)
Definition worseRatio (a b : Result) : bool :=
  PrimFloat.ltb (timePerRule b) (timePerRule a).

(** The rows of the table of the optimal configurations: the results with
    [RuleCount > 0] are copied in order, the copy is sorted, and its first
    [count] rows are printed. *)
Definition optimalConfigurations (results : list Result) : option (list Result) :=
  let optimalResults := filter (fun r => 0 < RuleCount r) results in
  sorted ← exchangeSort worseRatio optimalResults;
  let count := if (length sorted <? 5)%nat then length sorted else 5%nat in
  mapM (fun i => sorted !! i) (seq 0 count).

(** ** The example of the specification *)

Definition exampleDataset : Dataset := {|
  Transactions := [ ["bread"; "milk"]; ["bread"; "butter"];
                    ["bread"; "milk"; "butter"]; ["milk"] ]%string;
  UniqueItems := ["bread"; "butter"; "milk"]%string;
  ItemsMap := list_to_map [("bread", true); ("butter", true); ("milk", true)]%string
|}.

(** ** Vocabulary of the properties *)

(** A slice is in canonical form when it is strictly increasing. *)
Definition strictlySorted (s : list string) : Prop := StronglySorted Go.str_lt s.

(** Every itemset of the level holds [k-1] items. *)
Definition uniformLength (k : Z) (itemsets : list FrequentItemset) : Prop :=
  forall F, F ∈ itemsets -> Z.of_nat (length (Items F)) = k - 1.

(** The itemsets of a level are in canonical form and pairwise distinct. *)
Definition canonicalLevel (itemsets : list FrequentItemset) : Prop :=
  (forall F, F ∈ itemsets -> strictlySorted (Items F)) /\
  NoDup (Items <$> itemsets).

(** The candidate that the pair [(A, B)] yields when it is kept. *)
Definition joined (k : Z) (A : FrequentItemset) (y : string) : FrequentItemset :=
  {| Items := Go.sortStrings (Items A ++ [y]); Support := 0%float; Length := k |}.

(** What holds of the list of frequent itemsets collected so far. *)
Record MiningInvariant (out : list FrequentItemset) : Prop := {
  out_canonical : forall F, F ∈ out -> strictlySorted (Items F);
  out_length : forall F, F ∈ out ->
    Length F = Z.of_nat (length (Items F)) /\ 1 <= Length F;
  out_distinct : NoDup (Items <$> out);
  out_closed : forall F s, F ∈ out -> sublist s (Items F) ->
    length (Items F) = S (length s) -> s <> [] ->
    exists G, G ∈ out /\ Items G = s
}.

(** The invariant of a [Dataset]: the universe is strictly sorted (hence
    duplicate-free) and holds every item of every transaction. *)
Definition DatasetInvariant (dataset : Dataset) : Prop :=
  strictlySorted (UniqueItems dataset) /\
  (forall transaction item,
     transaction ∈ Transactions dataset -> item ∈ transaction ->
     item ∈ UniqueItems dataset).

(** The threshold 0.6 as a [float64] constant. *)
Definition confidence06 : float := 0x1.3333333333333p-1%float.

Definition exampleItemsets : list FrequentItemset :=
  [ {| Items := ["bread"]; Support := 0.75; Length := 1 |};
    {| Items := ["butter"]; Support := 0.5; Length := 1 |};
    {| Items := ["milk"]; Support := 0.75; Length := 1 |};
    {| Items := ["bread"; "butter"]; Support := 0.5; Length := 2 |};
    {| Items := ["bread"; "milk"]; Support := 0.5; Length := 2 |} ]%string.

Definition exampleCandidates : list FrequentItemset :=
  [ {| Items := ["bread"; "butter"]; Support := 0; Length := 2 |};
    {| Items := ["bread"; "milk"]; Support := 0; Length := 2 |};
    {| Items := ["butter"; "milk"]; Support := 0; Length := 2 |} ]%string.

(** The rule of the example with the given sides; its metrics are written
    as the code computes them from the supports. *)
Definition exampleRule (antecedent consequent : string)
    (support antecedentSupport consequentSupport : float) : AssociationRule :=
  let confidence := PrimFloat.div support antecedentSupport in
  {| Antecedent := [antecedent];
     Consequent := [consequent];
     RuleSupport := support;
     Confidence := confidence;
     Lift := PrimFloat.div confidence consequentSupport;
     LeverageMetric :=
       PrimFloat.sub support (PrimFloat.mul antecedentSupport consequentSupport);
     ConvictionMetric := conviction consequentSupport confidence |}.

(** The supports attached by mining are fractions: they lie in [0, 1]. *)
Definition unitSupports (itemsets : list FrequentItemset) : Prop :=
  forall F, F ∈ itemsets ->
    PrimFloat.leb 0%float (Support F) = true /\
    PrimFloat.leb (Support F) 1%float = true.

(** *** Binary64 values *)

(** A zero or a finite number of sign [sx] and magnitude at most [2^K]. *)
Definition magnitudeAtMost (K : Z) (sx : bool) (x : spec_float) : Prop :=
  match x with
  | S754_zero s => s = sx
  | S754_finite s m e => s = sx /\ e <= K /\ Zpos m <= 2 ^ (K - e)
  | _ => False
  end.

(** Magnitude at most one. *)
Definition atMostOne (sx : bool) (x : spec_float) : Prop :=
  magnitudeAtMost 0 sx x.

(** The float 1.0. *)
Definition sfOne : spec_float := S754_finite false 4503599627370496 (-52).

(** The value [m * 2^e] is at least [2^t]. *)
Definition atLeast (t m e : Z) : Prop :=
  (e <= t /\ 2 ^ (t - e) <= m) \/ (t < e /\ 1 <= m).

(** An infinity or a finite number of sign [sx] and magnitude at least
    [2^t]. *)
Definition magnitudeAtLeast (t : Z) (sx : bool) (x : spec_float) : Prop :=
  match x with
  | S754_infinity s => s = sx
  | S754_finite s m e => s = sx /\ atLeast t (Zpos m) e
  | _ => False
  end.

(** The sign of a rounded value is the sign given to the rounding. *)
Definition hasSign (sx : bool) (x : spec_float) : Prop :=
  match x with
  | S754_zero s | S754_infinity s | S754_finite s _ _ => s = sx
  | S754_nan => True
  end.

(** A divisor that cannot turn a value of at most one into plus infinity:
    not a positive zero, and if positive and finite then at least
    [2^-53]. *)
Definition safeDivisor (x : spec_float) : Prop :=
  match x with
  | S754_zero s => s = true
  | S754_finite false m e => atLeast (-53) (Zpos m) e
  | _ => True
  end.

(** A dataset without transactions whose universe is not empty. *)
Definition noTransactions : Dataset :=
  {| Transactions := []; UniqueItems := ["bread"]%string; ItemsMap := ∅ |}.

(** Two transactions hold the same items. *)
Definition sameItems (t t' : Transaction) : Prop := forall x, x ∈ t <-> x ∈ t'.

(** Two slices hold the same transactions: the same sets of items, whatever
    the order of the transactions and of the items within them. *)
Definition sameTransactions (ts ts' : list Transaction) : Prop :=
  exists ts0, ts ≡ₚ ts0 /\ Forall2 sameItems ts0 ts'.


(** *** Vocabulary of the further properties *)

(** An item name that holds the separator of the map keys. *)
Fixpoint hasComma (s : string) : bool :=
  match s with
  | EmptyString => false
  | String c rest => Ascii.eqb c "," || hasComma rest
  end.

(** Every non-empty subsequence of [s] reaches the threshold. *)
Definition allSubsetsFrequent (dataset : Dataset) (minSupport : float)
    (s : list string) : Prop :=
  forall s', sublist s' s -> s' <> [] ->
    PrimFloat.leb minSupport (candidateSupport dataset s') = true.

(** The update of [basketMap] for a kept row: a missing key reads as the
    nil slice. *)
Definition addRow (m : gmap string (list string)) (row : string * string)
    : gmap string (list string) :=
  <[row.1 := default [] (m !! row.1) ++ [row.2]]> m.

(** The items of the kept rows of a basket, in the order of the file. *)
Definition itemsOf (rows : list (string * string)) (basket : string) : list string :=
  (filter (fun row => row.1 = basket) rows).*2.

(** The order that a sort with the test [gt] establishes. *)
Definition notGreater (gt : Result -> Result -> bool) (a b : Result) : Prop :=
  gt a b = false.

(** The position of the rational [a/b] on the grid of quarters: twice the
    number of halves that it holds, plus one when it is not a whole number
    of halves. *)
Definition gridPosition (a b : Z) : Z :=
  2 * (2 * a / b) + (if 2 * a mod b =? 0 then 0 else 1).

Definition locationCode (l : location) : Z :=
  match l with
  | loc_Exact => 0
  | loc_Inexact Lt => 1
  | loc_Inexact Eq => 2
  | loc_Inexact Gt => 3
  end.

(** The position that a mantissa and a location stand for. *)
Definition recordPosition (mrs : shr_record) : Z :=
  4 * shr_m mrs + locationCode (loc_of_shr_record mrs).

(** Rounding to nearest, ties to even, of a position. *)
Definition roundPosition (p : Z) : Z :=
  let m := p / 4 in
  if p mod 4 <? 2 then m
  else if p mod 4 =? 2 then (if Z.even m then m else m + 1)
  else m + 1.

(** The float of mantissa [m] in [2^52, 2^53] and exponent [e]. *)
Definition normalFloat (m e : Z) : spec_float :=
  if m <? 2 ^ 53 then S754_finite false (Z.to_pos m) e
  else S754_finite false 4503599627370496 (e + 1).

(** Three results of a benchmark, one of them without rules. *)
Definition exampleResults : list Result :=
  [ {| MinSupport := 0.125; MinConfidence := 0.25; MaxLength := 3;
       ItemsetTime := 40; RuleTime := 20; TotalTime := 60;
       ItemsetCount := 25; RuleCount := 12; MemoryUsage := 1.5 |};
    {| MinSupport := 0.5; MinConfidence := 0.5; MaxLength := 2;
       ItemsetTime := 10; RuleTime := 0; TotalTime := 10;
       ItemsetCount := 4; RuleCount := 0; MemoryUsage := 1.25 |};
    {| MinSupport := 0.25; MinConfidence := 0.75; MaxLength := 3;
       ItemsetTime := 20; RuleTime := 10; TotalTime := 30;
       ItemsetCount := 12; RuleCount := 10; MemoryUsage := 1.5 |} ].

(** ** The order on strings and sorted slices *)

Section StringOrder.

Lemma str_lt_compare a b : Go.str_lt a b <-> String.compare a b = Lt.
Proof.
  unfold Go.str_lt, String.ltb.
  destruct (String.compare a b); split; congruence.
Qed.

Lemma str_le_compare a b : Go.str_le a b <-> String.compare a b <> Gt.
Proof.
  unfold Go.str_le, String.leb.
  destruct (String.compare a b); split; congruence.
Qed.

Lemma str_lt_irrefl a : ~ Go.str_lt a a.
Proof.
  rewrite str_lt_compare. intros H.
  exact (StrictOrder_Irreflexive (R := String_as_OT.lt) a H).
Qed.

Lemma str_lt_trans a b c : Go.str_lt a b -> Go.str_lt b c -> Go.str_lt a c.
Proof.
  rewrite !str_lt_compare.
  exact (StrictOrder_Transitive (R := String_as_OT.lt) a b c).
Qed.

Lemma str_lt_asym a b : Go.str_lt a b -> Go.str_lt b a -> False.
Proof. intros H1 H2. exact (str_lt_irrefl a (str_lt_trans _ _ _ H1 H2)). Qed.

Lemma str_le_lt_eq a b : Go.str_le a b <-> Go.str_lt a b \/ a = b.
Proof.
  rewrite str_le_compare, str_lt_compare.
  destruct (String.compare a b) eqn:E.
  - apply String.compare_eq_iff in E. split; [auto | congruence].
  - split; [auto | congruence].
  - split; [congruence |].
    intros [H | ->]; [congruence |].
    assert (Go.str_lt b b) as Hb.
    { apply str_lt_compare. rewrite String.compare_antisym, E. reflexivity. }
    destruct (str_lt_irrefl _ Hb).
Qed.

Lemma str_lt_total a b : Go.str_lt a b \/ a = b \/ Go.str_lt b a.
Proof.
  rewrite !str_lt_compare.
  destruct (String.compare a b) eqn:E.
  - apply String.compare_eq_iff in E. auto.
  - auto.
  - right; right. rewrite String.compare_antisym, E. reflexivity.
Qed.

#[global] Instance str_le_total : Total Go.str_le.
Proof.
  intros a b. rewrite !str_le_lt_eq.
  destruct (str_lt_total a b) as [H | [H | H]]; auto.
Qed.

#[global] Instance str_le_trans : Transitive Go.str_le.
Proof.
  intros a b c. rewrite !str_le_lt_eq.
  intros [H1 | ->] [H2 | ->]; eauto using str_lt_trans.
Qed.

#[global] Instance str_lt_transitive : Transitive Go.str_lt.
Proof. intros a b c. apply str_lt_trans. Qed.

End StringOrder.

Section Sorted.

Lemma strictlySorted_NoDup s : strictlySorted s -> NoDup s.
Proof.
  induction 1 as [| x s Hs IH Hx]; constructor; [| exact IH].
  intros Hin. rewrite Forall_forall in Hx.
  exact (str_lt_irrefl x (Hx x Hin)).
Qed.

Lemma sorted_NoDup_strict s :
  StronglySorted Go.str_le s -> NoDup s -> strictlySorted s.
Proof.
  induction 1 as [| x s Hs IH Hx]; intros Hnd; [constructor |].
  apply NoDup_cons in Hnd as [Hnin Hnd].
  constructor; [exact (IH Hnd) |].
  rewrite Forall_forall in Hx |- *. intros y Hy.
  destruct (proj1 (str_le_lt_eq x y) (Hx y Hy)) as [H | ->]; [exact H |].
  contradiction.
Qed.

Lemma sortStrings_Permutation s : Go.sortStrings s ≡ₚ s.
Proof. apply merge_sort_Permutation. Qed.

Lemma sortStrings_length s : length (Go.sortStrings s) = length s.
Proof. apply Permutation_length, sortStrings_Permutation. Qed.

Lemma sortStrings_strict s : NoDup s -> strictlySorted (Go.sortStrings s).
Proof.
  intros Hnd. apply sorted_NoDup_strict.
  - apply StronglySorted_merge_sort; apply _.
  - rewrite sortStrings_Permutation. exact Hnd.
Qed.

Lemma strictlySorted_unique s t :
  strictlySorted s -> strictlySorted t -> s ≡ₚ t -> s = t.
Proof.
  intros Hs Ht Hp.
  apply (StronglySorted_unique_strong Go.str_lt); auto.
  intros x y _ _ H1 H2. destruct (str_lt_asym _ _ H1 H2).
Qed.

Lemma sortStrings_sorted s : strictlySorted s -> Go.sortStrings s = s.
Proof.
  intros Hs. apply strictlySorted_unique; auto.
  - apply sortStrings_strict, strictlySorted_NoDup, Hs.
  - apply sortStrings_Permutation.
Qed.

(** A canonical slice whose elements all occur in another canonical slice
    is a subsequence of it. *)
Lemma strictlySorted_sublist s t :
  strictlySorted s -> strictlySorted t ->
  (forall x, x ∈ s -> x ∈ t) -> sublist s t.
Proof.
  intros Hs Ht. revert s Hs.
  induction Ht as [| y t Ht IH Hy]; intros s Hs Hsub.
  - destruct s as [| x s]; [constructor |].
    specialize (Hsub x (list_elem_of_here _ _)). inversion Hsub.
  - destruct s as [| x s]; [apply sublist_nil_l |].
    apply StronglySorted_inv in Hs as [Hs Hx].
    rewrite Forall_forall in Hx, Hy.
    destruct (decide (x = y)) as [-> | Hne].
    + apply sublist_skip, IH; [exact Hs |].
      intros z Hz.
      specialize (Hsub z (list_elem_of_further _ _ _ Hz)).
      apply elem_of_cons in Hsub as [-> | Hin]; [| exact Hin].
      destruct (str_lt_irrefl _ (Hx _ Hz)).
    + apply sublist_cons, IH; [constructor; [exact Hs | apply Forall_forall, Hx] |].
      assert (Go.str_lt y x) as Hyx.
      { specialize (Hsub x (list_elem_of_here _ _)).
        apply elem_of_cons in Hsub as [-> | Hin]; [contradiction | auto]. }
      intros z Hz.
      specialize (Hsub z Hz).
      apply elem_of_cons in Hsub as [-> | Hin]; [| exact Hin].
      apply elem_of_cons in Hz as [-> | Hz]; [contradiction |].
      destruct (str_lt_asym _ _ Hyx (Hx _ Hz)).
Qed.

Lemma strictlySorted_snoc2 p a b :
  strictlySorted (p ++ [a]) -> strictlySorted (p ++ [b]) -> Go.str_lt a b ->
  strictlySorted (p ++ [a; b]).
Proof.
  intros Ha Hb Hab.
  apply StronglySorted_app in Ha as (Hpa & Hp & _).
  apply StronglySorted_app in Hb as (Hpb & _ & _).
  apply StronglySorted_app_2; [| exact Hp |].
  - intros x y Hx Hy.
    apply elem_of_cons in Hy as [-> | Hy]; [apply Hpa; [exact Hx | left] |].
    apply list_elem_of_singleton in Hy as ->. apply Hpb; [exact Hx | left].
  - repeat constructor. exact Hab.
Qed.

End Sorted.

(** ** The slice helpers *)

Section Helpers.

Lemma elementsEqual_eq a b :
  length a = length b -> elementsEqual a b = true <-> a = b.
Proof.
  revert b. induction a as [| x a IH]; intros [| y b] Hlen; simpl in *;
    try discriminate; [tauto |].
  destruct (String.eqb_spec x y) as [-> | Hne]; simpl.
  - rewrite IH by lia. split; congruence.
  - split; [discriminate | congruence].
Qed.

Lemma slicesEqual_eq a b : slicesEqual a b = true <-> a = b.
Proof.
  unfold slicesEqual.
  destruct (Nat.eqb_spec (length a) (length b)) as [Hlen | Hlen]; simpl.
  - apply elementsEqual_eq, Hlen.
  - split; [discriminate | intros ->; contradiction].
Qed.

Lemma subsetWithout_delete l (s : list string) : subsetWithout l s = delete l s.
Proof. unfold subsetWithout. symmetry. apply delete_take_drop. Qed.

Lemma sublist_full (s t : list string) :
  sublist s t -> (length t <= length s)%nat -> s = t.
Proof.
  induction 1 as [| x s t Hst IH | x s t Hst IH]; simpl; intros Hlen.
  - reflexivity.
  - f_equal. apply IH. lia.
  - apply sublist_length in Hst. lia.
Qed.

(** A subsequence with one element less is obtained by dropping one index. *)
Lemma sublist_drop_one (s t : list string) :
  sublist s t -> length t = S (length s) ->
  exists l, (l < length t)%nat /\ s = subsetWithout l t.
Proof.
  induction 1 as [| x s t Hst IH | x s t Hst IH]; simpl; intros Hlen.
  - discriminate.
  - destruct IH as (l & Hl & ->); [lia |].
    exists (S l). split; [lia | reflexivity].
  - exists O. split; [lia |]. unfold subsetWithout. simpl. rewrite drop_0.
    apply sublist_full; [exact Hst | lia].
Qed.

(** Between a subsequence and a strictly longer slice lies a subsequence
    that is one element shorter than the slice. *)
Lemma sublist_interpolate (s t : list string) :
  sublist s t -> (length s < length t)%nat ->
  exists m, sublist s m /\ sublist m t /\ length t = S (length m).
Proof.
  induction 1 as [| x s t Hst IH | x s t Hst IH]; simpl; intros Hlen.
  - lia.
  - destruct IH as (m & H1 & H2 & H3); [lia |].
    exists (x :: m). simpl. split; [by constructor |]. split; [by constructor | lia].
  - exists t. split; [exact Hst |]. split; [by apply sublist_cons | reflexivity].
Qed.

Lemma pickBits_sublist i j set : sublist (pickBits i j set) set.
Proof.
  revert j. induction set as [| x set IH]; intros j; simpl; [constructor |].
  destruct (0 <? Z.land i (Z.shiftl 1 (Z.of_nat j))); by constructor.
Qed.

Lemma generateAllSubsets_sublist set antecedents antecedent :
  generateAllSubsets set = Some antecedents ->
  antecedent ∈ antecedents -> sublist antecedent set.
Proof.
  unfold generateAllSubsets.
  destruct (63 <=? length set)%nat; [discriminate |].
  intros [= <-] Hin.
  apply list_elem_of_In, in_map_iff in Hin as (i & <- & _).
  apply pickBits_sublist.
Qed.

Lemma bMap_lookup (b : list string) (m : gmap string bool) x :
  foldl (fun m item => <[item := true]> m) m b !! x =
    if decide (x ∈ b) then Some true else m !! x.
Proof.
  revert m. induction b as [| y b IH]; intros m; simpl.
  - destruct (decide (x ∈ [])) as [H | H]; [inversion H | reflexivity].
  - rewrite IH.
    destruct (decide (x ∈ b)) as [Hb | Hb].
    + rewrite decide_True by (by right). reflexivity.
    + destruct (decide (x = y)) as [-> | Hne].
      * rewrite decide_True by left. apply lookup_insert_eq.
      * rewrite decide_False by (rewrite elem_of_cons; tauto).
        by apply lookup_insert_ne.
Qed.

Lemma difference_elem_of a b x :
  x ∈ difference a b <-> x ∈ a /\ x ∉ b.
Proof.
  unfold difference. rewrite list_elem_of_filter, bMap_lookup, lookup_empty.
  destruct (decide (x ∈ b)); simpl; split; intros [H1 H2]; split; auto;
    congruence.
Qed.

Lemma difference_sublist a b : sublist (difference a b) a.
Proof. unfold difference. apply sublist_filter. Qed.

(** A proper part of a duplicate-free slice leaves a non-empty rest. *)
Lemma difference_nonempty a b :
  NoDup a -> length b <> length a -> sublist b a -> difference a b <> [].
Proof.
  intros Hnd Hlen Hsub Hnil.
  assert (forall x, x ∈ a -> x ∈ b) as Hall.
  { intros x Hx. destruct (decide (x ∈ b)) as [H | H]; [exact H |].
    assert (x ∈ difference a b) as Hd by (by apply difference_elem_of).
    rewrite Hnil in Hd. inversion Hd. }
  apply NoDup_submseteq, submseteq_length in Hall; [| exact Hnd].
  apply sublist_length in Hsub. lia.
Qed.

Lemma buildItemsetMap_lookup (itemsets : list FrequentItemset)
    (m : gmap string float) key :
  is_Some (m !! key) \/ (exists F, F ∈ itemsets /\ Go.Join (Items F) "," = key) ->
  is_Some (foldl (fun m itemset =>
    <[Go.Join (Items itemset) "," := Support itemset]> m) m itemsets !! key).
Proof.
  revert m. induction itemsets as [| G itemsets IH]; intros m; simpl.
  - intros [H | (F & HF & _)]; [exact H | inversion HF].
  - intros H. apply IH.
    destruct (decide (Go.Join (Items G) "," = key)) as [Heq | Hne].
    + left. rewrite Heq, lookup_insert_eq. eauto.
    + destruct H as [H | (F & HF & HFk)].
      * left. by rewrite lookup_insert_ne.
      * apply elem_of_cons in HF as [-> | HF]; [contradiction |].
        right. eauto.
Qed.

Lemma itemsetMap_has (itemsets : list FrequentItemset) F :
  F ∈ itemsets ->
  is_Some (buildItemsetMap itemsets !! Go.Join (Items F) ",").
Proof. intros HF. apply buildItemsetMap_lookup. right. eauto. Qed.

End Helpers.

(** ** Candidate generation *)

Section Candidates.

Lemma prefixLoop_spec a b l n :
  (l + n <= length a)%nat -> (l + n <= length b)%nat ->
  exists r, prefixLoop a b l n = Some r /\
    (r = true -> take n (drop l a) = take n (drop l b)).
Proof.
  revert l. induction n as [| n IH]; intros l Ha Hb; simpl.
  - exists true. split; [reflexivity |]. intros _. by rewrite !take_0.
  - destruct (lookup_lt_is_Some_2 a l) as [x Hx]; [lia |].
    destruct (lookup_lt_is_Some_2 b l) as [y Hy]; [lia |].
    rewrite Hx, Hy. simpl.
    destruct (String.eqb_spec x y) as [-> | Hne].
    + destruct (IH (S l)) as (r & Hr & Heq); [lia | lia |].
      exists r. split; [exact Hr |]. intros Ht.
      rewrite (drop_S a y l Hx), (drop_S b y l Hy). simpl.
      f_equal. auto.
    + exists false. split; [reflexivity | discriminate].
Qed.

Lemma canJoin_spec k a b :
  Z.of_nat (length a) = k - 1 -> Z.of_nat (length b) = k - 1 -> 2 <= k ->
  exists r, canJoin k a b = Some r /\
    (r = true -> take (Z.to_nat (k - 2)) a = take (Z.to_nat (k - 2)) b).
Proof.
  intros Ha Hb Hk. unfold canJoin.
  destruct (Z.ltb_spec 2 k) as [H | H].
  - destruct (prefixLoop_spec a b 0 (Z.to_nat (k - 2))) as (r & Hr & Heq);
      [lia | lia |].
    exists r. split; [exact Hr |]. by rewrite !drop_0 in Heq.
  - exists true. split; [reflexivity |]. intros _.
    replace (k - 2) with 0 by lia. reflexivity.
Qed.

Lemma last_split k (b : list string) :
  Z.of_nat (length b) = k - 1 -> 2 <= k ->
  exists y, b !! Z.to_nat (k - 2) = Some y /\ last b = Some y /\
            b = take (Z.to_nat (k - 2)) b ++ [y].
Proof.
  intros Hb Hk.
  destruct (lookup_lt_is_Some_2 b (Z.to_nat (k - 2))) as [y Hy]; [lia |].
  assert (b = take (Z.to_nat (k - 2)) b ++ [y]) as Heq.
  { rewrite <- (take_drop_middle b _ y Hy) at 1.
    rewrite (drop_ge b) by lia. reflexivity. }
  exists y. split; [exact Hy |]. split; [| exact Heq].
  rewrite Heq. apply last_snoc.
Qed.

Lemma makeCandidate_spec k a b :
  Z.of_nat (length a) = k - 1 -> Z.of_nat (length b) = k - 1 -> 2 <= k ->
  exists y, last b = Some y /\
    makeCandidate k a b = Some (Go.sortStrings (a ++ [y])).
Proof.
  intros Ha Hb Hk.
  destruct (last_split k b Hb Hk) as (y & Hy & Hlast & _).
  exists y. split; [exact Hlast |].
  unfold makeCandidate. rewrite Hy. simpl. do 2 f_equal.
  unfold Go.copy, Go.make. rewrite length_replicate.
  rewrite take_ge by lia. rewrite drop_replicate.
  replace (Z.to_nat k - length a)%nat with 1%nat by lia.
  rewrite insert_app_r_alt by lia.
  replace (Z.to_nat (k - 1) - length a)%nat with 0%nat by lia.
  reflexivity.
Qed.

(** What the loop body does for one pair of itemsets of the right length:
    it appends nothing, or the joined candidate, which then has passed
    the join test and the prune test. *)
Lemma joinPair_spec itemsets k i j A B :
  uniformLength k itemsets -> 2 <= k ->
  itemsets !! i = Some A -> itemsets !! j = Some B ->
  exists y, last (Items B) = Some y /\
    (joinPair itemsets k (i, j) = Some [] \/
     (joinPair itemsets k (i, j) = Some [joined k A y] /\
      take (Z.to_nat (k - 2)) (Items A) = take (Z.to_nat (k - 2)) (Items B) /\
      isValid k itemsets (Items (joined k A y)) = true)).
Proof.
  intros Hlen Hk HA HB.
  assert (Z.of_nat (length (Items A)) = k - 1) as HlA
    by (eapply Hlen, list_elem_of_lookup_2, HA).
  assert (Z.of_nat (length (Items B)) = k - 1) as HlB
    by (eapply Hlen, list_elem_of_lookup_2, HB).
  destruct (canJoin_spec k _ _ HlA HlB Hk) as (r & Hr & Hprefix).
  destruct (makeCandidate_spec k _ _ HlA HlB Hk) as (y & Hy & Hc).
  exists y. split; [exact Hy |].
  unfold joinPair. simpl. rewrite HA, HB. simpl.
  destruct (Z.ltb_spec k 2) as [Hlt | _]; [lia |].
  rewrite Hr. simpl. destruct r; simpl; [| by left].
  rewrite Hc. simpl.
  destruct (isValid k itemsets (Go.sortStrings (Items A ++ [y]))) eqn:Hv;
    simpl; [| by left].
  right. auto.
Qed.

Lemma indexPairs_bind n :
  indexPairs n = seq 0 n ≫= (fun i => (fun j => (i, j)) <$> seq (S i) (n - S i)).
Proof.
  unfold indexPairs. generalize (seq 0 n). intros l.
  induction l as [| i l IH]; simpl; [reflexivity | by rewrite IH].
Qed.

Lemma elem_of_indexPairs n i j :
  (i, j) ∈ indexPairs n <-> (i < j < n)%nat.
Proof.
  rewrite indexPairs_bind, list_elem_of_bind. split.
  - intros (i' & Hj & Hi). apply list_elem_of_fmap in Hj as (j' & [= -> ->] & Hj).
    apply elem_of_seq in Hj, Hi. lia.
  - intros H. exists i. split.
    + apply list_elem_of_fmap. exists j. split; [reflexivity |].
      apply elem_of_seq. lia.
    + apply elem_of_seq. lia.
Qed.

Lemma NoDup_indexPairs n : NoDup (indexPairs n).
Proof.
  rewrite indexPairs_bind. apply NoDup_bind.
  - intros i1 i2 [i j] _ _ H1 H2.
    apply list_elem_of_fmap in H1 as (? & [= -> ->] & _).
    apply list_elem_of_fmap in H2 as (? & [= -> ->] & _). reflexivity.
  - intros i _. apply NoDup_fmap_2; [| apply NoDup_seq].
    intros j1 j2 [= ->]. reflexivity.
  - apply NoDup_seq.
Qed.

(** With itemsets of the right length the generator does not panic, and
    its result is the concatenation of what the loop body appends, pair
    by pair. *)
Lemma generateCandidates_spec itemsets k :
  uniformLength k itemsets -> 2 <= k ->
  exists appended,
    generateCandidates itemsets k = Some (concat appended) /\
    Forall2 (fun ij r => joinPair itemsets k ij = Some r)
      (indexPairs (length itemsets)) appended.
Proof.
  intros Hlen Hk. unfold generateCandidates.
  destruct (mapM (joinPair itemsets k) (indexPairs (length itemsets)))
    as [appended |] eqn:Hm.
  - exists appended. split; [reflexivity |]. by apply mapM_Some_1.
  - exfalso. apply mapM_None_1, Exists_exists in Hm as ([i j] & Hin & Hnone).
    apply elem_of_indexPairs in Hin.
    destruct (lookup_lt_is_Some_2 itemsets i) as [A HA]; [lia |].
    destruct (lookup_lt_is_Some_2 itemsets j) as [B HB]; [lia |].
    destruct (joinPair_spec itemsets k i j A B Hlen Hk HA HB)
      as (y & _ & [H | [H _]]); congruence.
Qed.

(** Every candidate comes from a pair [i < j] that passed both tests. *)
Lemma generateCandidates_origin itemsets k candidates c :
  uniformLength k itemsets -> 2 <= k ->
  generateCandidates itemsets k = Some candidates -> c ∈ candidates ->
  exists i j A B y,
    (i < j)%nat /\ itemsets !! i = Some A /\ itemsets !! j = Some B /\
    last (Items B) = Some y /\ c = joined k A y /\
    take (Z.to_nat (k - 2)) (Items A) = take (Z.to_nat (k - 2)) (Items B) /\
    isValid k itemsets (Items c) = true.
Proof.
  intros Hlen Hk Hgen Hc.
  destruct (generateCandidates_spec itemsets k Hlen Hk) as (appended & Heq & Hall).
  rewrite Heq in Hgen. injection Hgen as <-.
  apply list_elem_of_In, in_concat in Hc as (r & Hr & Hc).
  apply list_elem_of_In, list_elem_of_lookup in Hr as (n & Hn).
  destruct (Forall2_lookup_r _ _ _ _ _ Hall Hn) as ([i j] & Hij & Hjoin).
  apply list_elem_of_lookup_2, elem_of_indexPairs in Hij.
  destruct (lookup_lt_is_Some_2 itemsets i) as [A HA]; [lia |].
  destruct (lookup_lt_is_Some_2 itemsets j) as [B HB]; [lia |].
  destruct (joinPair_spec itemsets k i j A B Hlen Hk HA HB)
    as (y & Hy & [H | (H & Hp & Hv)]); rewrite H in Hjoin;
    injection Hjoin as <-; [inversion Hc |].
  apply list_elem_of_In, list_elem_of_singleton in Hc as ->.
  exists i, j, A, B, y. repeat split; auto; lia.
Qed.

End Candidates.

(** ** Canonical form and distinctness of the candidates *)

Section CandidateShape.

Variable itemsets : list FrequentItemset.
Variable k : Z.
Hypothesis Hlen : uniformLength k itemsets.
Hypothesis Hcanon : canonicalLevel itemsets.
Hypothesis Hk : 2 <= k.

Let n := Z.to_nat (k - 2).

Lemma itemsets_lookup_inj i j A B :
  itemsets !! i = Some A -> itemsets !! j = Some B ->
  Items A = Items B -> i = j.
Proof.
  intros HA HB Heq. destruct Hcanon as [_ Hnd].
  apply (NoDup_lookup _ i j (Items A) Hnd);
    rewrite list_lookup_fmap; [by rewrite HA | by rewrite HB, Heq].
Qed.

(** The shape of a joined candidate: the common prefix followed by the two
    last items in increasing order. *)
Lemma joined_shape i j A B y :
  i <> j -> itemsets !! i = Some A -> itemsets !! j = Some B ->
  last (Items B) = Some y ->
  take n (Items A) = take n (Items B) ->
  exists x,
    Items A = take n (Items A) ++ [x] /\
    Items B = take n (Items A) ++ [y] /\
    x <> y /\
    Items (joined k A y) =
      take n (Items A) ++ (if String.ltb x y then [x; y] else [y; x]) /\
    strictlySorted (Items (joined k A y)).
Proof.
  intros Hij HA HB Hy Hprefix.
  assert (HinA : A ∈ itemsets) by (eapply list_elem_of_lookup_2, HA).
  assert (HinB : B ∈ itemsets) by (eapply list_elem_of_lookup_2, HB).
  destruct (last_split k (Items A) (Hlen A HinA) Hk) as (x & _ & _ & HeqA).
  destruct (last_split k (Items B) (Hlen B HinB) Hk) as (y' & _ & Hy' & HeqB).
  rewrite Hy in Hy'. injection Hy' as <-.
  fold n in HeqA, HeqB. rewrite <- Hprefix in HeqB.
  set (p := take n (Items A)) in *.
  assert (x <> y) as Hxy.
  { intros ->. apply Hij, (itemsets_lookup_inj i j A B HA HB). congruence. }
  assert (strictlySorted (p ++ [x])) as HsA
    by (rewrite <- HeqA; apply Hcanon, HinA).
  assert (strictlySorted (p ++ [y])) as HsB
    by (rewrite <- HeqB; apply Hcanon, HinB).
  assert (strictlySorted (p ++ (if String.ltb x y then [x; y] else [y; x])))
    as Hs.
  { destruct (String.ltb x y) eqn:Hlt.
    - by apply strictlySorted_snoc2.
    - apply strictlySorted_snoc2; auto.
      destruct (str_lt_total x y) as [H | [H | H]];
        [unfold Go.str_lt in H; congruence | contradiction | exact H]. }
  assert (Items (joined k A y) =
          p ++ (if String.ltb x y then [x; y] else [y; x])) as Heq.
  { simpl. rewrite HeqA at 1. rewrite <- app_assoc. simpl.
    assert (p ++ [x; y] ≡ₚ p ++ (if String.ltb x y then [x; y] else [y; x]))
      as Hperm.
    { destruct (String.ltb x y); [reflexivity |].
      apply Permutation_app_head, perm_swap. }
    apply strictlySorted_unique; [| exact Hs |].
    - apply sortStrings_strict. rewrite Hperm.
      apply strictlySorted_NoDup, Hs.
    - rewrite sortStrings_Permutation. exact Hperm. }
  exists x. repeat split; auto. rewrite Heq. exact Hs.
Qed.

Lemma joined_length A y :
  A ∈ itemsets -> Z.of_nat (length (Items (joined k A y))) = k.
Proof.
  intros HA. simpl. rewrite sortStrings_length, length_app. simpl.
  specialize (Hlen A HA). lia.
Qed.

(** Two kept pairs that yield the same item sequence are the same pair. *)
Lemma joined_inj i j A B y i' j' A' B' y' :
  (i < j)%nat -> itemsets !! i = Some A -> itemsets !! j = Some B ->
  last (Items B) = Some y -> take n (Items A) = take n (Items B) ->
  (i' < j')%nat -> itemsets !! i' = Some A' -> itemsets !! j' = Some B' ->
  last (Items B') = Some y' -> take n (Items A') = take n (Items B') ->
  Items (joined k A y) = Items (joined k A' y') ->
  i = i' /\ j = j'.
Proof.
  intros Hij HA HB Hy Hp Hij' HA' HB' Hy' Hp' Heq.
  destruct (joined_shape i j A B y) as (x & EA & EB & Hxy & E & _);
    [lia | auto ..].
  destruct (joined_shape i' j' A' B' y') as (x' & EA' & EB' & Hxy' & E' & _);
    [lia | auto ..].
  rewrite E, E' in Heq.
  apply app_inj_1 in Heq as [Hpp Hm].
  2:{ rewrite !length_take.
      pose proof (Hlen A (list_elem_of_lookup_2 _ _ _ HA)).
      pose proof (Hlen A' (list_elem_of_lookup_2 _ _ _ HA')). lia. }
  rewrite <- Hpp in EA', EB'.
  assert (forall u v U V, itemsets !! u = Some U -> itemsets !! v = Some V ->
            Items U = Items V -> u = v) as Hinj
    by (intros; eapply itemsets_lookup_inj; eauto).
  destruct (String.ltb x y), (String.ltb x' y'); injection Hm as -> ->.
  - split; [eapply (Hinj i i') | eapply (Hinj j j')]; eauto; congruence.
  - assert (i = j') by (eapply (Hinj i j'); eauto; congruence).
    assert (j = i') by (eapply (Hinj j i'); eauto; congruence). lia.
  - assert (i = j') by (eapply (Hinj i j'); eauto; congruence).
    assert (j = i') by (eapply (Hinj j i'); eauto; congruence). lia.
  - split; [eapply (Hinj i i') | eapply (Hinj j j')]; eauto; congruence.
Qed.

End CandidateShape.

Section ConcatKeys.

Context {A B C : Type}.
Variable key : B -> C.
Variable f : A -> option (list B).

Lemma Forall2_concat_origin xs rs b :
  Forall2 (fun x r => f x = Some r) xs rs -> b ∈ concat rs ->
  exists x r, x ∈ xs /\ f x = Some r /\ b ∈ r.
Proof.
  induction 1 as [| x r xs rs Hx Hall IH]; simpl; intros Hb.
  - inversion Hb.
  - apply elem_of_app in Hb as [Hb | Hb].
    + exists x, r. split; [left | auto].
    + destruct (IH Hb) as (x' & r' & H1 & H2 & H3).
      exists x', r'. split; [by right | auto].
Qed.

(** The concatenation of the results has pairwise distinct keys when each
    result has, and results of different arguments share no key. *)
Lemma NoDup_concat_keys xs rs :
  NoDup xs ->
  Forall2 (fun x r => f x = Some r) xs rs ->
  (forall x r, x ∈ xs -> f x = Some r -> NoDup (key <$> r)) ->
  (forall x x' r r' b b', x ∈ xs -> x' ∈ xs -> f x = Some r -> f x' = Some r' ->
     b ∈ r -> b' ∈ r' -> key b = key b' -> x = x') ->
  NoDup (key <$> concat rs).
Proof.
  intros Hnd Hall. revert Hnd.
  induction Hall as [| x r xs rs Hx Hall IH]; simpl; intros Hnd Hone Hinj.
  - constructor.
  - apply NoDup_cons in Hnd as [Hnin Hnd].
    rewrite fmap_app. apply NoDup_app. split; [| split].
    + apply (Hone x); [left | exact Hx].
    + intros c Hc Hc'.
      apply list_elem_of_fmap in Hc as (b & -> & Hb).
      apply list_elem_of_fmap in Hc' as (b' & Heq & Hb').
      destruct (Forall2_concat_origin _ _ _ Hall Hb') as (x' & r' & Hx' & Hfx' & Hbr').
      assert (x = x') as ->.
      { eapply (Hinj x x' r r' b b'); eauto; [left | by right]. }
      contradiction.
    + apply IH; [exact Hnd | |].
      * intros x' r' Hx'. apply Hone. by right.
      * intros x1 x2 r1 r2 b1 b2 H1 H2. apply Hinj; by right.
Qed.

End ConcatKeys.

Section CandidateProperties.

Lemma isValid_spec k itemsets candidate l :
  2 < k -> Z.of_nat (length candidate) = k ->
  isValid k itemsets candidate = true -> (l < length candidate)%nat ->
  exists G, G ∈ itemsets /\ Items G = subsetWithout l candidate.
Proof.
  intros Hk Hlen Hv Hl. unfold isValid in Hv.
  destruct (Z.ltb_spec 2 k); [| lia].
  rewrite forallb_forall in Hv.
  specialize (Hv l). rewrite existsb_exists in Hv.
  destruct Hv as (G & HG & Heq); [apply in_seq; lia |].
  exists G. split; [by apply list_elem_of_In | by apply slicesEqual_eq].
Qed.

Variable itemsets : list FrequentItemset.
Variable k : Z.
Variable candidates : list FrequentItemset.
Hypothesis Hlen : uniformLength k itemsets.
Hypothesis Hk : 2 <= k.
Hypothesis Hgen : generateCandidates itemsets k = Some candidates.

Lemma candidates_length c :
  c ∈ candidates -> Z.of_nat (length (Items c)) = k /\ Length c = k.
Proof.
  intros Hc.
  destruct (generateCandidates_origin _ _ _ _ Hlen Hk Hgen Hc)
    as (i & j & A & B & y & _ & HA & _ & _ & -> & _).
  split; [| reflexivity].
  eapply joined_length; [exact Hlen |]. eapply list_elem_of_lookup_2, HA.
Qed.

Hypothesis Hcanon : canonicalLevel itemsets.

Lemma candidates_strictlySorted c :
  c ∈ candidates -> strictlySorted (Items c).
Proof.
  intros Hc.
  destruct (generateCandidates_origin _ _ _ _ Hlen Hk Hgen Hc)
    as (i & j & A & B & y & Hij & HA & HB & Hy & -> & Hp & _).
  destruct (joined_shape itemsets k Hlen Hcanon Hk i j A B y)
    as (x & _ & _ & _ & _ & Hs); auto. lia.
Qed.

Lemma candidates_NoDup : NoDup (Items <$> candidates).
Proof.
  destruct (generateCandidates_spec itemsets k Hlen Hk) as (appended & Heq & Hall).
  rewrite Heq in Hgen. injection Hgen as <-.
  assert (forall ij r b, ij ∈ indexPairs (length itemsets) ->
            joinPair itemsets k ij = Some r -> b ∈ r ->
            exists A B y, (ij.1 < ij.2)%nat /\ itemsets !! ij.1 = Some A /\
              itemsets !! ij.2 = Some B /\ last (Items B) = Some y /\
              take (Z.to_nat (k - 2)) (Items A) = take (Z.to_nat (k - 2)) (Items B) /\
              r = [joined k A y] /\ b = joined k A y) as Horigin.
  { intros [i j] r b Hij Hr Hb. apply elem_of_indexPairs in Hij. simpl.
    destruct (lookup_lt_is_Some_2 itemsets i) as [A HA]; [lia |].
    destruct (lookup_lt_is_Some_2 itemsets j) as [B HB]; [lia |].
    destruct (joinPair_spec itemsets k i j A B Hlen Hk HA HB)
      as (y & Hy & [H | (H & Hp & _)]); rewrite H in Hr;
      injection Hr as <-; [inversion Hb |].
    apply list_elem_of_singleton in Hb as ->.
    exists A, B, y. repeat split; auto. lia. }
  apply (NoDup_concat_keys Items (joinPair itemsets k)
           (indexPairs (length itemsets))); [apply NoDup_indexPairs | exact Hall | |].
  - intros ij r Hij Hr.
    destruct r as [| b r]; [constructor |].
    destruct (Horigin ij (b :: r) b Hij Hr) as (A & B & y & _ & _ & _ & _ & _ & E & _);
      [left |].
    injection E as -> ->. simpl. apply NoDup_singleton.
  - intros [i j] [i' j'] r r' b b' Hij Hij' Hr Hr' Hb Hb' Hsame.
    destruct (Horigin _ _ _ Hij Hr Hb) as (A & B & y & H1 & H2 & H3 & H4 & H5 & _ & ->).
    destruct (Horigin _ _ _ Hij' Hr' Hb')
      as (A' & B' & y' & H1' & H2' & H3' & H4' & H5' & _ & ->).
    simpl in *.
    destruct (joined_inj itemsets k Hlen Hcanon Hk i j A B y i' j' A' B' y')
      as [-> ->]; auto.
Qed.

(** The prune step at work: dropping any one item of a candidate gives the
    item sequence of an itemset of the previous level. *)
Lemma candidates_closed c s :
  c ∈ candidates -> sublist s (Items c) -> length (Items c) = S (length s) ->
  exists G, G ∈ itemsets /\ Items G = s.
Proof.
  intros Hc Hsub Hl.
  destruct (candidates_length c Hc) as [Hlc _].
  destruct (sublist_drop_one _ _ Hsub Hl) as (l & Hlt & ->).
  destruct (generateCandidates_origin _ _ _ _ Hlen Hk Hgen Hc)
    as (i & j & A & B & y & Hij & HA & HB & Hy & -> & Hp & Hv).
  destruct (Z.eq_dec k 2) as [-> | Hk2].
  - destruct (joined_shape itemsets 2 Hlen Hcanon Hk i j A B y)
      as (x & EA & EB & _ & E & _); auto; [lia |].
    change (Z.to_nat (2 - 2)) with 0%nat in EA, EB, E.
    rewrite take_0 in EA, EB, E. simpl app in EA, EB, E.
    assert (exists G : FrequentItemset, G ∈ itemsets /\ Items G = [x]) as Hx
      by (exists A; split; [eapply list_elem_of_lookup_2, HA | exact EA]).
    assert (exists G : FrequentItemset, G ∈ itemsets /\ Items G = [y]) as Hy'
      by (exists B; split; [eapply list_elem_of_lookup_2, HB | exact EB]).
    rewrite E in Hlt |- *.
    destruct (String.ltb x y); simpl in Hlt;
      destruct l as [| [| l]]; simpl in *; auto; lia.
  - apply isValid_spec with (k := k); auto; lia.
Qed.

End CandidateProperties.

(** ** The level-wise loop *)

Section Levels.

Variable dataset : Dataset.
Variable minSupport : float.

Lemma keep_sublist {A} (g : A -> FrequentItemset) (b : A -> bool) (l : list A) :
  sublist (Items <$> flat_map (fun x => if b x then [g x] else []) l)
          ((fun x => Items (g x)) <$> l).
Proof.
  induction l as [| x l IH]; simpl; [constructor |].
  destruct (b x); simpl; by constructor.
Qed.

Lemma elem_of_frequentItems F :
  F ∈ frequentItems dataset minSupport ->
  exists item, item ∈ UniqueItems dataset /\ Items F = [item] /\ Length F = 1.
Proof.
  unfold frequentItems. intros HF.
  apply list_elem_of_In, in_flat_map in HF as (item & Hitem & HF).
  exists item. split; [by apply list_elem_of_In |].
  destruct (PrimFloat.leb _ _); [| inversion HF].
  destruct HF as [<- | []]. auto.
Qed.

Lemma frequentItems_sublist :
  sublist (Items <$> frequentItems dataset minSupport)
          ((fun item => [item]) <$> UniqueItems dataset).
Proof.
  exact (keep_sublist
    (fun item => {| Items := [item]; Support := itemSupport dataset item;
                    Length := 1 |})
    (fun item => PrimFloat.leb minSupport (itemSupport dataset item))
    (UniqueItems dataset)).
Qed.

Lemma elem_of_frequentCandidates k Ck F :
  F ∈ frequentCandidates dataset minSupport k Ck ->
  exists c, c ∈ Ck /\ Items F = Items c /\ Length F = k /\
            Support F = candidateSupport dataset (Items c).
Proof.
  unfold frequentCandidates. intros HF.
  apply list_elem_of_In, in_flat_map in HF as (c & Hc & HF).
  exists c. split; [by apply list_elem_of_In |].
  destruct (PrimFloat.leb _ _); [| inversion HF].
  destruct HF as [<- | []]. auto.
Qed.

Lemma frequentCandidates_sublist k Ck :
  sublist (Items <$> frequentCandidates dataset minSupport k Ck) (Items <$> Ck).
Proof.
  exact (keep_sublist
    (fun c => {| Items := Items c;
                 Support := candidateSupport dataset (Items c); Length := k |})
    (fun c => PrimFloat.leb minSupport (candidateSupport dataset (Items c)))
    Ck).
Qed.

(** The level loop never panics: the itemsets of level [k-1] always hold
    [k-1] items. *)
Lemma levelLoop_total n k Lk_1 result :
  2 <= k -> uniformLength k Lk_1 ->
  is_Some (levelLoop dataset minSupport n k Lk_1 result).
Proof.
  revert k Lk_1 result. induction n as [| n IH]; intros k Lk_1 result Hk Hlen;
    simpl; [eauto |].
  destruct (generateCandidates_spec Lk_1 k Hlen Hk) as (appended & Hgen & _).
  rewrite Hgen. simpl.
  destruct (Nat.eqb _ 0); [eauto |].
  apply IH; [lia |].
  intros F HF. apply elem_of_frequentCandidates in HF as (c & Hc & -> & _).
  destruct (candidates_length Lk_1 k _ Hlen Hk Hgen c Hc) as [-> _]. lia.
Qed.

Lemma levelLoop_invariant n k Lk_1 result out :
  2 <= k -> uniformLength k Lk_1 -> canonicalLevel Lk_1 ->
  (forall F, F ∈ Lk_1 -> F ∈ result) ->
  (forall F, F ∈ result -> Length F <= k - 1) ->
  MiningInvariant result ->
  levelLoop dataset minSupport n k Lk_1 result = Some out ->
  MiningInvariant out.
Proof.
  revert k Lk_1 result.
  induction n as [| n IH]; intros k Lk_1 result Hk Hlen Hcanon Hsub Hbound Hinv;
    simpl; [by intros [= <-] |].
  destruct (generateCandidates Lk_1 k) as [Ck |] eqn:Hgen; [| discriminate].
  simpl. set (Lk := frequentCandidates dataset minSupport k Ck).
  destruct (Nat.eqb (length Lk) 0); [by intros [= <-] |].
  assert (forall F, F ∈ Lk -> exists c, c ∈ Ck /\ Items F = Items c /\ Length F = k)
    as HLk.
  { intros F HF. apply elem_of_frequentCandidates in HF as (c & ? & ? & ? & _).
    eauto. }
  assert (NoDup (Items <$> Lk)) as HndLk.
  { eapply sublist_NoDup; [| apply frequentCandidates_sublist].
    exact (candidates_NoDup Lk_1 k Ck Hlen Hk Hgen Hcanon). }
  assert (uniformLength (k + 1) Lk) as HlenLk.
  { intros F HF. destruct (HLk F HF) as (c & Hc & -> & _).
    destruct (candidates_length Lk_1 k Ck Hlen Hk Hgen c Hc) as [-> _]. lia. }
  apply IH; [lia | exact HlenLk | | | |].
  - split; [| exact HndLk].
    intros F HF. destruct (HLk F HF) as (c & Hc & -> & _).
    exact (candidates_strictlySorted Lk_1 k Ck Hlen Hk Hgen Hcanon c Hc).
  - intros F HF. apply elem_of_app. by right.
  - intros F HF. apply elem_of_app in HF as [HF | HF].
    + specialize (Hbound F HF). lia.
    + destruct (HLk F HF) as (c & _ & _ & ->). lia.
  - destruct Hinv as [Hc Hl Hd Hcl]. split.
    + intros F HF. apply elem_of_app in HF as [HF | HF]; [by apply Hc |].
      destruct (HLk F HF) as (c & Hin & -> & _).
      exact (candidates_strictlySorted Lk_1 k Ck Hlen Hk Hgen Hcanon c Hin).
    + intros F HF. apply elem_of_app in HF as [HF | HF]; [by apply Hl |].
      specialize (HlenLk F HF).
      destruct (HLk F HF) as (c & _ & _ & ->). lia.
    + rewrite fmap_app. apply NoDup_app. split; [exact Hd |]. split; [| exact HndLk].
      intros s Hs Hs'.
      apply list_elem_of_fmap in Hs as (F & -> & HF).
      apply list_elem_of_fmap in Hs' as (F' & Heq & HF').
      specialize (Hbound F HF). destruct (Hl F HF) as [HlF _].
      specialize (HlenLk F' HF'). rewrite <- Heq in HlenLk. lia.
    + intros F s HF Hs Hlens Hne.
      apply elem_of_app in HF as [HF | HF].
      * destruct (Hcl F s HF Hs Hlens Hne) as (G & HG & E).
        exists G. split; [apply elem_of_app; by left | exact E].
      * destruct (HLk F HF) as (c & Hin & E & _). rewrite E in Hs, Hlens.
        destruct (candidates_closed Lk_1 k Ck Hlen Hk Hgen Hcanon c s Hin Hs Hlens)
          as (G & HG & EG).
        exists G. split; [apply elem_of_app; left; by apply Hsub | exact EG].
Qed.

End Levels.

(** ** The mining output *)

Section Mining.

Lemma frequentItems_uniform dataset minSupport :
  uniformLength 2 (frequentItems dataset minSupport).
Proof.
  intros F HF. apply elem_of_frequentItems in HF as (item & _ & -> & _).
  reflexivity.
Qed.

(** Mining returns for every dataset and all parameter values. *)
Lemma FindFrequentItemsets_total dataset minSupport maxLen :
  is_Some (FindFrequentItemsets dataset minSupport maxLen).
Proof.
  unfold FindFrequentItemsets.
  apply levelLoop_total; [lia | apply frequentItems_uniform].
Qed.

Lemma frequentItems_invariant dataset minSupport :
  DatasetInvariant dataset ->
  canonicalLevel (frequentItems dataset minSupport) /\
  MiningInvariant (frequentItems dataset minSupport).
Proof.
  intros [Hsorted _].
  assert (forall F, F ∈ frequentItems dataset minSupport ->
            strictlySorted (Items F)) as Hcanon.
  { intros F HF. apply elem_of_frequentItems in HF as (item & _ & -> & _).
    repeat constructor. }
  assert (NoDup (Items <$> frequentItems dataset minSupport)) as Hnd.
  { eapply sublist_NoDup; [| apply frequentItems_sublist].
    apply NoDup_fmap_2; [| apply strictlySorted_NoDup, Hsorted].
    intros x y [= ->]. reflexivity. }
  split; [by split |]. split; auto.
  - intros F HF. apply elem_of_frequentItems in HF as (item & _ & -> & ->).
    simpl. lia.
  - intros F s HF Hs Hlen Hne.
    apply elem_of_frequentItems in HF as (item & _ & E & _).
    rewrite E in Hlen. simpl in Hlen.
    destruct s; [contradiction | discriminate].
Qed.

Lemma FindFrequentItemsets_invariant dataset minSupport maxLen out :
  DatasetInvariant dataset ->
  FindFrequentItemsets dataset minSupport maxLen = Some out ->
  MiningInvariant out.
Proof.
  intros Hds. unfold FindFrequentItemsets. simpl.
  destruct (frequentItems_invariant dataset minSupport Hds) as [Hcanon Hinv].
  apply levelLoop_invariant; auto; [lia | apply frequentItems_uniform |].
  intros F HF. apply elem_of_frequentItems in HF as (item & _ & _ & ->). lia.
Qed.

(** Downward closure, iterated: every non-empty subsequence of the items
    of an itemset of the output is the item sequence of an itemset of the
    output. *)
Lemma MiningInvariant_sublists out :
  MiningInvariant out ->
  forall F s, F ∈ out -> sublist s (Items F) -> s <> [] ->
  exists G, G ∈ out /\ Items G = s.
Proof.
  intros Hinv F s. remember (length (Items F) - length s)%nat as d eqn:Hd.
  revert F s Hd. induction d as [| d IH]; intros F s Hd HF Hs Hne.
  - exists F. split; [exact HF |]. symmetry. apply sublist_full; [exact Hs | lia].
  - destruct (sublist_interpolate s (Items F) Hs) as (m & Hsm & HmF & Hlen); [lia |].
    assert (m <> []) as Hm.
    { intros ->. apply sublist_nil_r in Hsm. contradiction. }
    destruct (out_closed out Hinv F m HF HmF Hlen Hm) as (G & HG & E).
    apply (IH G s); [rewrite E; lia | exact HG | by rewrite E | exact Hne].
Qed.

End Mining.

(** ** The example dataset *)

Lemma exampleDataset_invariant : DatasetInvariant exampleDataset.
Proof.
  split.
  - repeat constructor.
  - assert (Forall (fun transaction =>
              Forall (fun item => item ∈ UniqueItems exampleDataset) transaction)
              (Transactions exampleDataset)) as Hall
      by (simpl; repeat constructor).
    intros transaction item Ht Hi.
    rewrite Forall_forall in Hall. specialize (Hall transaction Ht).
    rewrite Forall_forall in Hall. exact (Hall item Hi).
Qed.

(** ** Claims about the mining output *)

(** C1. Downward closure of the mining output.  For a dataset that satisfies
    the dataset invariant, a threshold in (0,1] and [maxLen >= 1], mining
    returns a list in which, for every itemset [F] of length [k > 1], every
    set of [k-1] distinct items of [F], put in canonical order, is the item
    sequence of an itemset of length [k-1] of that same list. *)
Theorem downward_closure dataset minSupport maxLen :
  DatasetInvariant dataset ->
  PrimFloat.ltb 0%float minSupport = true ->
  PrimFloat.leb minSupport 1%float = true ->
  1 <= maxLen ->
  exists out,
    FindFrequentItemsets dataset minSupport maxLen = Some out /\
    forall F, F ∈ out -> 1 < Length F ->
      Length F = Z.of_nat (length (Items F)) /\
      forall s, NoDup s -> (forall x, x ∈ s -> x ∈ Items F) ->
        Z.of_nat (length s) = Length F - 1 ->
        exists G, G ∈ out /\ Items G = Go.sortStrings s /\
                  Length G = Length F - 1.
Proof.
  intros Hds _ _ _.
  destruct (FindFrequentItemsets_total dataset minSupport maxLen) as [out Hout].
  exists out. split; [exact Hout |].
  pose proof (FindFrequentItemsets_invariant _ _ _ _ Hds Hout) as Hinv.
  intros F HF Hk.
  destruct (out_length out Hinv F HF) as [HlF _]. split; [exact HlF |].
  intros s Hnd Hsub Hlen.
  assert (sublist (Go.sortStrings s) (Items F)) as Hsl.
  { apply strictlySorted_sublist.
    - by apply sortStrings_strict.
    - by apply (out_canonical out Hinv).
    - intros x Hx. apply Hsub. by rewrite <- sortStrings_Permutation. }
  destruct (out_closed out Hinv F (Go.sortStrings s) HF Hsl) as (G & HG & E).
  - rewrite sortStrings_length. lia.
  - intros Hnil. apply (f_equal length) in Hnil.
    rewrite sortStrings_length in Hnil. simpl in Hnil. lia.
  - exists G. split; [exact HG |]. split; [exact E |].
    destruct (out_length out Hinv G HG) as [-> _].
    rewrite E, sortStrings_length. lia.
Qed.

Lemma downward_closure_witness :
  exists out,
    FindFrequentItemsets exampleDataset 0.5%float 3 = Some out /\
    forall F, F ∈ out -> 1 < Length F ->
      Length F = Z.of_nat (length (Items F)) /\
      forall s, NoDup s -> (forall x, x ∈ s -> x ∈ Items F) ->
        Z.of_nat (length s) = Length F - 1 ->
        exists G, G ∈ out /\ Items G = Go.sortStrings s /\
                  Length G = Length F - 1.
Proof.
  apply (downward_closure exampleDataset 0.5%float 3).
  - exact exampleDataset_invariant.
  - vm_compute. reflexivity.
  - vm_compute. reflexivity.
  - lia.
Defined.

(** C9. Output distinctness.  For a dataset that satisfies the dataset
    invariant and all parameter values, mining returns a list in which no
    two entries have the same item sequence. *)
Theorem output_distinct dataset minSupport maxLen :
  DatasetInvariant dataset ->
  exists out,
    FindFrequentItemsets dataset minSupport maxLen = Some out /\
    NoDup (Items <$> out) /\
    forall i j F G,
      out !! i = Some F -> out !! j = Some G -> Items F = Items G -> i = j.
Proof.
  intros Hds.
  destruct (FindFrequentItemsets_total dataset minSupport maxLen) as [out Hout].
  exists out. split; [exact Hout |].
  pose proof (FindFrequentItemsets_invariant _ _ _ _ Hds Hout) as Hinv.
  pose proof (out_distinct out Hinv) as Hnd.
  split; [exact Hnd |].
  intros i j F G HF HG Heq.
  apply (NoDup_lookup _ i j (Items F) Hnd);
    rewrite list_lookup_fmap; [by rewrite HF | by rewrite HG, Heq].
Qed.

Lemma output_distinct_witness :
  exists out,
    FindFrequentItemsets exampleDataset 0.25%float 5 = Some out /\
    NoDup (Items <$> out) /\
    forall i j F G,
      out !! i = Some F -> out !! j = Some G -> Items F = Items G -> i = j.
Proof.
  apply (output_distinct exampleDataset 0.25%float 5).
  exact exampleDataset_invariant.
Defined.

(** C10. Candidate well-formedness.  If the itemsets given to
    [generateCandidates] are strictly sorted (hence duplicate-free), hold
    [k-1] items each and are pairwise distinct, then the call returns and
    every candidate is strictly sorted, holds exactly [k] distinct items and
    has [Length = k]. *)
Theorem candidates_wellformed itemsets k :
  (forall F, F ∈ itemsets ->
     strictlySorted (Items F) /\ Z.of_nat (length (Items F)) = k - 1) ->
  NoDup (Items <$> itemsets) ->
  exists candidates,
    generateCandidates itemsets k = Some candidates /\
    forall c, c ∈ candidates ->
      strictlySorted (Items c) /\ NoDup (Items c) /\
      Z.of_nat (length (Items c)) = k /\ Length c = k.
Proof.
  intros Hwf Hnd.
  assert (uniformLength k itemsets) as Hlen by (intros F HF; apply Hwf, HF).
  assert (canonicalLevel itemsets) as Hcanon
    by (split; [intros F HF; apply Hwf, HF | exact Hnd]).
  destruct (Z.le_gt_cases 2 k) as [Hk | Hk].
  - destruct (generateCandidates_spec itemsets k Hlen Hk) as (appended & Hgen & _).
    exists (concat appended). split; [exact Hgen |]. intros c Hc.
    pose proof (candidates_strictlySorted itemsets k _ Hlen Hk Hgen Hcanon c Hc) as Hs.
    destruct (candidates_length itemsets k _ Hlen Hk Hgen c Hc) as [Hl HL].
    auto using strictlySorted_NoDup.
  - exists []. split; [| intros c Hc; inversion Hc].
    destruct itemsets as [| A [| B rest]]; [reflexivity | reflexivity |].
    exfalso.
    pose proof (Hlen A ltac:(left)) as HA.
    pose proof (Hlen B ltac:(right; left)) as HB.
    assert (Items A = []) as EA by (destruct (Items A); [reflexivity | simpl in HA; lia]).
    assert (Items B = []) as EB by (destruct (Items B); [reflexivity | simpl in HB; lia]).
    simpl in Hnd. rewrite EA, EB in Hnd.
    apply NoDup_cons in Hnd as [Hnin _]. apply Hnin. left.
Qed.

Lemma candidates_wellformed_witness :
  exists candidates,
    generateCandidates (frequentItems exampleDataset 0.5%float) 2 = Some candidates /\
    forall c, c ∈ candidates ->
      strictlySorted (Items c) /\ NoDup (Items c) /\
      Z.of_nat (length (Items c)) = 2 /\ Length c = 2.
Proof.
  apply (candidates_wellformed (frequentItems exampleDataset 0.5%float) 2).
  - vm_compute frequentItems. intros F HF.
    repeat (apply elem_of_cons in HF as [-> | HF]);
      [split; [repeat constructor | reflexivity] .. | inversion HF].
  - apply (bool_decide_unpack _). vm_compute. exact I.
Defined.

(** ** Rule generation *)

Section Rules.

Variable itemsets : list FrequentItemset.
Variable minConfidence : float.

(** Every step of a run belongs to an itemset of length above 1 and to one
    of its enumerated antecedents. *)
Lemma ruleSteps_origin steps step :
  ruleSteps itemsets minConfidence = Some steps -> step ∈ steps ->
  exists F antecedents antecedent,
    F ∈ itemsets /\ 1 < Length F /\
    generateAllSubsets (Items F) = Some antecedents /\
    antecedent ∈ antecedents /\
    step = ruleStep (buildItemsetMap itemsets) minConfidence F antecedent.
Proof.
  unfold ruleSteps.
  destruct (mapM _ itemsets) as [parts |] eqn:Hm; [| discriminate].
  simpl. intros [= <-] Hstep.
  apply mapM_Some_1 in Hm.
  destruct (Forall2_concat_origin _ _ _ _ Hm Hstep) as (F & r & HF & Hr & Hin).
  unfold itemsetSteps in Hr.
  destruct (Z.leb_spec (Length F) 1) as [Hle | Hgt].
  - injection Hr as <-. inversion Hin.
  - destruct (generateAllSubsets (Items F)) as [antecedents |] eqn:Hsub;
      [| discriminate].
    injection Hr as <-.
    apply list_elem_of_In, in_map_iff in Hin as (antecedent & <- & Ha).
    exists F, antecedents, antecedent.
    repeat split; auto. by apply list_elem_of_In.
Qed.

(** The conditions under which a step emits a rule, and the rule. *)
Lemma ruleStep_emit (itemsetMap : gmap string float) F antecedent rule :
  ruleStep itemsetMap minConfidence F antecedent = Emit rule ->
  length antecedent <> 0%nat /\
  length antecedent <> length (Items F) /\
  exists antecedentSupport consequentSupport,
    itemsetMap !! Go.Join antecedent "," = Some antecedentSupport /\
    itemsetMap !! Go.Join (difference (Items F) antecedent) "," =
      Some consequentSupport /\
    PrimFloat.leb minConfidence
      (PrimFloat.div (Support F) antecedentSupport) = true /\
    rule = {|
      Antecedent := antecedent;
      Consequent := difference (Items F) antecedent;
      RuleSupport := Support F;
      Confidence := PrimFloat.div (Support F) antecedentSupport;
      Lift := PrimFloat.div (PrimFloat.div (Support F) antecedentSupport)
                consequentSupport;
      LeverageMetric :=
        PrimFloat.sub (Support F)
          (PrimFloat.mul antecedentSupport consequentSupport);
      ConvictionMetric :=
        conviction consequentSupport
          (PrimFloat.div (Support F) antecedentSupport) |}.
Proof.
  unfold ruleStep.
  destruct (Nat.eqb_spec (length antecedent) 0) as [H0 | H0];
    [discriminate |].
  destruct (Nat.eqb_spec (length antecedent) (length (Items F))) as [H1 | H1];
    [discriminate |].
  simpl.
  destruct (itemsetMap !! Go.Join antecedent ",") as [antecedentSupport |];
    [| discriminate].
  destruct (PrimFloat.leb minConfidence _) eqn:Hconf; [| discriminate].
  destruct (itemsetMap !! Go.Join (difference (Items F) antecedent) ",")
    as [consequentSupport |]; [| discriminate].
  intros [= <-]. repeat split; auto.
  exists antecedentSupport, consequentSupport. auto.
Qed.

Lemma GenerateAssociationRules_origin rules rule :
  GenerateAssociationRules itemsets minConfidence = Some rules ->
  rule ∈ rules ->
  exists F antecedents antecedent,
    F ∈ itemsets /\ 1 < Length F /\
    generateAllSubsets (Items F) = Some antecedents /\
    antecedent ∈ antecedents /\
    ruleStep (buildItemsetMap itemsets) minConfidence F antecedent = Emit rule.
Proof.
  unfold GenerateAssociationRules.
  destruct (ruleSteps itemsets minConfidence) as [steps |] eqn:Hsteps;
    [| discriminate].
  intros [= <-] Hin.
  apply list_elem_of_omap in Hin as (step & Hstep & Hemit).
  destruct step; try discriminate. injection Hemit as ->.
  destruct (ruleSteps_origin steps _ Hsteps Hstep)
    as (F & antecedents & antecedent & H1 & H2 & H3 & H4 & H5).
  exists F, antecedents, antecedent. repeat split; auto.
Qed.

End Rules.

(** ** Claims about the rules *)

Lemma ruleStep_lookups (itemsetMap : gmap string float) minConfidence F antecedent :
  (length antecedent <> 0%nat -> length antecedent <> length (Items F) ->
   is_Some (itemsetMap !! Go.Join antecedent ",") /\
   is_Some (itemsetMap !! Go.Join (difference (Items F) antecedent) ",")) ->
  ruleStep itemsetMap minConfidence F antecedent <> SkipAntecedentMissing /\
  ruleStep itemsetMap minConfidence F antecedent <> SkipConsequentMissing.
Proof.
  intros Hfound. unfold ruleStep.
  destruct (Nat.eqb_spec (length antecedent) 0) as [H0 | H0];
    [split; discriminate |].
  destruct (Nat.eqb_spec (length antecedent) (length (Items F))) as [H1 | H1];
    [split; discriminate |].
  simpl. destruct (Hfound H0 H1) as [[a ->] [c ->]].
  destruct (PrimFloat.leb minConfidence _); split; discriminate.
Qed.

(** C2. On an output of mining for a dataset that satisfies the dataset
    invariant, the lookup of the antecedent support and the lookup of the
    consequent support succeed for every enumerated non-empty proper
    antecedent of every itemset of length above 1, so that no step of rule
    generation takes either of the two skip branches behind a failed
    lookup. *)
Theorem rule_lookups_succeed dataset minSupport maxLen out :
  DatasetInvariant dataset ->
  FindFrequentItemsets dataset minSupport maxLen = Some out ->
  (forall F antecedents antecedent,
     F ∈ out -> 1 < Length F ->
     generateAllSubsets (Items F) = Some antecedents ->
     antecedent ∈ antecedents ->
     length antecedent <> 0%nat -> length antecedent <> length (Items F) ->
     is_Some (buildItemsetMap out !! Go.Join antecedent ",") /\
     is_Some (buildItemsetMap out !!
                Go.Join (difference (Items F) antecedent) ",")) /\
  (forall minConfidence steps,
     ruleSteps out minConfidence = Some steps ->
     (SkipAntecedentMissing ∉ steps) /\ (SkipConsequentMissing ∉ steps)).
Proof.
  intros Hds Hout.
  pose proof (FindFrequentItemsets_invariant _ _ _ _ Hds Hout) as Hinv.
  assert (forall F antecedents antecedent,
     F ∈ out -> 1 < Length F ->
     generateAllSubsets (Items F) = Some antecedents ->
     antecedent ∈ antecedents ->
     length antecedent <> 0%nat -> length antecedent <> length (Items F) ->
     is_Some (buildItemsetMap out !! Go.Join antecedent ",") /\
     is_Some (buildItemsetMap out !!
                Go.Join (difference (Items F) antecedent) ",")) as Hfound.
  { intros F antecedents antecedent HF Hk Hgen Ha Hne Hproper.
    pose proof (generateAllSubsets_sublist _ _ _ Hgen Ha) as Hsub.
    split.
    - destruct (MiningInvariant_sublists out Hinv F antecedent HF Hsub)
        as (G & HG & <-); [by destruct antecedent |].
      by apply itemsetMap_has.
    - destruct (MiningInvariant_sublists out Hinv F
                  (difference (Items F) antecedent) HF) as (G & HG & <-).
      + apply difference_sublist.
      + apply difference_nonempty; auto.
        apply strictlySorted_NoDup, (out_canonical out Hinv F HF).
      + by apply itemsetMap_has. }
  split; [exact Hfound |].
  intros minConfidence steps Hsteps.
  split; intros Hin;
    destruct (ruleSteps_origin out minConfidence steps _ Hsteps Hin)
      as (F & antecedents & antecedent & HF & Hk & Hgen & Ha & Hstep);
    destruct (ruleStep_lookups (buildItemsetMap out) minConfidence F antecedent)
      as [H1 H2]; eauto; congruence.
Qed.

Lemma rule_lookups_succeed_witness :
  exists out,
    FindFrequentItemsets exampleDataset 0.25%float 3 = Some out /\
    (forall F antecedents antecedent,
       F ∈ out -> 1 < Length F ->
       generateAllSubsets (Items F) = Some antecedents ->
       antecedent ∈ antecedents ->
       length antecedent <> 0%nat -> length antecedent <> length (Items F) ->
       is_Some (buildItemsetMap out !! Go.Join antecedent ",") /\
       is_Some (buildItemsetMap out !!
                  Go.Join (difference (Items F) antecedent) ",")) /\
    (forall minConfidence steps,
       ruleSteps out minConfidence = Some steps ->
       (SkipAntecedentMissing ∉ steps) /\ (SkipConsequentMissing ∉ steps)).
Proof.
  eexists. split; [vm_compute; reflexivity |].
  apply (rule_lookups_succeed exampleDataset 0.25%float 3).
  - exact exampleDataset_invariant.
  - vm_compute. reflexivity.
Defined.

(** C7, as the specification states it, promises a non-empty consequent
    for every rule that [GenerateAssociationRules] returns.  The function
    accepts any list: for an itemset that repeats an item, here [a, a], the
    antecedent [a] is enumerated, [difference] leaves nothing of the
    itemset, and when the empty key is in the map the rule [a -> ()] is
    returned. *)
Lemma rule_partition_counterexample :
  exists rules rule,
    GenerateAssociationRules
      [ {| Items := []; Support := 1; Length := 0 |};
        {| Items := ["a"]; Support := 0.5; Length := 1 |};
        {| Items := ["a"; "a"]; Support := 0.5; Length := 2 |} ]%string
      0.5%float = Some rules /\
    rule ∈ rules /\
    Antecedent rule = ["a"]%string /\ Consequent rule = [].
Proof.
  eexists. eexists. split; [vm_compute; reflexivity |].
  split; [left |]. split; reflexivity.
Qed.

(** C7, amended.  Rule partition invariant.  Every returned rule comes from
    an itemset [F] of the input list: its antecedent is not empty, its
    antecedent and its consequent are disjoint, their union is the item set
    of [F], and its [Support] is the [Support] of [F].  The consequent is
    not empty when the item sequence of [F] is duplicate-free, and so it is
    for every rule generated from an output of mining on a dataset that
    satisfies the dataset invariant. *)
Theorem rule_partition itemsets minConfidence rules rule :
  GenerateAssociationRules itemsets minConfidence = Some rules ->
  rule ∈ rules ->
  exists F, F ∈ itemsets /\
    Antecedent rule <> [] /\
    (NoDup (Items F) -> Consequent rule <> []) /\
    (forall x, x ∈ Antecedent rule -> x ∉ Consequent rule) /\
    (forall x, x ∈ Items F <-> x ∈ Antecedent rule \/ x ∈ Consequent rule) /\
    RuleSupport rule = Support F /\
    (forall dataset minSupport maxLen,
       DatasetInvariant dataset ->
       FindFrequentItemsets dataset minSupport maxLen = Some itemsets ->
       Consequent rule <> []).
Proof.
  intros Hrules Hin.
  destruct (GenerateAssociationRules_origin _ _ _ _ Hrules Hin)
    as (F & antecedents & antecedent & HF & Hk & Hgen & Ha & Hstep).
  apply ruleStep_emit in Hstep as (Hne & Hproper & sa & sc & _ & _ & _ & ->).
  pose proof (generateAllSubsets_sublist _ _ _ Hgen Ha) as Hsub.
  assert (NoDup (Items F) -> difference (Items F) antecedent <> []) as Hcons
    by (intros Hnd; apply difference_nonempty; auto).
  exists F. simpl. split; [exact HF |].
  split; [by destruct antecedent |].
  split; [exact Hcons |].
  split.
  { intros x Hx Hd. apply difference_elem_of in Hd as [_ Hd]. contradiction. }
  split.
  { intros x. rewrite difference_elem_of. split.
    - intros Hx. destruct (decide (x ∈ antecedent)); auto.
    - intros [Hx | [Hx _]]; [| exact Hx].
      eapply sublist_submseteq, elem_of_submseteq in Hsub; eauto. }
  split; [reflexivity |].
  intros dataset minSupport maxLen Hds Hout. apply Hcons.
  pose proof (FindFrequentItemsets_invariant _ _ _ _ Hds Hout) as Hinv.
  apply strictlySorted_NoDup, (out_canonical itemsets Hinv F HF).
Qed.

Lemma rule_partition_witness :
  let itemsets :=
    [ {| Items := ["bread"]; Support := 0.75; Length := 1 |};
      {| Items := ["butter"]; Support := 0.5; Length := 1 |};
      {| Items := ["bread"; "butter"]; Support := 0.5; Length := 2 |} ]%string in
  let rule :=
    {| Antecedent := ["butter"]; Consequent := ["bread"]; RuleSupport := 0.5;
       Confidence := 1; Lift := 0x1.5555555555555p+0;
       LeverageMetric := 0.125; ConvictionMetric := infinity |}%string%float in
  exists F, F ∈ itemsets /\
    Antecedent rule <> [] /\
    (NoDup (Items F) -> Consequent rule <> []) /\
    (forall x, x ∈ Antecedent rule -> x ∉ Consequent rule) /\
    (forall x, x ∈ Items F <-> x ∈ Antecedent rule \/ x ∈ Consequent rule) /\
    RuleSupport rule = Support F /\
    (forall dataset minSupport maxLen,
       DatasetInvariant dataset ->
       FindFrequentItemsets dataset minSupport maxLen = Some itemsets ->
       Consequent rule <> []).
Proof.
  intros itemsets rule.
  apply (rule_partition itemsets 0.5%float
           (default [] (GenerateAssociationRules itemsets 0.5%float)) rule).
  - vm_compute. reflexivity.
  - vm_compute. right. left.
Defined.

(** ** The worked example *)

(** C3, as the specification states it, counts the pair milk, butter in no
    transaction.  The third transaction holds both items: the counted
    support is 1/4. *)
Lemma example_support_counterexample :
  candidateSupport exampleDataset ["butter"; "milk"]%string <> 0%float.
Proof.
  intros H.
  assert (PrimFloat.eqb (candidateSupport exampleDataset ["butter"; "milk"]%string)
            0%float = true) as E by (rewrite H; reflexivity).
  vm_compute in E. discriminate.
Qed.

(** C3, amended.  On the dataset of the example with [minSupport = 0.5] and
    [maxLen = 2], mining returns bread (0.75), butter (0.5, exactly at the
    threshold) and milk (0.75), then bread-butter (0.5) and bread-milk
    (0.5).  The three candidates of level 2 are counted with supports 0.5,
    0.5 and, for butter-milk, 0.25, which is below the threshold.  With
    [minConfidence = 0.6] the four rules bread -> butter, butter -> bread,
    bread -> milk and milk -> bread are emitted, with confidence 0.5/0.75
    except for butter -> bread, whose confidence is 1.0 and whose
    conviction is infinite. *)
Theorem example_run :
  FindFrequentItemsets exampleDataset 0.5%float 2 = Some exampleItemsets /\
  generateCandidates (frequentItems exampleDataset 0.5%float) 2 =
    Some exampleCandidates /\
  candidateSupport exampleDataset ["bread"; "butter"]%string = 0.5%float /\
  candidateSupport exampleDataset ["bread"; "milk"]%string = 0.5%float /\
  candidateSupport exampleDataset ["butter"; "milk"]%string = 0.25%float /\
  PrimFloat.leb 0.5%float 0.25%float = false /\
  GenerateAssociationRules exampleItemsets confidence06 =
    Some [ exampleRule "bread" "butter" 0.5 0.75 0.5;
           exampleRule "butter" "bread" 0.5 0.5 0.75;
           exampleRule "bread" "milk" 0.5 0.75 0.75;
           exampleRule "milk" "bread" 0.5 0.75 0.75 ]%float /\
  Confidence (exampleRule "butter" "bread" 0.5 0.5 0.75) = 1%float /\
  ConvictionMetric (exampleRule "butter" "bread" 0.5 0.5 0.75) = infinity.
Proof.
  repeat split; vm_compute; reflexivity.
Qed.

(** ** Binary64 arithmetic on counts *)

Section Binary64.

Lemma fexp_eq x : fexp prec emax x = Z.max (x - 53) (-1074).
Proof. reflexivity. Qed.

Lemma digits2_pos_size p : digits2_pos p = Pos.size p.
Proof. induction p; simpl; congruence. Qed.

Lemma digits2_pos_upper p : Zpos p < 2 ^ Zpos (digits2_pos p).
Proof.
  rewrite digits2_pos_size. pose proof (Pos.size_gt p) as H.
  rewrite <- Pos2Z.inj_pow. exact H.
Qed.

Lemma digits2_pos_lower p : 2 ^ (Zpos (digits2_pos p) - 1) <= Zpos p.
Proof.
  rewrite digits2_pos_size. pose proof (Pos.size_le p) as H.
  assert (2 ^ Zpos (Pos.size p) <= 2 * Zpos p) as H'.
  { rewrite <- Pos2Z.inj_pow. exact H. }
  replace (Zpos (Pos.size p)) with (Zpos (Pos.size p) - 1 + 1) in H' by lia.
  rewrite Z.pow_add_r in H' by lia. lia.
Qed.

(** A non-negative mantissa below [2^k] has at most [k] digits. *)
Lemma Zdigits2_le m k : 0 <= m < 2 ^ k -> 0 <= k -> Zdigits2 m <= k.
Proof.
  intros [Hm Hlt] Hk. destruct m as [| p | p]; simpl; [lia | | lia].
  pose proof (digits2_pos_lower p) as Hl.
  destruct (Z.le_gt_cases (Zpos (digits2_pos p)) k) as [H | H]; [exact H |].
  assert (2 ^ k <= 2 ^ (Zpos (digits2_pos p) - 1)) by (apply Z.pow_le_mono_r; lia).
  lia.
Qed.

Lemma shr_1_m mrs : 0 <= shr_m mrs -> shr_m (shr_1 mrs) = shr_m mrs / 2.
Proof.
  destruct mrs as [m r s]. simpl. intros Hm.
  rewrite <- Z.div2_div.
  destruct m as [| [p | p |] | p]; simpl; try reflexivity; lia.
Qed.

Lemma iter_shr_1_m p mrs :
  0 <= shr_m mrs ->
  shr_m (@SpecFloat.iter_pos shr_record shr_1 p mrs) = shr_m mrs / 2 ^ Zpos p.
Proof.
  revert mrs. induction p as [p IH | p IH |]; intros mrs Hm; simpl SpecFloat.iter_pos.
  - assert (0 <= shr_m (shr_1 mrs)) as H1
      by (rewrite shr_1_m by exact Hm; apply Z.div_pos; lia).
    assert (0 <= shr_m (@SpecFloat.iter_pos shr_record shr_1 p (shr_1 mrs))) as H2
      by (rewrite IH by exact H1; apply Z.div_pos; [exact H1 | lia]).
    rewrite IH by exact H2. rewrite IH by exact H1. rewrite shr_1_m by exact Hm.
    rewrite !Z.div_div by lia. f_equal.
    rewrite Pos2Z.inj_xI. rewrite <- !Z.pow_add_r by lia.
    replace (2 * Zpos p + 1) with (1 + Zpos p + Zpos p) by lia.
    rewrite !Z.pow_add_r by lia. lia.
  - assert (0 <= shr_m (@SpecFloat.iter_pos shr_record shr_1 p mrs)) as H2
      by (rewrite IH by exact Hm; apply Z.div_pos; [exact Hm | lia]).
    rewrite IH by exact H2. rewrite IH by exact Hm.
    rewrite !Z.div_div by lia. f_equal.
    rewrite Pos2Z.inj_xO. rewrite <- Z.pow_add_r by lia. f_equal. lia.
  - rewrite shr_1_m by exact Hm. reflexivity.
Qed.

Lemma shr_record_of_loc_m m l : shr_m (shr_record_of_loc m l) = m.
Proof. destruct l as [| []]; reflexivity. Qed.

(** [shr_fexp] divides the mantissa by the power of two that brings the
    exponent up to the canonical one. *)
Lemma shr_fexp_spec m e l :
  0 <= m ->
  let e1 := Z.max e (fexp prec emax (Zdigits2 m + e)) in
  snd (shr_fexp prec emax m e l) = e1 /\
  shr_m (fst (shr_fexp prec emax m e l)) = m / 2 ^ (e1 - e).
Proof.
  intros Hm e1. unfold shr_fexp, shr.
  destruct (fexp prec emax (Zdigits2 m + e) - e) as [| p | p] eqn:Hn; simpl.
  - replace (e1 - e) with 0 by lia.
    rewrite shr_record_of_loc_m, Z.div_1_r. split; [lia | reflexivity].
  - rewrite iter_shr_1_m by (rewrite shr_record_of_loc_m; exact Hm).
    rewrite shr_record_of_loc_m.
    replace (e1 - e) with (Zpos p) by lia. split; [lia | reflexivity].
  - replace (e1 - e) with 0 by lia.
    rewrite shr_record_of_loc_m, Z.div_1_r. split; [lia | reflexivity].
Qed.

Lemma round_nearest_even_bounds m l :
  m <= round_nearest_even m l <= m + 1.
Proof.
  destruct l as [| []]; simpl; try lia. destruct (Z.even m); lia.
Qed.

(** One pass of [shr_fexp] on a value below [2^K]. *)
Lemma shr_fexp_upper K m e l b :
  0 <= m -> e <= K -> -1074 <= K -> 0 <= b <= 1 -> m < 2 ^ (K - e) + b ->
  let r := shr_fexp prec emax m e l in
  e <= snd r <= K /\ 0 <= shr_m (fst r) /\
  shr_m (fst r) < 2 ^ (K - snd r) + b.
Proof.
  intros Hm He HK Hb Hlt r.
  destruct (shr_fexp_spec m e l Hm) as [He1 Hm1]. fold r in He1, Hm1.
  set (e1 := Z.max e (fexp prec emax (Zdigits2 m + e))) in *.
  assert (Zdigits2 m <= K - e + 1) as Hd.
  { apply Zdigits2_le; [| lia]. split; [exact Hm |].
    rewrite Z.pow_add_r by lia. change (2 ^ 1) with 2.
    assert (0 < 2 ^ (K - e)) by (apply Z.pow_pos_nonneg; lia). lia. }
  assert (e <= e1 <= K) as Hrange.
  { unfold e1. rewrite fexp_eq. lia. }
  rewrite He1, Hm1. split; [exact Hrange |].
  split; [apply Z.div_pos; [exact Hm | apply Z.pow_pos_nonneg; lia] |].
  assert (2 ^ (K - e) = 2 ^ (K - e1) * 2 ^ (e1 - e)) as Hpow.
  { rewrite <- Z.pow_add_r by lia. f_equal. lia. }
  assert (0 < 2 ^ (e1 - e)) as Hp by (apply Z.pow_pos_nonneg; lia).
  assert (0 < 2 ^ (K - e1)) as Hp1 by (apply Z.pow_pos_nonneg; lia).
  destruct (Z.eq_dec e1 e) as [Heq | Hne].
  - rewrite Heq, Z.sub_diag, Z.div_1_r. exact Hlt.
  - assert (m / 2 ^ (e1 - e) <= 2 ^ (K - e1)) as Hle.
    { apply Z.div_le_upper_bound; [exact Hp |].
      rewrite Z.mul_comm, <- Hpow. lia. }
    destruct (Z.eq_dec b 1) as [-> | Hb1]; [lia |].
    assert (m < 2 ^ (K - e)) as Hlt' by lia.
    assert (m / 2 ^ (e1 - e) < 2 ^ (K - e1)); [| lia].
    apply Z.div_lt_upper_bound; [exact Hp |].
    rewrite Z.mul_comm, <- Hpow. exact Hlt'.
Qed.

(** Rounding a non-negative value below [2^K] gives at most [2^K]: there is
    no overflow. *)
Lemma binary_round_aux_upper K sx mx ex lx :
  0 <= mx -> ex <= K -> -1074 <= K <= 971 -> mx < 2 ^ (K - ex) ->
  magnitudeAtMost K sx (binary_round_aux prec emax sx mx ex lx).
Proof.
  intros Hm He HK Hlt. unfold binary_round_aux.
  destruct (shr_fexp_upper K mx ex lx 0 Hm He ltac:(lia) ltac:(lia) ltac:(lia))
    as (He' & Hm' & Hlt').
  destruct (shr_fexp prec emax mx ex lx) as [mrs' e']. simpl in He', Hm', Hlt'.
  pose proof (round_nearest_even_bounds (shr_m mrs') (loc_of_shr_record mrs'))
    as Hr.
  set (mr := round_nearest_even (shr_m mrs') (loc_of_shr_record mrs')) in *.
  destruct (shr_fexp_upper K mr e' loc_Exact 1 ltac:(lia) ltac:(lia) ltac:(lia)
              ltac:(lia) ltac:(lia)) as (He'' & Hm'' & Hlt'').
  destruct (shr_fexp prec emax mr e' loc_Exact) as [mrs'' e''].
  simpl in He'', Hm'', Hlt''.
  destruct (shr_m mrs'') as [| m | m]; simpl; [reflexivity | | lia].
  change (Z.sub emax prec) with 971.
  destruct (Z.leb_spec e'' 971) as [_ | H]; [| lia].
  simpl. split; [reflexivity |]. split; lia.
Qed.

Lemma binary_round_aux_below sx mx ex lx :
  0 <= mx -> ex <= 0 -> mx < 2 ^ (- ex) ->
  atMostOne sx (binary_round_aux prec emax sx mx ex lx).
Proof.
  intros Hm He Hlt. apply binary_round_aux_upper; auto; lia.
Qed.

Lemma Prim2SF_one : Prim2SF 1%float = sfOne.
Proof. reflexivity. Qed.

(** A valid float of value at most one lies below every float above one. *)
Lemma above_one_not_leb m q :
  valid_binary q = true -> atMostOne false q ->
  SFltb sfOne m = true -> SFleb m q = false.
Proof.
  intros Hvalid Hq Hm.
  destruct m as [sm | sm | | sm mm em]; try discriminate.
  - destruct sm; [discriminate |].
    destruct q as [sq | sq | | sq mq eq]; simpl in Hq; try contradiction;
      reflexivity.
  - destruct sm; [discriminate |].
    destruct q as [sq | sq | | sq mq eq]; simpl in Hq; try contradiction;
      [reflexivity |].
    destruct Hq as (-> & Heq & Hmq). rewrite Z.sub_0_l in Hmq.
    simpl in Hvalid. apply andb_prop in Hvalid as [Hcanon _].
    unfold canonical_mantissa in Hcanon. apply Z.eqb_eq in Hcanon.
    rewrite fexp_eq in Hcanon.
    pose proof (digits2_pos_lower mq) as Hlow.
    assert (eq < -52 \/ (eq = -52 /\ Zpos mq <= 2 ^ 52)) as Hle.
    { destruct (Z.lt_ge_cases eq (-52)) as [H | H]; [by left | right].
      assert (Zpos (digits2_pos mq) = 53) as Hd by lia.
      rewrite Hd in Hlow. change (53 - 1) with 52 in Hlow.
      assert (2 ^ 52 <= 2 ^ (- eq)) as Hpow by lia.
      apply Z.pow_le_mono_r_iff in Hpow; [| lia | lia].
      assert (eq = -52) as -> by lia. split; [reflexivity | exact Hmq]. }
    unfold SFltb, sfOne, SFcompare in Hm. unfold SFleb, SFcompare.
    destruct (Z.compare_spec (-52) em) as [E | E | E]; try discriminate.
    + subst em. rewrite Pos.compare_cont_spec in Hm. simpl in Hm.
      destruct (Pos.compare_spec 4503599627370496 mm) as [E | E | E];
        try discriminate.
      destruct Hle as [Hlt | [-> Hle]].
      * destruct (Z.compare_spec (-52) eq); try reflexivity; lia.
      * simpl. rewrite Pos.compare_cont_spec. simpl.
        destruct (Pos.compare_spec mm mq) as [E' | E' | E']; try reflexivity;
          change (2 ^ 52) with 4503599627370496 in Hle; lia.
    + destruct (Z.compare_spec em eq); try reflexivity; lia.
Qed.

Lemma iter_xO_value p k : Zpos (Pos.iter xO p k) = Zpos p * 2 ^ Zpos k.
Proof.
  induction k as [| k IH] using Pos.peano_ind.
  - simpl. lia.
  - rewrite Pos.iter_succ, Pos2Z.inj_xO, IH, Pos2Z.inj_succ, Z.pow_succ_r by lia.
    lia.
Qed.

Lemma iter_xO_digits p k :
  Zpos (digits2_pos (Pos.iter xO p k)) = Zpos (digits2_pos p) + Zpos k.
Proof.
  induction k as [| k IH] using Pos.peano_ind.
  - simpl. lia.
  - rewrite Pos.iter_succ. simpl digits2_pos. rewrite Pos2Z.inj_succ, IH. lia.
Qed.

(** A mantissa of 53 digits with an exponent in range is left as it is. *)
Lemma binary_round_aux_exact s m e :
  Zpos (digits2_pos m) = 53 -> -1074 <= e <= 971 ->
  binary_round_aux prec emax s (Zpos m) e loc_Exact = S754_finite s m e.
Proof.
  intros Hd He. unfold binary_round_aux.
  assert (shr_fexp prec emax (Zpos m) e loc_Exact =
          ({| shr_m := Zpos m; shr_r := false; shr_s := false |}, e)) as Hshr.
  { unfold shr_fexp. simpl Zdigits2. rewrite fexp_eq, Hd.
    replace (Z.max (53 + e - 53) (-1074) - e) with 0 by lia. reflexivity. }
  rewrite Hshr. simpl. rewrite Hshr. simpl.
  change (Z.sub emax prec) with 971.
  destruct (Z.leb_spec e 971); [reflexivity | lia].
Qed.

(** [float64(n)] is exact for [0 < n < 2^53]: a mantissa of 53 digits. *)
Lemma float64_exact n :
  (0 < n)%nat -> Z.of_nat n < 2 ^ 53 ->
  exists mx ex,
    Prim2SF (Go.float64 n) = S754_finite false mx ex /\
    Zpos (digits2_pos mx) = 53 /\ -52 <= ex <= 0 /\
    Zpos mx = Z.of_nat n * 2 ^ (- ex).
Proof.
  intros Hpos Hlt. unfold Go.float64.
  rewrite FloatAxioms.of_uint63_spec, Uint63.of_Z_spec.
  rewrite Z.mod_small
    by (change wB with (2 ^ 63); split; [lia |];
        eapply Z.lt_trans; [exact Hlt | reflexivity]).
  destruct (Z.of_nat n) as [| p | p] eqn:Hn; [lia | | lia].
  simpl binary_normalize. unfold binary_round, shl_align.
  assert (1 <= Zpos (digits2_pos p) <= 53) as Hd.
  { split; [lia |]. apply (Zdigits2_le (Zpos p)); lia. }
  change (Z.add (Zpos (digits2_pos p)) 0) with (Zpos (digits2_pos p) + 0).
  rewrite Z.add_0_r, fexp_eq.
  replace (Z.max (Zpos (digits2_pos p) - 53) (-1074))
    with (Zpos (digits2_pos p) - 53) by lia.
  change (Z.sub (Zpos (digits2_pos p) - 53) 0)
    with (Zpos (digits2_pos p) - 53 - 0).
  rewrite Z.sub_0_r.
  destruct (Zpos (digits2_pos p) - 53) as [| k | k] eqn:Hk; [| lia |].
  - exists p, 0. rewrite binary_round_aux_exact by lia.
    repeat split; try lia.
  - exists (Pos.iter xO p k), (Zneg k).
    assert (Zpos (digits2_pos (Pos.iter xO p k)) = 53) as Hd'
      by (rewrite iter_xO_digits; lia).
    rewrite binary_round_aux_exact by lia.
    repeat split; try lia.
    rewrite iter_xO_value. reflexivity.
Qed.

Lemma div_eucl_div_mod a b : Z.div_eucl a b = (a / b, a mod b).
Proof. unfold Z.div, Z.modulo. destruct (Z.div_eucl a b). reflexivity. Qed.

Lemma SFdiv_core_normal mx ex my ey :
  Zpos (digits2_pos mx) = 53 -> Zpos (digits2_pos my) = 53 ->
  -52 <= ex <= 0 -> -52 <= ey <= 0 ->
  SFdiv_core_binary prec emax (Zpos mx) ex (Zpos my) ey =
    (Zpos mx * 2 ^ 53 / Zpos my, ex - ey - 53,
     new_location (Zpos my) ((Zpos mx * 2 ^ 53) mod Zpos my)).
Proof.
  intros Hdx Hdy Hex Hey. unfold SFdiv_core_binary. simpl Zdigits2.
  rewrite Hdx, Hdy.
  change (Z.sub (Z.add 53 ex) (Z.add 53 ey)) with (53 + ex - (53 + ey)).
  rewrite fexp_eq.
  change (Z.min (Z.max (53 + ex - (53 + ey) - 53) (-1074)) (Z.sub ex ey))
    with (Z.min (Z.max (53 + ex - (53 + ey) - 53) (-1074)) (ex - ey)).
  replace (Z.min (Z.max (53 + ex - (53 + ey) - 53) (-1074)) (ex - ey))
    with (ex - ey - 53) by lia.
  change (Z.sub (Z.sub ex ey) (ex - ey - 53)) with (ex - ey - (ex - ey - 53)).
  replace (ex - ey - (ex - ey - 53)) with 53 by lia.
  rewrite Z.shiftl_mul_pow2 by lia.
  rewrite div_eucl_div_mod. reflexivity.
Qed.

(** The quotient of a float by itself is one. *)
Lemma SFdiv_self m e :
  Zpos (digits2_pos m) = 53 -> -52 <= e <= 0 ->
  SFdiv prec emax (S754_finite false m e) (S754_finite false m e) = sfOne.
Proof.
  intros Hd He. unfold SFdiv. rewrite SFdiv_core_normal by assumption.
  rewrite Z.mul_comm, Z.div_mul, Z.mod_mul by lia.
  replace (e - e - 53) with (-53) by lia.
  assert (new_location (Zpos m) 0 = loc_Exact) as ->.
  { unfold new_location, new_location_even, new_location_odd.
    destruct (Z.even (Zpos m)); reflexivity. }
  reflexivity.
Qed.

(** The quotient of a float by a larger one is at most one. *)
Lemma SFdiv_below mx ex my ey :
  Zpos (digits2_pos mx) = 53 -> Zpos (digits2_pos my) = 53 ->
  -52 <= ex <= 0 -> -52 <= ey <= 0 ->
  Zpos mx * 2 ^ (- ey) < Zpos my * 2 ^ (- ex) ->
  atMostOne false
    (SFdiv prec emax (S754_finite false mx ex) (S754_finite false my ey)).
Proof.
  intros Hdx Hdy Hex Hey Hlt. unfold SFdiv.
  rewrite SFdiv_core_normal by assumption.
  apply binary_round_aux_below.
  - apply Z.div_pos; lia.
  - lia.
  - apply Z.div_lt_upper_bound; [lia |].
    assert (2 ^ 53 = 2 ^ (- ey) * 2 ^ (53 + ey)) as ->
      by (rewrite <- Z.pow_add_r by lia; f_equal; lia).
    assert (2 ^ (- (ex - ey - 53)) = 2 ^ (- ex) * 2 ^ (53 + ey)) as ->
      by (rewrite <- Z.pow_add_r by lia; f_equal; lia).
    assert (0 < 2 ^ (53 + ey)) by (apply Z.pow_pos_nonneg; lia).
    nia.
Qed.

(** A count divided by a larger, exactly converted count is at most one. *)
Lemma ratio_atMostOne c n :
  (c <= n)%nat -> (0 < n)%nat -> Z.of_nat n < 2 ^ 53 ->
  atMostOne false (Prim2SF (PrimFloat.div (Go.float64 c) (Go.float64 n))).
Proof.
  intros Hle Hpos Hlt. rewrite FloatAxioms.div_spec.
  destruct (float64_exact n Hpos Hlt) as (my & ey & Hn & Hdy & Hey & Hy).
  destruct c as [| c'].
  - rewrite Hn. reflexivity.
  - destruct (float64_exact (S c') ltac:(lia) ltac:(lia))
      as (mx & ex & Hx & Hdx & Hex & Hxv).
    destruct (Nat.eq_dec (S c') n) as [<- | Hne].
    + rewrite Hx. unfold SF64div. rewrite SFdiv_self by assumption.
      simpl. split; [reflexivity |]. split; [lia | reflexivity].
    + rewrite Hx, Hn. apply SFdiv_below; auto.
      rewrite Hxv, Hy.
      assert (0 < 2 ^ (- ex)) by (apply Z.pow_pos_nonneg; lia).
      assert (0 < 2 ^ (- ey)) by (apply Z.pow_pos_nonneg; lia).
      assert (Z.of_nat (S c') < Z.of_nat n) by lia.
      nia.
Qed.

(** No such ratio reaches a threshold above one. *)
Lemma ratio_below_threshold minSupport c n :
  PrimFloat.ltb 1%float minSupport = true ->
  (c <= n)%nat -> (0 < n)%nat -> Z.of_nat n < 2 ^ 53 ->
  PrimFloat.leb minSupport (PrimFloat.div (Go.float64 c) (Go.float64 n)) = false.
Proof.
  intros Hms Hle Hpos Hlt.
  rewrite FloatAxioms.ltb_spec, Prim2SF_one in Hms. rewrite FloatAxioms.leb_spec.
  apply above_one_not_leb; [apply Prim2SF_valid | | exact Hms].
  by apply ratio_atMostOne.
Qed.

(** *** Lower bounds *)

Lemma atLeast_pos t m e : atLeast t m e -> 1 <= m.
Proof.
  intros [[He Hm] | [_ Hm]]; [| exact Hm].
  assert (0 < 2 ^ (t - e)) by (apply Z.pow_pos_nonneg; lia). lia.
Qed.

Lemma atLeast_mono t m m' e : atLeast t m e -> m <= m' -> atLeast t m' e.
Proof. intros [[He Hm] | [He Hm]] Hle; [left | right]; split; lia. Qed.

Lemma shr_fexp_atLeast t m e l :
  -1074 <= t -> atLeast t m e ->
  let r := shr_fexp prec emax m e l in
  atLeast t (shr_m (fst r)) (snd r).
Proof.
  intros Ht Hat r.
  pose proof (atLeast_pos _ _ _ Hat) as Hpos.
  destruct (shr_fexp_spec m e l ltac:(lia)) as [He1 Hm1]. fold r in He1, Hm1.
  rewrite He1, Hm1. clear He1 Hm1 r.
  destruct m as [| p | p]; [lia | | lia]. simpl Zdigits2.
  rewrite fexp_eq.
  pose proof (digits2_pos_lower p) as Hlow.
  set (d := Zpos (digits2_pos p)) in *.
  destruct (Z.le_gt_cases (Z.max (d + e - 53) (-1074)) e) as [Hle | Hgt].
  - replace (Z.max e (Z.max (d + e - 53) (-1074))) with e by lia.
    rewrite Z.sub_diag, Z.div_1_r. exact Hat.
  - replace (Z.max e (Z.max (d + e - 53) (-1074)))
      with (Z.max (d + e - 53) (-1074)) by lia.
    set (F := Z.max (d + e - 53) (-1074)) in *.
    assert (0 < 2 ^ (F - e)) as Hp by (apply Z.pow_pos_nonneg; lia).
    destruct (Z.le_gt_cases F t) as [HFt | HFt].
    + left. split; [exact HFt |].
      destruct Hat as [[He Hm] | [He _]]; [| lia].
      apply Z.div_le_lower_bound; [exact Hp |].
      rewrite <- Z.pow_add_r by lia.
      replace (F - e + (t - F)) with (t - e) by lia. exact Hm.
    + right. split; [exact HFt |].
      apply Z.div_le_lower_bound; [exact Hp |]. rewrite Z.mul_1_r.
      assert (F = d + e - 53) as HF by lia.
      eapply Z.le_trans; [| exact Hlow].
      apply Z.pow_le_mono_r; lia.
Qed.

Lemma binary_round_aux_lower t sx mx ex lx :
  -1074 <= t -> atLeast t mx ex ->
  magnitudeAtLeast t sx (binary_round_aux prec emax sx mx ex lx).
Proof.
  intros Ht Hat. unfold binary_round_aux.
  pose proof (shr_fexp_atLeast t mx ex lx Ht Hat) as H1.
  destruct (shr_fexp prec emax mx ex lx) as [mrs' e']. simpl in H1.
  pose proof (round_nearest_even_bounds (shr_m mrs') (loc_of_shr_record mrs'))
    as Hr.
  set (mr := round_nearest_even (shr_m mrs') (loc_of_shr_record mrs')) in *.
  assert (atLeast t mr e') as H2 by (eapply atLeast_mono; [exact H1 | lia]).
  pose proof (shr_fexp_atLeast t mr e' loc_Exact Ht H2) as H3.
  destruct (shr_fexp prec emax mr e' loc_Exact) as [mrs'' e'']. simpl in H3.
  pose proof (atLeast_pos _ _ _ H3) as Hpos.
  destruct (shr_m mrs'') as [| m | m]; [lia | | lia].
  destruct (Z.leb e'' (Z.sub emax prec)); simpl; auto.
Qed.

Lemma binary_round_aux_sign sx mx ex lx :
  hasSign sx (binary_round_aux prec emax sx mx ex lx).
Proof.
  unfold binary_round_aux.
  destruct (shr_fexp prec emax mx ex lx) as [mrs' e'].
  destruct (shr_fexp prec emax _ e' loc_Exact) as [mrs'' e''].
  destruct (shr_m mrs''); simpl; auto.
  destruct (Z.leb e'' (Z.sub emax prec)); reflexivity.
Qed.

(** *** Alignment and [binary_round] *)

Lemma shl_align_spec mx ex ex' :
  let r := shl_align mx ex ex' in
  snd r = Z.min ex ex' /\ Zpos (fst r) = Zpos mx * 2 ^ (ex - snd r).
Proof.
  unfold shl_align.
  change (Z.sub ex' ex) with (ex' - ex).
  destruct (ex' - ex) as [| d | d] eqn:Hd; simpl.
  - split; [lia |]. rewrite Z.sub_diag. lia.
  - split; [lia |]. rewrite Z.sub_diag. lia.
  - split; [lia |]. rewrite iter_xO_value. do 2 f_equal. lia.
Qed.

Lemma binary_round_upper K sx mx ex :
  ex <= K -> -1074 <= K <= 971 -> Zpos mx < 2 ^ (K - ex) ->
  magnitudeAtMost K sx (binary_round prec emax sx mx ex).
Proof.
  intros He HK Hlt. unfold binary_round.
  destruct (shl_align_spec mx ex (fexp prec emax (Z.add (Zpos (digits2_pos mx)) ex)))
    as [Hez Hmz].
  destruct (shl_align mx ex _) as [mz ez]. simpl in Hez, Hmz.
  apply binary_round_aux_upper; [lia | lia | exact HK |].
  rewrite Hmz.
  replace (K - ez) with (K - ex + (ex - ez)) by lia.
  rewrite Z.pow_add_r by lia.
  assert (0 < 2 ^ (ex - ez)) by (apply Z.pow_pos_nonneg; lia).
  nia.
Qed.

Lemma binary_round_lower t sx mx ex :
  -1074 <= t -> atLeast t (Zpos mx) ex ->
  magnitudeAtLeast t sx (binary_round prec emax sx mx ex).
Proof.
  intros Ht Hat. unfold binary_round.
  destruct (shl_align_spec mx ex (fexp prec emax (Z.add (Zpos (digits2_pos mx)) ex)))
    as [Hez Hmz].
  destruct (shl_align mx ex _) as [mz ez]. simpl in Hez, Hmz.
  apply binary_round_aux_lower; [exact Ht |].
  rewrite Hmz.
  assert (ez <= ex) as Hle by lia.
  assert (0 < 2 ^ (ex - ez)) as Hp by (apply Z.pow_pos_nonneg; lia).
  destruct Hat as [[He Hm] | [He Hm]].
  - left. split; [lia |].
    replace (t - ez) with (t - ex + (ex - ez)) by lia.
    rewrite Z.pow_add_r by lia. nia.
  - destruct (Z.le_gt_cases ez t) as [H | H].
    + left. split; [exact H |].
      assert (2 ^ (t - ez) <= 2 ^ (ex - ez)) by (apply Z.pow_le_mono_r; lia).
      nia.
    + right. split; [exact H | nia].
Qed.

Lemma binary_round_sign sx mx ex :
  hasSign sx (binary_round prec emax sx mx ex).
Proof.
  unfold binary_round. destruct (shl_align mx ex _) as [mz ez].
  apply binary_round_aux_sign.
Qed.

(** *** Valid floats *)

Lemma valid_finite s m e :
  valid_binary (S754_finite s m e) = true ->
  Zpos (digits2_pos m) <= 53 /\ -1074 <= e <= 971 /\
  (e = -1074 \/ Zpos (digits2_pos m) = 53).
Proof.
  simpl. unfold bounded, canonical_mantissa. intros H.
  apply andb_prop in H as [Hc Hb].
  apply Z.eqb_eq in Hc. rewrite fexp_eq in Hc.
  change (Z.sub emax prec) with 971 in Hb. apply Z.leb_le in Hb. lia.
Qed.

Lemma valid_mantissa_upper s m e :
  valid_binary (S754_finite s m e) = true -> Zpos m < 2 ^ 53.
Proof.
  intros H. apply valid_finite in H as (Hd & _).
  eapply Z.lt_le_trans; [apply digits2_pos_upper |].
  apply Z.pow_le_mono_r; lia.
Qed.

Lemma valid_normal_lower s m e :
  valid_binary (S754_finite s m e) = true -> -1074 < e -> 2 ^ 52 <= Zpos m.
Proof.
  intros H He. apply valid_finite in H as (_ & _ & [Hs | Hn]); [lia |].
  pose proof (digits2_pos_lower m) as Hl. rewrite Hn in Hl. exact Hl.
Qed.

(** *** One minus a float *)

Lemma SFsub_one_finite s m e :
  SFsub prec emax sfOne (S754_finite s m e) =
    binary_normalize prec emax
      (2 ^ (- Z.min (-52) e)
       - cond_Zopp s (Zpos m * 2 ^ (e - Z.min (-52) e)))
      (Z.min (-52) e) false.
Proof.
  unfold SFsub, sfOne.
  destruct (shl_align_spec 4503599627370496 (-52) (Z.min (-52) e)) as [H1 H2].
  destruct (shl_align_spec m e (Z.min (-52) e)) as [H3 H4].
  rewrite H1 in H2. rewrite H3 in H4.
  replace (Z.min (-52) (Z.min (-52) e)) with (Z.min (-52) e) in H2 by lia.
  replace (Z.min e (Z.min (-52) e)) with (Z.min (-52) e) in H4 by lia.
  rewrite H2, H4. simpl cond_Zopp at 1.
  change (Z.sub ?a ?b) with (a - b).
  do 2 f_equal.
  change 4503599627370496 with (2 ^ 52).
  rewrite <- Z.pow_add_r by lia. f_equal. lia.
Qed.

Lemma below_one_exponent m e :
  valid_binary (S754_finite false m e) = true ->
  SFleb (S754_finite false m e) sfOne = true ->
  SFeqb (S754_finite false m e) sfOne = false ->
  e < -52.
Proof.
  intros Hv Hle Hne.
  unfold SFleb, SFeqb, sfOne, SFcompare in *.
  destruct (Z.compare_spec e (-52)) as [-> | H | H]; [| exact H | discriminate].
  exfalso. pose proof (valid_normal_lower _ _ _ Hv ltac:(lia)) as Hl.
  rewrite Pos.compare_cont_spec in Hle, Hne. simpl in Hle, Hne.
  destruct (Pos.compare_spec m 4503599627370496) as [E | E | E];
    try discriminate.
  change (2 ^ 52) with 4503599627370496 in Hl.
  apply Pos2Z.pos_lt_pos in E. lia.
Qed.

(** [1 - cs] is at most one for [cs] in [0, 1). *)
Lemma one_minus_upper cs :
  valid_binary cs = true ->
  SFleb (S754_zero false) cs = true ->
  SFleb cs sfOne = true -> SFeqb cs sfOne = false ->
  atMostOne false (SFsub prec emax sfOne cs).
Proof.
  intros Hv H0 H1 Hne.
  destruct cs as [s | s | | s m e]; try discriminate.
  - simpl. split; [reflexivity |]. split; [lia | reflexivity].
  - destruct s; discriminate.
  - destruct s; [discriminate |].
    pose proof (below_one_exponent m e Hv H1 Hne) as He.
    pose proof (valid_mantissa_upper _ _ _ Hv) as Hm.
    rewrite SFsub_one_finite.
    replace (Z.min (-52) e) with e by lia.
    rewrite Z.sub_diag, Z.mul_1_r. simpl cond_Zopp.
    assert (2 ^ 53 <= 2 ^ (- e)) as Hp by (apply Z.pow_le_mono_r; lia).
    destruct (2 ^ (- e) - Zpos m) as [| z | z] eqn:Hz; [lia | | lia].
    simpl binary_normalize.
    apply binary_round_upper; [lia | lia |].
    rewrite Z.sub_0_l. lia.
Qed.

Lemma hasSign_true_safe x : hasSign true x -> safeDivisor x.
Proof. destruct x as [s | s | | [] m e]; simpl; auto; discriminate. Qed.

Lemma magnitudeAtLeast_safe x : magnitudeAtLeast (-53) false x -> safeDivisor x.
Proof.
  destruct x as [s | s | | [] m e]; simpl; tauto.
Qed.

(** [1 - conf] is a safe divisor whenever [conf] is not one. *)
Lemma one_minus_safe conf :
  valid_binary conf = true -> SFeqb conf sfOne = false ->
  safeDivisor (SFsub prec emax sfOne conf).
Proof.
  intros Hv Hne.
  destruct conf as [s | s | | s m e].
  - simpl. right. split; lia.
  - destruct s; exact I.
  - exact I.
  - pose proof (valid_mantissa_upper _ _ _ Hv) as Hm.
    pose proof (valid_finite _ _ _ Hv) as (_ & Hrange & _).
    rewrite SFsub_one_finite.
    set (ez := Z.min (-52) e).
    assert (0 < 2 ^ (e - ez)) as Hp1 by (apply Z.pow_pos_nonneg; lia).
    assert (0 < 2 ^ (- ez)) as Hp2 by (apply Z.pow_pos_nonneg; lia).
    destruct (2 ^ (- ez) - cond_Zopp s (Zpos m * 2 ^ (e - ez)))
      as [| z | z] eqn:Hz.
    + (* the difference is zero: [conf] would be one *)
      exfalso. destruct s; simpl in Hz; [nia |].
      destruct (Z.le_gt_cases (-52) e) as [He | He].
      * replace ez with (-52) in * by lia.
        pose proof (valid_normal_lower _ _ _ Hv ltac:(lia)) as Hl.
        assert (e = -52) as ->.
        { destruct (Z.eq_dec e (-52)) as [E | E]; [exact E |].
          assert (2 ^ 1 <= 2 ^ (e - -52)) by (apply Z.pow_le_mono_r; lia).
          change (2 ^ 1) with 2 in *. change (- -52) with 52 in Hz. nia. }
        change (2 ^ (-52 - -52)) with 1 in Hz. change (- -52) with 52 in Hz.
        assert (m = 4503599627370496%positive) as ->
          by (change (2 ^ 52) with 4503599627370496 in Hz; lia).
        discriminate.
      * replace ez with e in * by lia.
        rewrite Z.sub_diag, Z.mul_1_r in Hz.
        assert (2 ^ 53 <= 2 ^ (- e)) by (apply Z.pow_le_mono_r; lia). lia.
    + simpl binary_normalize.
      apply magnitudeAtLeast_safe, binary_round_lower; [lia |].
      destruct (Z.le_gt_cases (-52) e) as [He | He].
      * right. split; [unfold ez; lia | lia].
      * replace ez with e in * by lia. left. split; [lia |].
        rewrite Z.sub_diag, Z.mul_1_r in Hz.
        destruct s; simpl in Hz.
        -- assert (2 ^ (-53 - e) <= 2 ^ (- e))
             by (apply Z.pow_le_mono_r; lia). lia.
        -- destruct (Z.eq_dec e (-53)) as [-> | E].
           ++ change (2 ^ (-53 - -53)) with 1. lia.
           ++ assert (2 ^ 53 <= 2 ^ (- e - 1)) by (apply Z.pow_le_mono_r; lia).
              assert (2 ^ (-53 - e) <= 2 ^ (- e - 1))
                by (apply Z.pow_le_mono_r; lia).
              assert (2 ^ (- e) = 2 * 2 ^ (- e - 1)) as E2.
              { replace (- e) with (1 + (- e - 1)) at 1 by lia.
                rewrite Z.pow_add_r by lia. reflexivity. }
              lia.
    + simpl binary_normalize.
      apply hasSign_true_safe, binary_round_sign.
Qed.

(** *** Division without overflow *)

Lemma SFdiv_core_spec ma ea md ed :
  let e' := Z.min (fexp prec emax
                     (Zpos (digits2_pos ma) + ea - (Zpos (digits2_pos md) + ed)))
                  (ea - ed) in
  SFdiv_core_binary prec emax (Zpos ma) ea (Zpos md) ed =
    (Zpos ma * 2 ^ (ea - ed - e') / Zpos md, e',
     new_location (Zpos md) ((Zpos ma * 2 ^ (ea - ed - e')) mod Zpos md)).
Proof.
  intros e'. unfold SFdiv_core_binary. simpl Zdigits2.
  change (Z.sub (Z.add (Zpos (digits2_pos ma)) ea)
                (Z.add (Zpos (digits2_pos md)) ed))
    with (Zpos (digits2_pos ma) + ea - (Zpos (digits2_pos md) + ed)).
  change (Z.sub ea ed) with (ea - ed). fold e'.
  change (Z.sub (ea - ed) e') with (ea - ed - e').
  assert (0 <= ea - ed - e') as Hs by (unfold e'; lia).
  assert (match ea - ed - e' with
          | 0 => Zpos ma
          | Zpos _ => Z.shiftl (Zpos ma) (ea - ed - e')
          | Zneg _ => 0
          end = Zpos ma * 2 ^ (ea - ed - e')) as ->.
  { destruct (ea - ed - e') as [| p | p] eqn:E; [lia | | lia].
    rewrite Z.shiftl_mul_pow2 by lia. reflexivity. }
  rewrite div_eucl_div_mod. reflexivity.
Qed.

Lemma atLeast_digits t m e :
  atLeast t (Zpos m) e -> t - e < Zpos (digits2_pos m).
Proof.
  intros Hat. pose proof (digits2_pos_upper m) as Hu.
  destruct Hat as [[He Hm] | [He Hm]]; [| lia].
  apply (Z.pow_lt_mono_r_iff 2); lia.
Qed.

(** A value of at most one divided by a safe divisor is not plus infinity. *)
Lemma SFdiv_not_infinite a d :
  atMostOne false a -> safeDivisor d ->
  SFdiv prec emax a d <> S754_infinity false.
Proof.
  intros Ha Hd.
  destruct a as [sa | sa | | sa ma ea]; simpl in Ha; try contradiction.
  - destruct d as [sd | sd | | sd md ed]; discriminate.
  - destruct Ha as (-> & Hea & Hma). rewrite Z.sub_0_l in Hma.
    destruct d as [sd | sd | | sd md ed]; try discriminate.
    + simpl in Hd. subst sd. discriminate.
    + unfold SFdiv.
      destruct (SFdiv_core_binary prec emax (Zpos ma) ea (Zpos md) ed)
        as [[q e'] l] eqn:Hcore.
      destruct sd.
      * pose proof (binary_round_aux_sign true q e' l) as Hs.
        simpl xorb. intros Heq. rewrite Heq in Hs. discriminate.
      * simpl in Hd. simpl xorb.
        rewrite SFdiv_core_spec in Hcore. injection Hcore as <- <- <-.
        set (F := fexp prec emax
               (Zpos (digits2_pos ma) + ea - (Zpos (digits2_pos md) + ed))) in *.
        pose proof (atLeast_digits _ _ _ Hd) as Hdd.
        assert (Zpos (digits2_pos ma) <= - ea + 1) as Hda.
        { apply (Zdigits2_le (Zpos ma)); [| lia]. split; [lia |].
          rewrite Z.pow_add_r by lia. change (2 ^ 1) with 2.
          assert (0 < 2 ^ (- ea)) by (apply Z.pow_pos_nonneg; lia). lia. }
        assert (F <= 0) as HF by (unfold F; rewrite fexp_eq; lia).
        set (e' := Z.min F (ea - ed)) in *.
        assert (0 <= ea - ed - e') as Hs by (unfold e'; lia).
        assert (magnitudeAtMost 54 false
                  (binary_round_aux prec emax false
                     (Zpos ma * 2 ^ (ea - ed - e') / Zpos md) e'
                     (new_location (Zpos md)
                        ((Zpos ma * 2 ^ (ea - ed - e')) mod Zpos md)))) as Hb.
        { assert (0 < 2 ^ (ea - ed - e')) by (apply Z.pow_pos_nonneg; lia).
          apply binary_round_aux_upper; [apply Z.div_pos; lia | lia | lia |].
          apply Z.div_lt_upper_bound; [lia |].
          assert (Zpos ma * 2 ^ (ea - ed - e') <= 2 ^ (- ed - e')) as Hnum.
          { replace (- ed - e') with (- ea + (ea - ed - e')) by lia.
            rewrite Z.pow_add_r by lia. nia. }
          eapply Z.le_lt_trans; [exact Hnum |].
          destruct Hd as [[He Hm] | [He Hm]].
          - assert (2 ^ (- ed - e') < 2 ^ (-53 - ed) * 2 ^ (54 - e')) as Hlt.
            { rewrite <- Z.pow_add_r by lia. apply Z.pow_lt_mono_r; lia. }
            assert (0 < 2 ^ (54 - e')) by (apply Z.pow_pos_nonneg; lia).
            nia.
          - assert (2 ^ (- ed - e') < 2 ^ (54 - e'))
              by (apply Z.pow_lt_mono_r; lia).
            assert (0 < 2 ^ (54 - e')) by (apply Z.pow_pos_nonneg; lia).
            nia. }
        intros Heq. rewrite Heq in Hb. exact Hb.
Qed.

Lemma Prim2SF_zero : Prim2SF 0%float = S754_zero false.
Proof. reflexivity. Qed.

Lemma Prim2SF_infinity : Prim2SF infinity = S754_infinity false.
Proof. reflexivity. Qed.

(** The quotient of the conviction is not plus infinity when the consequent
    support lies in [0, 1) and the confidence is not one. *)
Lemma conviction_quotient_finite consequentSupport confidence :
  PrimFloat.leb 0%float consequentSupport = true ->
  PrimFloat.leb consequentSupport 1%float = true ->
  PrimFloat.eqb consequentSupport 1%float = false ->
  PrimFloat.eqb confidence 1%float = false ->
  PrimFloat.div (PrimFloat.sub 1%float consequentSupport)
                (PrimFloat.sub 1%float confidence) <> infinity.
Proof.
  rewrite !FloatAxioms.leb_spec, !FloatAxioms.eqb_spec.
  rewrite Prim2SF_one, Prim2SF_zero.
  intros H0 H1 Hcs Hconf Heq.
  apply (f_equal Prim2SF) in Heq.
  rewrite FloatAxioms.div_spec, !FloatAxioms.sub_spec in Heq.
  rewrite Prim2SF_one, Prim2SF_infinity in Heq.
  revert Heq. apply SFdiv_not_infinite.
  - apply one_minus_upper; auto using Prim2SF_valid.
  - apply one_minus_safe; auto using Prim2SF_valid.
Qed.

End Binary64.

(** ** Degenerate inputs *)

Section Degenerate.

(** Every comparison with NaN is false. *)
Lemma leb_nan_r m : PrimFloat.leb m nan = false.
Proof.
  rewrite FloatAxioms.leb_spec. unfold SFleb, SFcompare.
  destruct (Prim2SF m); reflexivity.
Qed.

Lemma leb_nan_l m : PrimFloat.leb nan m = false.
Proof.
  rewrite FloatAxioms.leb_spec. unfold SFleb, SFcompare.
  change (Prim2SF nan) with S754_nan. reflexivity.
Qed.

(** With no itemset at level [k-1] the loop stops at once. *)
Lemma levelLoop_nil dataset minSupport n k result :
  levelLoop dataset minSupport n k [] result = Some result.
Proof. destruct n; reflexivity. Qed.

Lemma FindFrequentItemsets_empty dataset minSupport maxLen :
  frequentItems dataset minSupport = [] ->
  FindFrequentItemsets dataset minSupport maxLen = Some [].
Proof.
  intros H. unfold FindFrequentItemsets. rewrite H. apply levelLoop_nil.
Qed.

Lemma frequentItems_nil dataset minSupport :
  (forall item, PrimFloat.leb minSupport (itemSupport dataset item) = false) ->
  frequentItems dataset minSupport = [].
Proof.
  intros H. unfold frequentItems.
  induction (UniqueItems dataset) as [| item items IH]; simpl; [reflexivity |].
  rewrite H. exact IH.
Qed.

Lemma itemSupport_no_transactions dataset item :
  Transactions dataset = [] -> itemSupport dataset item = nan.
Proof. intros H. unfold itemSupport. rewrite H. reflexivity. Qed.

Lemma candidateSupport_no_transactions dataset items :
  Transactions dataset = [] -> candidateSupport dataset items = nan.
Proof. intros H. unfold candidateSupport. rewrite H. reflexivity. Qed.

Lemma FindFrequentItemsets_no_transactions dataset minSupport maxLen :
  Transactions dataset = [] ->
  FindFrequentItemsets dataset minSupport maxLen = Some [].
Proof.
  intros H. apply FindFrequentItemsets_empty, frequentItems_nil.
  intros item. rewrite (itemSupport_no_transactions dataset item H).
  apply leb_nan_r.
Qed.

End Degenerate.

(** C5, as the specification states it, gives support 0 on a dataset with
    zero transactions.  The code divides the count 0 by the transaction
    count 0 in [float64]: the support is NaN, which is not 0. *)
Lemma zero_transactions_counterexample :
  Transactions noTransactions = [] /\
  itemSupport noTransactions "bread" <> 0%float /\
  candidateSupport noTransactions ["bread"; "milk"]%string <> 0%float.
Proof.
  split; [reflexivity |].
  split; intros H.
  - assert (PrimFloat.eqb (itemSupport noTransactions "bread") 0%float = true)
      as E by (rewrite H; reflexivity).
    vm_compute in E. discriminate.
  - assert (PrimFloat.eqb (candidateSupport noTransactions ["bread"; "milk"]%string)
              0%float = true) as E by (rewrite H; reflexivity).
    vm_compute in E. discriminate.
Qed.

(** C5, amended.  On a dataset with zero transactions the support computed
    for every universe item at level 1, and for every candidate at a higher
    level, is NaN (0/0); NaN fails the threshold test for every
    [minSupport], so no itemset is retained and mining returns the empty
    list. *)
Theorem zero_transactions dataset :
  Transactions dataset = [] ->
  (forall item, itemSupport dataset item = nan) /\
  (forall items, candidateSupport dataset items = nan) /\
  (forall minSupport item,
     PrimFloat.leb minSupport (itemSupport dataset item) = false) /\
  (forall minSupport maxLen,
     FindFrequentItemsets dataset minSupport maxLen = Some []).
Proof.
  intros H.
  split; [intros item; by apply itemSupport_no_transactions |].
  split; [intros items; by apply candidateSupport_no_transactions |].
  assert (forall minSupport item,
            PrimFloat.leb minSupport (itemSupport dataset item) = false) as Hlow.
  { intros minSupport item.
    rewrite (itemSupport_no_transactions dataset item H). apply leb_nan_r. }
  split; [exact Hlow |].
  intros minSupport maxLen. by apply FindFrequentItemsets_no_transactions.
Qed.

Lemma zero_transactions_witness :
  (forall item, itemSupport noTransactions item = nan) /\
  (forall items, candidateSupport noTransactions items = nan) /\
  (forall minSupport item,
     PrimFloat.leb minSupport (itemSupport noTransactions item) = false) /\
  (forall minSupport maxLen,
     FindFrequentItemsets noTransactions minSupport maxLen = Some []).
Proof.
  apply (zero_transactions noTransactions). reflexivity.
Defined.

(** ** Parameters outside the contract *)

Section OutOfContract.

Lemma countWhere_le p transactions :
  (countWhere p transactions <= length transactions)%nat.
Proof.
  induction transactions as [| t ts IH]; simpl; [lia |].
  destruct (p t); lia.
Qed.

(** A value that is a zero or a positive number reaches every threshold that
    is at most zero. *)
Lemma atMostOne_reaches minSupport q :
  atMostOne false q -> SFleb minSupport (S754_zero false) = true ->
  SFleb minSupport q = true.
Proof.
  intros Hq Hms.
  destruct q as [sq | sq | | sq mq eq]; simpl in Hq; try contradiction.
  - destruct minSupport as [s | s | | s m e]; try discriminate; auto.
  - destruct Hq as (-> & _).
    destruct minSupport as [s | [] | | [] m e]; try discriminate; reflexivity.
Qed.

Variable dataset : Dataset.
Variable minSupport : float.
Hypothesis Hsize : Z.of_nat (length (Transactions dataset)) < 2 ^ 53.

Lemma itemSupport_below_threshold item :
  PrimFloat.ltb 1%float minSupport = true ->
  PrimFloat.leb minSupport (itemSupport dataset item) = false.
Proof.
  intros Hms. unfold itemSupport.
  destruct (Nat.eq_dec (length (Transactions dataset)) 0%nat) as [Hz | Hnz].
  - apply length_zero_iff_nil in Hz. rewrite Hz. apply leb_nan_r.
  - apply ratio_below_threshold; [exact Hms | apply countWhere_le | lia | exact Hsize].
Qed.

Lemma itemSupport_reaches item :
  Transactions dataset <> [] ->
  PrimFloat.leb minSupport 0%float = true ->
  PrimFloat.leb minSupport (itemSupport dataset item) = true.
Proof.
  intros Hne Hms. unfold itemSupport.
  rewrite FloatAxioms.leb_spec in Hms |- *.
  apply atMostOne_reaches; [| exact Hms].
  apply ratio_atMostOne; [apply countWhere_le | | exact Hsize].
  destruct (Transactions dataset); [contradiction | simpl; lia].
Qed.

End OutOfContract.

(** The level loop only appends: what was collected stays in the result. *)
Lemma levelLoop_keeps dataset minSupport n k Lk_1 result out F :
  levelLoop dataset minSupport n k Lk_1 result = Some out ->
  F ∈ result -> F ∈ out.
Proof.
  revert k Lk_1 result. induction n as [| n IH]; intros k Lk_1 result; simpl.
  - intros [= <-]. auto.
  - destruct (generateCandidates Lk_1 k) as [Ck |]; simpl; [| discriminate].
    destruct (Nat.eqb _ 0).
    + intros [= <-]. auto.
    + intros Hrun HF. apply (IH _ _ _ Hrun). apply elem_of_app. by left.
Qed.

(** C4, as the specification states it, promises an empty result whenever
    [maxLen < 1] or [minSupport] lies outside (0,1].  With [maxLen = 0], or
    with [minSupport = 0] or a negative [minSupport], the three items of the
    example are returned. *)
Lemma invalid_parameters_counterexample :
  FindFrequentItemsets exampleDataset 0.5%float 0 <> Some [] /\
  FindFrequentItemsets exampleDataset 0%float 1 <> Some [] /\
  FindFrequentItemsets exampleDataset (-1)%float 1 <> Some [].
Proof.
  repeat split; intros H; vm_compute in H; discriminate.
Qed.

(** C4, amended.  Mining returns a list, without a panic, for every dataset
    and all parameter values.  With [maxLen < 1] the level loop is skipped
    and the list is the list of frequent 1-itemsets.  With a [minSupport]
    above 1, or a [minSupport] that is not a number, the list is empty.
    With a [minSupport] of at most 0 and at least one transaction every item
    of the universe is a frequent 1-itemset, and is returned as one.  (The
    two statements that
    depend on the value of a support are for datasets of fewer than 2^53
    transactions, whose counts [float64] represents exactly.) *)
Theorem invalid_parameters dataset minSupport maxLen :
  is_Some (FindFrequentItemsets dataset minSupport maxLen) /\
  (maxLen < 1 ->
   FindFrequentItemsets dataset minSupport maxLen =
     Some (frequentItems dataset minSupport)) /\
  FindFrequentItemsets dataset nan maxLen = Some [] /\
  (Z.of_nat (length (Transactions dataset)) < 2 ^ 53 ->
   (PrimFloat.ltb 1%float minSupport = true ->
    FindFrequentItemsets dataset minSupport maxLen = Some []) /\
   (PrimFloat.leb minSupport 0%float = true ->
    Transactions dataset <> [] ->
    Items <$> frequentItems dataset minSupport =
      (fun item => [item]) <$> UniqueItems dataset /\
    (forall item, item ∈ UniqueItems dataset ->
       exists out F,
         FindFrequentItemsets dataset minSupport maxLen = Some out /\
         F ∈ out /\ Items F = [item] /\ Length F = 1))).
Proof.
  split; [apply FindFrequentItemsets_total |].
  split.
  { intros Hlen. unfold FindFrequentItemsets.
    replace (Z.to_nat (maxLen - 1)) with O by lia. reflexivity. }
  split.
  { apply FindFrequentItemsets_empty, frequentItems_nil.
    intros item. apply leb_nan_l. }
  intros Hsize. split.
  - intros Hms. apply FindFrequentItemsets_empty, frequentItems_nil.
    intros item. by apply itemSupport_below_threshold.
  - intros Hms Hne.
    assert (Items <$> frequentItems dataset minSupport =
            (fun item => [item]) <$> UniqueItems dataset) as Hall.
    { unfold frequentItems.
      induction (UniqueItems dataset) as [| item items IH]; simpl;
        [reflexivity |].
      rewrite itemSupport_reaches by assumption. simpl. f_equal. exact IH. }
    split; [exact Hall |].
    intros item Hitem.
    destruct (FindFrequentItemsets_total dataset minSupport maxLen)
      as [out Hout].
    assert ([item] ∈ Items <$> frequentItems dataset minSupport) as Hin
      by (rewrite Hall; apply list_elem_of_fmap; eauto).
    apply list_elem_of_fmap in Hin as (F & HF & Hin).
    exists out, F. split; [exact Hout |].
    split; [| split; [by symmetry |]].
    + apply (levelLoop_keeps _ _ _ _ _ _ _ F Hout). exact Hin.
    + by apply elem_of_frequentItems in Hin as (item' & _ & _ & ->).
Qed.

Lemma invalid_parameters_witness :
  FindFrequentItemsets exampleDataset 0.5%float 0 =
    Some (frequentItems exampleDataset 0.5%float) /\
  FindFrequentItemsets exampleDataset 2%float 3 = Some [] /\
  (Items <$> frequentItems exampleDataset (-1)%float =
     (fun item => [item]) <$> UniqueItems exampleDataset /\
   (forall item, item ∈ UniqueItems exampleDataset ->
      exists out F,
        FindFrequentItemsets exampleDataset (-1)%float 3 = Some out /\
        F ∈ out /\ Items F = [item] /\ Length F = 1)).
Proof.
  split; [| split].
  - apply (invalid_parameters exampleDataset 0.5%float 0). lia.
  - apply (invalid_parameters exampleDataset 2%float 3);
      vm_compute; reflexivity.
  - apply (invalid_parameters exampleDataset (-1)%float 3);
      [vm_compute; reflexivity | vm_compute; reflexivity | discriminate].
Defined.

(** ** Supports and conviction *)

Section Conviction.

Lemma atMostOne_exponent m e :
  valid_binary (S754_finite false m e) = true ->
  atMostOne false (S754_finite false m e) ->
  e < -52 \/ (e = -52 /\ Zpos m <= 2 ^ 52).
Proof.
  intros Hv (_ & He & Hm). rewrite Z.sub_0_l in Hm.
  destruct (Z.lt_ge_cases e (-52)) as [H | H]; [by left | right].
  pose proof (valid_normal_lower _ _ _ Hv ltac:(lia)) as Hl.
  assert (2 ^ 52 <= 2 ^ (- e)) as Hpow by lia.
  apply Z.pow_le_mono_r_iff in Hpow; [| lia | lia].
  assert (e = -52) as -> by lia. split; [reflexivity | exact Hm].
Qed.

(** A valid value of magnitude at most one and sign plus lies in [0, 1]. *)
Lemma atMostOne_unit q :
  valid_binary q = true -> atMostOne false q ->
  SFleb (S754_zero false) q = true /\ SFleb q sfOne = true.
Proof.
  intros Hv Hq.
  destruct q as [s | s | | s m e]; try contradiction.
  - simpl in Hq. subst s. split; reflexivity.
  - pose proof Hq as (Hs & _). simpl in Hs. subst s.
    split; [reflexivity |].
    destruct (atMostOne_exponent m e Hv Hq) as [He | [-> Hm]];
      unfold SFleb, sfOne, SFcompare.
    + destruct (Z.compare_spec e (-52)); try reflexivity; lia.
    + rewrite Z.compare_refl, Pos.compare_cont_spec.
      destruct (Pos.compare_spec m 4503599627370496) as [E | E | E];
        try reflexivity.
      apply Pos2Z.pos_lt_pos in E.
      change (2 ^ 52) with 4503599627370496 in Hm. lia.
Qed.

Lemma ratio_unit c n :
  (c <= n)%nat -> (0 < n)%nat -> Z.of_nat n < 2 ^ 53 ->
  PrimFloat.leb 0%float (PrimFloat.div (Go.float64 c) (Go.float64 n)) = true /\
  PrimFloat.leb (PrimFloat.div (Go.float64 c) (Go.float64 n)) 1%float = true.
Proof.
  intros Hle Hpos Hlt.
  rewrite !FloatAxioms.leb_spec, Prim2SF_one, Prim2SF_zero.
  apply atMostOne_unit; [apply Prim2SF_valid | by apply ratio_atMostOne].
Qed.

Lemma levelLoop_unitSupports dataset minSupport n k Lk_1 result out :
  Transactions dataset <> [] ->
  Z.of_nat (length (Transactions dataset)) < 2 ^ 53 ->
  unitSupports result ->
  levelLoop dataset minSupport n k Lk_1 result = Some out ->
  unitSupports out.
Proof.
  intros Hne Hsize. revert k Lk_1 result.
  induction n as [| n IH]; intros k Lk_1 result Hres; simpl;
    [by intros [= <-] |].
  destruct (generateCandidates Lk_1 k) as [Ck |]; [| discriminate]. simpl.
  destruct (Nat.eqb _ 0); [by intros [= <-] |].
  apply IH. intros F HF. apply elem_of_app in HF as [HF | HF]; [by apply Hres |].
  apply elem_of_frequentCandidates in HF as (c & _ & _ & _ & ->).
  unfold candidateSupport.
  apply ratio_unit; [apply countWhere_le | | exact Hsize].
  destruct (Transactions dataset); [contradiction | simpl; lia].
Qed.

Lemma FindFrequentItemsets_unitSupports dataset minSupport maxLen out :
  Z.of_nat (length (Transactions dataset)) < 2 ^ 53 ->
  FindFrequentItemsets dataset minSupport maxLen = Some out ->
  unitSupports out.
Proof.
  intros Hsize Hout.
  destruct (Transactions dataset) as [| t ts] eqn:Ht.
  - rewrite (FindFrequentItemsets_no_transactions dataset _ _ Ht) in Hout.
    injection Hout as <-. intros F HF. inversion HF.
  - revert Hout. unfold FindFrequentItemsets.
    apply levelLoop_unitSupports; [by rewrite Ht | by rewrite Ht |].
    simpl. intros F HF. unfold frequentItems in HF.
    apply list_elem_of_In, in_flat_map in HF as (item & _ & HF).
    destruct (PrimFloat.leb _ _); [| inversion HF].
    destruct HF as [<- | []]. simpl. unfold itemSupport.
    apply ratio_unit; [apply countWhere_le | rewrite Ht; simpl; lia |].
    by rewrite Ht.
Qed.

Lemma buildItemsetMap_value (itemsets : list FrequentItemset)
    (m : gmap string float) key v :
  foldl (fun m itemset =>
    <[Go.Join (Items itemset) "," := Support itemset]> m) m itemsets !! key
    = Some v ->
  m !! key = Some v \/ exists F, F ∈ itemsets /\ Support F = v.
Proof.
  revert m. induction itemsets as [| G itemsets IH]; intros m; simpl.
  - auto.
  - intros H. destruct (IH _ H) as [Hm | (F & HF & E)].
    + destruct (decide (Go.Join (Items G) "," = key)) as [Heq | Hne].
      * rewrite Heq, lookup_insert_eq in Hm. injection Hm as <-.
        right. exists G. split; [left | reflexivity].
      * rewrite lookup_insert_ne in Hm by exact Hne. by left.
    + right. exists F. split; [by right | exact E].
Qed.

Lemma itemsetMap_value (itemsets : list FrequentItemset) key v :
  buildItemsetMap itemsets !! key = Some v ->
  exists F, F ∈ itemsets /\ Support F = v.
Proof.
  intros H. apply buildItemsetMap_value in H as [H | H]; [| exact H].
  rewrite lookup_empty in H. discriminate.
Qed.

End Conviction.

(** C6, as the specification states it, has the conviction of every
    emitted rule equal to plus infinity only when the consequent support or
    the confidence equals 1.0.  The function accepts any list: with a
    consequent whose [Support] is minus infinity and a confidence of 0.5 the
    quotient (1 - consequentSupport) / (1 - confidence) is itself plus
    infinity. *)
Lemma conviction_cases_counterexample :
  exists rules rule consequentSupport,
    let itemsets :=
      [ {| Items := ["a"]; Support := 1; Length := 1 |};
        {| Items := ["b"]; Support := neg_infinity; Length := 1 |};
        {| Items := ["a"; "b"]; Support := 0.5; Length := 2 |} ]%string in
    GenerateAssociationRules itemsets 0.5%float = Some rules /\
    rule ∈ rules /\
    buildItemsetMap itemsets !! Go.Join (Consequent rule) "," =
      Some consequentSupport /\
    ConvictionMetric rule = infinity /\
    PrimFloat.eqb consequentSupport 1%float = false /\
    PrimFloat.eqb (Confidence rule) 1%float = false.
Proof.
  eexists. eexists. exists neg_infinity. simpl.
  split; [vm_compute; reflexivity |].
  split; [left |]. repeat split; vm_compute; reflexivity.
Qed.

(** C6, amended.  Conviction.  For every emitted rule the consequent
    support was found in the map, and with that support and the confidence
    of the rule: the conviction is (1 - consequentSupport) / (1 -
    confidence) when neither equals 1.0; it is plus infinity when either
    equals 1.0, and the quotient is not evaluated then.  When the supports
    of the list are fractions in [0, 1], as they are in every output of
    mining on a dataset of fewer than 2^53 transactions, the conviction is
    plus infinity exactly when the consequent support or the confidence
    equals 1.0: the quotient itself is never plus infinity. *)
Theorem conviction_cases itemsets minConfidence rules rule :
  GenerateAssociationRules itemsets minConfidence = Some rules ->
  rule ∈ rules ->
  exists consequentSupport,
    buildItemsetMap itemsets !! Go.Join (Consequent rule) "," =
      Some consequentSupport /\
    (PrimFloat.eqb consequentSupport 1%float = false ->
     PrimFloat.eqb (Confidence rule) 1%float = false ->
     ConvictionMetric rule =
       PrimFloat.div (PrimFloat.sub 1%float consequentSupport)
                     (PrimFloat.sub 1%float (Confidence rule))) /\
    (PrimFloat.eqb consequentSupport 1%float = true \/
     PrimFloat.eqb (Confidence rule) 1%float = true ->
     ConvictionMetric rule = infinity) /\
    (unitSupports itemsets ->
     (ConvictionMetric rule = infinity <->
      PrimFloat.eqb consequentSupport 1%float = true \/
      PrimFloat.eqb (Confidence rule) 1%float = true)) /\
    (forall dataset minSupport maxLen,
       Z.of_nat (length (Transactions dataset)) < 2 ^ 53 ->
       FindFrequentItemsets dataset minSupport maxLen = Some itemsets ->
       (ConvictionMetric rule = infinity <->
        PrimFloat.eqb consequentSupport 1%float = true \/
        PrimFloat.eqb (Confidence rule) 1%float = true)).
Proof.
  intros Hrules Hin.
  destruct (GenerateAssociationRules_origin _ _ _ _ Hrules Hin)
    as (F & antecedents & antecedent & _ & _ & _ & _ & Hstep).
  apply ruleStep_emit in Hstep as (_ & _ & sa & sc & _ & Hsc & _ & ->).
  exists sc. simpl. split; [exact Hsc |].
  assert (PrimFloat.eqb sc 1%float = true \/
          PrimFloat.eqb (PrimFloat.div (Support F) sa) 1%float = true ->
          conviction sc (PrimFloat.div (Support F) sa) = infinity) as Hspecial.
  { unfold conviction. intros [-> | ->]; [reflexivity |].
    by rewrite orb_true_r. }
  assert (unitSupports itemsets ->
          (conviction sc (PrimFloat.div (Support F) sa) = infinity <->
           PrimFloat.eqb sc 1%float = true \/
           PrimFloat.eqb (PrimFloat.div (Support F) sa) 1%float = true))
    as Hexact.
  { intros Hunit. split; [| exact Hspecial].
    intros Hinf.
    destruct (PrimFloat.eqb sc 1%float) eqn:E1; [by left |].
    destruct (PrimFloat.eqb (PrimFloat.div (Support F) sa) 1%float) eqn:E2;
      [by right |].
    exfalso. unfold conviction in Hinf. rewrite E1, E2 in Hinf. simpl in Hinf.
    destruct (itemsetMap_value itemsets _ _ Hsc) as (G & HG & <-).
    destruct (Hunit G HG) as [H0 H1].
    exact (conviction_quotient_finite _ _ H0 H1 E1 E2 Hinf). }
  split; [| split; [exact Hspecial | split; [exact Hexact |]]].
  - unfold conviction. intros -> ->. reflexivity.
  - intros dataset minSupport maxLen Hsize Hout. apply Hexact.
    exact (FindFrequentItemsets_unitSupports _ _ _ _ Hsize Hout).
Qed.

Lemma conviction_cases_witness :
  let itemsets :=
    [ {| Items := ["bread"]; Support := 0.75; Length := 1 |};
      {| Items := ["butter"]; Support := 0.5; Length := 1 |};
      {| Items := ["bread"; "butter"]; Support := 0.5; Length := 2 |} ]%string in
  let rule :=
    {| Antecedent := ["butter"]; Consequent := ["bread"]; RuleSupport := 0.5;
       Confidence := 1; Lift := 0x1.5555555555555p+0;
       LeverageMetric := 0.125; ConvictionMetric := infinity |}%string%float in
  exists consequentSupport,
    buildItemsetMap itemsets !! Go.Join (Consequent rule) "," =
      Some consequentSupport /\
    (ConvictionMetric rule = infinity <->
     PrimFloat.eqb consequentSupport 1%float = true \/
     PrimFloat.eqb (Confidence rule) 1%float = true).
Proof.
  intros itemsets rule.
  destruct (conviction_cases itemsets 0.5%float
              (default [] (GenerateAssociationRules itemsets 0.5%float)) rule)
    as (consequentSupport & Hfound & _ & _ & Hiff & _).
  - vm_compute. reflexivity.
  - vm_compute. right. left.
  - exists consequentSupport. split; [exact Hfound |].
    apply Hiff. intros F HF.
    repeat (apply elem_of_cons in HF as [-> | HF]);
      [split; vm_compute; reflexivity .. | inversion HF].
Defined.

(** * Further properties of the code *)

(** ** The slice helpers, continued *)

Section HelperProperties.

Lemma containsItem_elem_of transaction item :
  containsItem transaction item = true <-> item ∈ transaction.
Proof.
  induction transaction as [| t rest IH]; simpl.
  - split; [discriminate | intros H; inversion H].
  - rewrite elem_of_cons.
    destruct (String.eqb_spec t item) as [-> | Hne].
    + split; auto.
    + rewrite IH. split; [auto |]. intros [-> | H]; [contradiction | exact H].
Qed.

Lemma isSubset_elem_of items transaction :
  isSubset items transaction = true <->
  forall item, item ∈ items -> item ∈ transaction.
Proof.
  induction items as [| item rest IH]; simpl.
  - split; [intros _ x Hx; inversion Hx | reflexivity].
  - destruct (containsItem transaction item) eqn:Hc; simpl.
    + apply containsItem_elem_of in Hc. rewrite IH. split.
      * intros H x Hx. apply elem_of_cons in Hx as [-> | Hx]; auto.
      * intros H x Hx. apply H. by right.
    + split; [discriminate |]. intros H.
      assert (containsItem transaction item = true) as Hc'
        by (apply containsItem_elem_of, H; left).
      congruence.
Qed.

Lemma pickBits_bit i j :
  (0 <? Z.land i (Z.shiftl 1 (Z.of_nat j))) = Z.testbit i (Z.of_nat j).
Proof.
  assert (Z.land i (Z.shiftl 1 (Z.of_nat j)) =
          if Z.testbit i (Z.of_nat j) then 2 ^ Z.of_nat j else 0) as ->.
  { apply Z.bits_inj'. intros n Hn.
    rewrite Z.land_spec, Z.shiftl_spec by lia.
    destruct (Z.eq_dec n (Z.of_nat j)) as [-> | Hne].
    - rewrite Z.sub_diag. change (Z.testbit 1 0) with true.
      rewrite andb_true_r.
      destruct (Z.testbit i (Z.of_nat j)) eqn:E; [| by rewrite Z.bits_0].
      symmetry. apply Z.pow2_bits_true. lia.
    - assert (Z.testbit 1 (n - Z.of_nat j) = false) as ->.
      { destruct (Z.lt_ge_cases n (Z.of_nat j)).
        - apply Z.testbit_neg_r. lia.
        - change 1 with (2 ^ 0). apply Z.pow2_bits_false. lia. }
      rewrite andb_false_r.
      destruct (Z.testbit i (Z.of_nat j)); [| by rewrite Z.bits_0].
      symmetry. apply Z.pow2_bits_false. lia. }
  destruct (Z.testbit i (Z.of_nat j)); [| reflexivity].
  apply Z.ltb_lt. apply Z.pow_pos_nonneg; lia.
Qed.

Lemma pickBits_shift i j set :
  pickBits i (S j) set = pickBits (Z.div2 i) j set.
Proof.
  revert j. induction set as [| x rest IH]; intros j; simpl; [reflexivity |].
  rewrite !pickBits_bit, IH.
  rewrite Z.div2_spec, Z.shiftr_spec by lia.
  replace (Z.of_nat j + 1) with (Z.of_nat (S j)) by lia.
  reflexivity.
Qed.

Lemma pickBits_cons i x rest :
  pickBits i 0 (x :: rest) =
    if Z.odd i then x :: pickBits (Z.div2 i) 0 rest
    else pickBits (Z.div2 i) 0 rest.
Proof.
  change (pickBits i 0 (x :: rest)) with
    (if 0 <? Z.land i (Z.shiftl 1 (Z.of_nat 0))
     then x :: pickBits i 1 rest else pickBits i 1 rest).
  rewrite pickBits_bit, pickBits_shift.
  change (Z.of_nat 0) with 0. rewrite Z.bit0_odd. reflexivity.
Qed.

Lemma pickBits_nonempty set i :
  1 <= i < 2 ^ Z.of_nat (length set) -> pickBits i 0 set <> [].
Proof.
  revert i. induction set as [| x rest IH]; intros i Hi.
  - simpl in Hi. lia.
  - rewrite pickBits_cons. destruct (Z.odd i) eqn:Hodd; [discriminate |].
    apply IH. rewrite Z.div2_div.
    assert (i = 2 * (i / 2)) as Hev.
    { rewrite (Z.div_mod i 2) at 1 by lia. rewrite Zmod_odd, Hodd. lia. }
    simpl length in Hi. rewrite Nat2Z.inj_succ, Z.pow_succ_r in Hi by lia.
    lia.
Qed.

Lemma sublist_pickBits s set :
  sublist s set ->
  exists i, 0 <= i < 2 ^ Z.of_nat (length set) /\ pickBits i 0 set = s /\
            (s <> [] -> 1 <= i).
Proof.
  induction 1 as [| x s set Hs IH | x s set Hs IH].
  - exists 0. simpl. split; [lia |]. split; [reflexivity | congruence].
  - destruct IH as (i & Hi & Hp & _).
    exists (2 * i + 1). simpl length.
    rewrite Nat2Z.inj_succ, Z.pow_succ_r by lia.
    split; [lia |]. split; [| lia].
    rewrite pickBits_cons, Z.div2_div.
    replace ((2 * i + 1) / 2) with i by (apply Z.div_unique with 1; lia).
    replace (2 * i + 1) with (1 + 2 * i) by lia.
    rewrite Z.odd_add_mul_2. simpl. by rewrite Hp.
  - destruct IH as (i & Hi & Hp & Hne).
    exists (2 * i). simpl length.
    rewrite Nat2Z.inj_succ, Z.pow_succ_r by lia.
    split; [lia |]. split; [| intros H; specialize (Hne H); lia].
    rewrite pickBits_cons, Z.odd_mul, Z.div2_div. simpl.
    replace (2 * i / 2) with i by (apply Z.div_unique with 0; lia).
    exact Hp.
Qed.

Lemma sublist_elem_of (s t : list string) x : sublist s t -> x ∈ s -> x ∈ t.
Proof.
  intros Hs Hx. apply sublist_submseteq in Hs.
  exact (elem_of_submseteq _ _ _ Hx Hs).
Qed.

Lemma pickBits_inj set i i' :
  NoDup set ->
  0 <= i < 2 ^ Z.of_nat (length set) -> 0 <= i' < 2 ^ Z.of_nat (length set) ->
  pickBits i 0 set = pickBits i' 0 set -> i = i'.
Proof.
  intros Hnd. revert i i'.
  induction Hnd as [| x rest Hx Hnd IH]; intros i i' Hi Hi'.
  - simpl in *. lia.
  - simpl length in Hi, Hi'.
    rewrite Nat2Z.inj_succ, Z.pow_succ_r in Hi, Hi' by lia.
    rewrite !pickBits_cons, !Z.div2_div.
    pose proof (Z.div_mod i 2 ltac:(lia)) as Ei.
    pose proof (Z.div_mod i' 2 ltac:(lia)) as Ei'.
    rewrite Zmod_odd in Ei, Ei'.
    assert (forall u, x :: pickBits (i / 2) 0 rest <> pickBits u 0 rest) as Hhead.
    { intros u E. apply Hx.
      apply (sublist_elem_of _ _ x (pickBits_sublist u 0 rest)).
      rewrite <- E. left. }
    assert (forall u, x :: pickBits (i' / 2) 0 rest <> pickBits u 0 rest) as Hhead'.
    { intros u E. apply Hx.
      apply (sublist_elem_of _ _ x (pickBits_sublist u 0 rest)).
      rewrite <- E. left. }
    destruct (Z.odd i), (Z.odd i'); intros E.
    + injection E as E. apply IH in E; lia.
    + destruct (Hhead _ E).
    + symmetry in E. destruct (Hhead' _ E).
    + apply IH in E; lia.
Qed.

Lemma generateAllSubsets_elem_of set subsets s :
  generateAllSubsets set = Some subsets ->
  sublist s set -> s <> [] -> s ∈ subsets.
Proof.
  unfold generateAllSubsets.
  destruct (Nat.leb_spec 63 (length set)) as [| Hn]; [discriminate |].
  intros [= <-] Hs Hne. rewrite Z.shiftl_1_l.
  destruct (sublist_pickBits s set Hs) as (i & Hi & <- & Hone).
  apply list_elem_of_In, in_map_iff. exists i. split; [reflexivity |].
  apply list_elem_of_In, elem_of_seqZ. specialize (Hone Hne). lia.
Qed.

Lemma generateAllSubsets_NoDup set subsets :
  generateAllSubsets set = Some subsets -> NoDup set -> NoDup subsets.
Proof.
  unfold generateAllSubsets.
  destruct (Nat.leb_spec 63 (length set)) as [| Hn]; [discriminate |].
  intros [= <-] Hnd. rewrite Z.shiftl_1_l.
  assert (0 < 2 ^ Z.of_nat (length set)) as Hpos by (apply Z.pow_pos_nonneg; lia).
  apply (NoDup_fmap_2_strong (fun i => pickBits i 0 set)); [| apply NoDup_seqZ].
  intros i i' Hi Hi' E. apply elem_of_seqZ in Hi, Hi'.
  apply (pickBits_inj set); auto; lia.
Qed.

End HelperProperties.

(** X1.  [isSubset(items, transaction)] is true exactly when every element
    of [items] occurs in [transaction], whatever the order and the number
    of occurrences (so it is true for empty [items]); [containsItem] is
    membership. *)
Theorem isSubset_spec items transaction :
  (isSubset items transaction = true <->
   forall item, item ∈ items -> item ∈ transaction) /\
  (forall item, containsItem transaction item = true <-> item ∈ transaction).
Proof.
  split; [apply isSubset_elem_of | intros item; apply containsItem_elem_of].
Qed.

(** X2.  On two slices in canonical form, [slicesEqual], which compares
    position by position, decides whether they hold the same items. *)
Theorem slicesEqual_canonical a b :
  strictlySorted a -> strictlySorted b ->
  (slicesEqual a b = true <-> forall x, x ∈ a <-> x ∈ b).
Proof.
  intros Ha Hb. rewrite slicesEqual_eq. split; [by intros -> |].
  intros H. apply strictlySorted_unique; auto.
  apply NoDup_Permutation; auto using strictlySorted_NoDup.
Qed.

Lemma slicesEqual_canonical_witness :
  slicesEqual ["a"; "b"]%string ["a"; "b"]%string = true <->
  forall x, x ∈ ["a"; "b"]%string <-> x ∈ ["a"; "b"]%string.
Proof.
  apply (slicesEqual_canonical ["a"; "b"]%string ["a"; "b"]%string);
    repeat constructor.
Defined.

(** X3.  [difference(a, b)] keeps, in their order and with their
    repetitions, the elements of [a] that do not occur in [b]. *)
Theorem difference_filter a b :
  difference a b = filter (fun x => x ∉ b) a.
Proof.
  unfold difference. apply list_filter_iff. intros x.
  rewrite bMap_lookup, lookup_empty.
  destruct (decide (x ∈ b)); simpl; split; auto; congruence.
Qed.

(** X4.  When [generateAllSubsets(set)] returns, it returns [2^n - 1]
    slices for a set of [n] elements: exactly the non-empty subsequences of
    [set], each once if [set] has no repeated element. *)
Theorem generateAllSubsets_enumerates set subsets :
  generateAllSubsets set = Some subsets ->
  Z.of_nat (length subsets) = 2 ^ Z.of_nat (length set) - 1 /\
  (forall s, s ∈ subsets <-> sublist s set /\ s <> []) /\
  (NoDup set -> NoDup subsets).
Proof.
  intros Hgen. split; [| split].
  - revert Hgen. unfold generateAllSubsets.
    destruct (Nat.leb_spec 63 (length set)) as [| Hn]; [discriminate |].
    intros [= <-]. rewrite Z.shiftl_1_l, length_map, length_seqZ.
    assert (0 < 2 ^ Z.of_nat (length set)) by (apply Z.pow_pos_nonneg; lia).
    lia.
  - intros s. split.
    + intros Hin. split; [exact (generateAllSubsets_sublist _ _ _ Hgen Hin) |].
      revert Hgen Hin. unfold generateAllSubsets.
      destruct (Nat.leb_spec 63 (length set)) as [| Hn]; [discriminate |].
      intros [= <-] Hin. rewrite Z.shiftl_1_l in Hin.
      apply list_elem_of_In, in_map_iff in Hin as (i & <- & Hi).
      apply list_elem_of_In, elem_of_seqZ in Hi.
      apply pickBits_nonempty. lia.
    + intros [Hs Hne]. exact (generateAllSubsets_elem_of _ _ _ Hgen Hs Hne).
  - exact (generateAllSubsets_NoDup _ _ Hgen).
Qed.

Lemma generateAllSubsets_enumerates_witness :
  let set := ["a"; "b"; "c"]%string in
  let subsets := default [] (generateAllSubsets set) in
  Z.of_nat (length subsets) = 2 ^ Z.of_nat (length set) - 1 /\
  (forall s, s ∈ subsets <-> sublist s set /\ s <> []) /\
  (NoDup set -> NoDup subsets).
Proof.
  intros set subsets.
  apply (generateAllSubsets_enumerates set subsets). reflexivity.
Defined.

(** ** Candidate generation, continued *)

Section JoinComplete.

Lemma prefixLoop_complete a b l n :
  (l + n <= length a)%nat -> (l + n <= length b)%nat ->
  take n (drop l a) = take n (drop l b) ->
  prefixLoop a b l n = Some true.
Proof.
  revert l. induction n as [| n IH]; intros l Ha Hb Heq; simpl; [reflexivity |].
  destruct (lookup_lt_is_Some_2 a l) as [x Hx]; [lia |].
  destruct (lookup_lt_is_Some_2 b l) as [y Hy]; [lia |].
  rewrite Hx, Hy. simpl.
  rewrite (drop_S a x l Hx), (drop_S b y l Hy) in Heq. simpl in Heq.
  injection Heq as -> Heq. rewrite String.eqb_refl.
  apply IH; [lia | lia | exact Heq].
Qed.

Lemma canJoin_complete k a b :
  Z.of_nat (length a) = k - 1 -> Z.of_nat (length b) = k - 1 -> 2 <= k ->
  take (Z.to_nat (k - 2)) a = take (Z.to_nat (k - 2)) b ->
  canJoin k a b = Some true.
Proof.
  intros Ha Hb Hk Heq. unfold canJoin.
  destruct (Z.ltb_spec 2 k); [| reflexivity].
  apply prefixLoop_complete; [lia | lia |]. by rewrite !drop_0.
Qed.

Lemma isValid_complete k itemsets candidate :
  Z.of_nat (length candidate) = k ->
  (forall l, (l < length candidate)%nat ->
     exists G, G ∈ itemsets /\ Items G = subsetWithout l candidate) ->
  isValid k itemsets candidate = true.
Proof.
  intros Hlen Hall. unfold isValid.
  destruct (2 <? k); [| reflexivity].
  apply forallb_forall. intros l Hl. apply in_seq in Hl.
  destruct (Hall l) as (G & HG & E); [lia |].
  apply existsb_exists. exists G. split; [by apply list_elem_of_In |].
  by apply slicesEqual_eq.
Qed.

(** A pair that passes the join test and the prune test is kept. *)
Lemma joinPair_kept itemsets k i j A B y :
  uniformLength k itemsets -> 2 <= k ->
  itemsets !! i = Some A -> itemsets !! j = Some B ->
  last (Items B) = Some y ->
  take (Z.to_nat (k - 2)) (Items A) = take (Z.to_nat (k - 2)) (Items B) ->
  isValid k itemsets (Go.sortStrings (Items A ++ [y])) = true ->
  joinPair itemsets k (i, j) = Some [joined k A y].
Proof.
  intros Hlen Hk HA HB Hy Hp Hv.
  assert (Z.of_nat (length (Items A)) = k - 1) as HlA
    by (eapply Hlen, list_elem_of_lookup_2, HA).
  assert (Z.of_nat (length (Items B)) = k - 1) as HlB
    by (eapply Hlen, list_elem_of_lookup_2, HB).
  destruct (makeCandidate_spec k _ _ HlA HlB Hk) as (y' & Hy' & Hc).
  rewrite Hy in Hy'. injection Hy' as <-.
  unfold joinPair. simpl. rewrite HA, HB. simpl.
  destruct (Z.ltb_spec k 2) as [Hlt | _]; [lia |].
  rewrite (canJoin_complete k _ _ HlA HlB Hk Hp). simpl.
  rewrite Hc. simpl. rewrite Hv. reflexivity.
Qed.

Lemma joinPair_candidate itemsets k candidates i j c :
  uniformLength k itemsets -> 2 <= k ->
  generateCandidates itemsets k = Some candidates ->
  (i < j < length itemsets)%nat ->
  joinPair itemsets k (i, j) = Some [c] ->
  c ∈ candidates.
Proof.
  intros Hlen Hk Hgen Hij Hjoin.
  destruct (generateCandidates_spec itemsets k Hlen Hk) as (appended & Heq & Hall).
  rewrite Heq in Hgen. injection Hgen as <-.
  apply elem_of_indexPairs, list_elem_of_lookup in Hij as (n & Hn).
  destruct (Forall2_lookup_l _ _ _ _ _ Hall Hn) as (r & Hr & Hjoin').
  rewrite Hjoin in Hjoin'. injection Hjoin' as <-.
  apply list_elem_of_In, in_concat. exists [c].
  split; [eapply list_elem_of_In, list_elem_of_lookup_2, Hr | by left].
Qed.

(** A strictly sorted slice of at least two items: its prefix and its two
    last items. *)
Lemma sorted_two_last (s : list string) k :
  strictlySorted s -> Z.of_nat (length s) = k -> 2 <= k ->
  exists p a b,
    s = p ++ [a; b] /\ length p = Z.to_nat (k - 2) /\ Go.str_lt a b /\
    subsetWithout (Z.to_nat (k - 1)) s = p ++ [a] /\
    subsetWithout (Z.to_nat (k - 2)) s = p ++ [b].
Proof.
  intros Hs Hlen Hk.
  set (n := Z.to_nat (k - 2)).
  destruct (lookup_lt_is_Some_2 s n) as [a Ha]; [lia |].
  destruct (lookup_lt_is_Some_2 s (S n)) as [b Hb]; [lia |].
  assert (s = take n s ++ [a; b]) as E.
  { rewrite <- (take_drop_middle s n a Ha) at 1. f_equal. f_equal.
    rewrite <- (take_drop_middle s (S n) b Hb) at 1.
    rewrite drop_app_length'; [| rewrite length_take; lia].
    rewrite (drop_ge s) by lia. reflexivity. }
  exists (take n s), a, b.
  assert (length (take n s) = n) as Hp by (rewrite length_take; lia).
  split; [exact E |]. split; [exact Hp |].
  split.
  - rewrite E in Hs. apply StronglySorted_app in Hs as (_ & _ & Hab).
    apply StronglySorted_inv in Hab as [_ Hab].
    rewrite Forall_forall in Hab. apply Hab. left.
  - replace (Z.to_nat (k - 1)) with (S n) by lia.
    rewrite !subsetWithout_delete. split.
    + rewrite E at 1.
      replace (S n) with (length (take n s ++ [a])) by (rewrite length_app; simpl; lia).
      change (take n s ++ [a; b]) with (take n s ++ [a] ++ [b]).
      rewrite app_assoc, delete_middle, app_nil_r. reflexivity.
    + rewrite E at 1. rewrite <- Hp at 1. apply delete_middle.
Qed.

End JoinComplete.

Section Cover.

Variable itemsets : list FrequentItemset.
Variable k : Z.
Variable candidates : list FrequentItemset.
Hypothesis Hlen : uniformLength k itemsets.
Hypothesis Hk : 2 <= k.
Hypothesis Hgen : generateCandidates itemsets k = Some candidates.

(** The join step misses nothing: a strictly sorted slice of [k] items
    whose [k] subsequences of [k-1] items all belong to the level is
    generated. *)
Lemma candidates_cover s :
  strictlySorted s -> Z.of_nat (length s) = k ->
  (forall l, (l < length s)%nat ->
     exists G, G ∈ itemsets /\ Items G = subsetWithout l s) ->
  exists c, c ∈ candidates /\ Items c = s.
Proof.
  intros Hs Hls Hall.
  destruct (sorted_two_last s k Hs Hls Hk) as (p & a & b & E & Hp & Hab & Ea & Eb).
  destruct (Hall (Z.to_nat (k - 1))) as (A & HA & EA); [lia |].
  destruct (Hall (Z.to_nat (k - 2))) as (B & HB & EB); [lia |].
  rewrite Ea in EA. rewrite Eb in EB.
  apply list_elem_of_lookup in HA as (i & Hi).
  apply list_elem_of_lookup in HB as (j & Hj).
  pose proof (lookup_lt_Some _ _ _ Hi) as Hil.
  pose proof (lookup_lt_Some _ _ _ Hj) as Hjl.
  assert (isValid k itemsets s = true) as Hv by (by apply isValid_complete).
  assert (take (Z.to_nat (k - 2)) (Items A) = take (Z.to_nat (k - 2)) (Items B))
    as Hprefix.
  { rewrite EA, EB, <- Hp. by rewrite !take_app_length. }
  assert (i <> j) as Hij.
  { intros ->. rewrite Hi in Hj. injection Hj as ->.
    rewrite EA in EB. apply app_inv_head in EB. injection EB as ->.
    exact (str_lt_irrefl _ Hab). }
  assert (Go.sortStrings (p ++ [a; b]) = s) as Hsort1
    by (rewrite <- E; by apply sortStrings_sorted).
  assert (Go.sortStrings (p ++ [b; a]) = s) as Hsort2.
  { apply strictlySorted_unique; [| exact Hs |].
    - apply sortStrings_strict.
      assert (p ++ [b; a] ≡ₚ s) as Hperm
        by (rewrite E; apply Permutation_app_head, perm_swap).
      rewrite Hperm. by apply strictlySorted_NoDup.
    - rewrite sortStrings_Permutation, E.
      apply Permutation_app_head, perm_swap. }
  destruct (Nat.lt_total i j) as [Hlt | [Heq | Hgt]]; [| contradiction |].
  - exists (joined k A b).
    assert (Go.sortStrings (Items A ++ [b]) = s) as Ec
      by (rewrite EA, <- app_assoc; exact Hsort1).
    split; [| exact Ec].
    apply (joinPair_candidate itemsets k candidates i j _ Hlen Hk Hgen); [lia |].
    apply (joinPair_kept itemsets k i j A B b Hlen Hk Hi Hj); [| exact Hprefix |].
    + rewrite EB. apply last_snoc.
    + by rewrite Ec.
  - exists (joined k B a).
    assert (Go.sortStrings (Items B ++ [a]) = s) as Ec
      by (rewrite EB, <- app_assoc; exact Hsort2).
    split; [| exact Ec].
    apply (joinPair_candidate itemsets k candidates j i _ Hlen Hk Hgen); [lia |].
    apply (joinPair_kept itemsets k j i B A a Hlen Hk Hj Hi); [| by symmetry |].
    + rewrite EA. apply last_snoc.
    + by rewrite Ec.
Qed.

End Cover.


(** X5.  For a level of pairwise distinct itemsets in canonical form that
    hold [k-1] items each, [k >= 2], the candidates are exactly the strictly
    sorted slices of [k] items all of whose [k] subsequences of [k-1] items
    belong to the level: the join step misses none of them and the prune
    step keeps nothing else. *)
Theorem candidates_exact itemsets k candidates s :
  (forall F, F ∈ itemsets ->
     strictlySorted (Items F) /\ Z.of_nat (length (Items F)) = k - 1) ->
  NoDup (Items <$> itemsets) -> 2 <= k ->
  generateCandidates itemsets k = Some candidates ->
  ((exists c, c ∈ candidates /\ Items c = s) <->
   strictlySorted s /\ Z.of_nat (length s) = k /\
   forall l, (l < length s)%nat ->
     exists G, G ∈ itemsets /\ Items G = subsetWithout l s).
Proof.
  intros Hwf Hnd Hk Hgen.
  assert (uniformLength k itemsets) as Hlen by (intros F HF; apply Hwf, HF).
  assert (canonicalLevel itemsets) as Hcanon
    by (split; [intros F HF; apply Hwf, HF | exact Hnd]).
  split.
  - intros (c & Hc & <-).
    destruct (candidates_length itemsets k _ Hlen Hk Hgen c Hc) as [Hl _].
    split; [exact (candidates_strictlySorted itemsets k _ Hlen Hk Hgen Hcanon c Hc) |].
    split; [exact Hl |].
    intros l Hlt.
    apply (candidates_closed itemsets k candidates Hlen Hk Hgen Hcanon c); auto.
    + rewrite subsetWithout_delete. apply sublist_delete.
    + rewrite subsetWithout_delete, length_delete
        by (by apply lookup_lt_is_Some_2). lia.
  - intros (Hs & Hl & Hall).
    exact (candidates_cover itemsets k candidates Hlen Hk Hgen s Hs Hl Hall).
Qed.

Lemma candidates_exact_witness :
  (exists c, c ∈ exampleCandidates /\ Items c = ["bread"; "milk"]%string) <->
  strictlySorted ["bread"; "milk"]%string /\
  Z.of_nat (length ["bread"; "milk"]%string) = 2 /\
  forall l, (l < length ["bread"; "milk"]%string)%nat ->
    exists G, G ∈ frequentItems exampleDataset 0.5%float /\
              Items G = subsetWithout l ["bread"; "milk"]%string.
Proof.
  apply (candidates_exact (frequentItems exampleDataset 0.5%float) 2
           exampleCandidates ["bread"; "milk"]%string).
  - vm_compute frequentItems. intros F HF.
    repeat (apply elem_of_cons in HF as [-> | HF]);
      [split; [repeat constructor | reflexivity] .. | inversion HF].
  - apply (bool_decide_unpack _). vm_compute. exact I.
  - lia.
  - vm_compute. reflexivity.
Defined.

(** ** The mining output, continued *)

Lemma StronglySorted_lookup {A} (R : A -> A -> Prop) (l : list A) i j x y :
  StronglySorted R l -> (i < j)%nat ->
  l !! i = Some x -> l !! j = Some y -> R x y.
Proof.
  intros Hs. revert i j. induction Hs as [| z l Hs IH Hz]; intros i j Hij Hi Hj.
  - inversion Hi.
  - destruct j as [| j]; [lia |]. simpl in Hj.
    destruct i as [| i].
    + simpl in Hi. injection Hi as ->.
      rewrite Forall_forall in Hz. eapply Hz, list_elem_of_lookup_2, Hj.
    + simpl in Hi. apply (IH i j); auto. lia.
Qed.

Section LevelProperties.

Variable dataset : Dataset.
Variable minSupport : float.

Lemma frequentCandidates_elem_of k Ck F :
  F ∈ frequentCandidates dataset minSupport k Ck <->
  exists c, c ∈ Ck /\
    PrimFloat.leb minSupport (candidateSupport dataset (Items c)) = true /\
    F = {| Items := Items c; Support := candidateSupport dataset (Items c);
           Length := k |}.
Proof.
  unfold frequentCandidates. rewrite list_elem_of_In, in_flat_map. split.
  - intros (c & Hc & HF). exists c. split; [by apply list_elem_of_In |].
    destruct (PrimFloat.leb _ _); [| inversion HF].
    destruct HF as [<- | []]. auto.
  - intros (c & Hc & Hle & ->). exists c. split; [by apply list_elem_of_In |].
    rewrite Hle. by left.
Qed.

Lemma frequentItems_elem_of F :
  F ∈ frequentItems dataset minSupport <->
  exists item, item ∈ UniqueItems dataset /\
    PrimFloat.leb minSupport (itemSupport dataset item) = true /\
    F = {| Items := [item]; Support := itemSupport dataset item; Length := 1 |}.
Proof.
  unfold frequentItems. rewrite list_elem_of_In, in_flat_map. split.
  - intros (c & Hc & HF). exists c. split; [by apply list_elem_of_In |].
    destruct (PrimFloat.leb _ _); [| inversion HF].
    destruct HF as [<- | []]. auto.
  - intros (c & Hc & Hle & ->). exists c. split; [by apply list_elem_of_In |].
    rewrite Hle. by left.
Qed.

Lemma countWhere_ext p q transactions :
  (forall t, t ∈ transactions -> p t = q t) ->
  countWhere p transactions = countWhere q transactions.
Proof.
  induction transactions as [| t rest IH]; simpl; intros H; [reflexivity |].
  rewrite (H t) by left. rewrite IH; [reflexivity |].
  intros t' Ht'. apply H. by right.
Qed.

(** The support of a single item, counted with [containsItem] at level 1,
    is the support that [isSubset] counts for the one-item slice. *)
Lemma itemSupport_candidateSupport item :
  itemSupport dataset item = candidateSupport dataset [item].
Proof.
  unfold itemSupport, candidateSupport.
  rewrite (countWhere_ext (fun t => containsItem t item)
             (fun t => isSubset [item] t)); [reflexivity |].
  intros t _. simpl. by destruct (containsItem t item).
Qed.

Lemma isSubset_same_items s s' t :
  (forall x, x ∈ s <-> x ∈ s') -> isSubset s t = isSubset s' t.
Proof.
  intros H. apply eq_true_iff_eq. change (?x = true) with (is_true x).
  unfold is_true. rewrite !isSubset_elem_of.
  split; intros Hall x Hx; apply Hall, H, Hx.
Qed.

(** The support depends on the set of items only. *)
Lemma candidateSupport_same_items s s' :
  (forall x, x ∈ s <-> x ∈ s') ->
  candidateSupport dataset s = candidateSupport dataset s'.
Proof.
  intros H. unfold candidateSupport.
  rewrite (countWhere_ext (fun t => isSubset s t) (fun t => isSubset s' t));
    [reflexivity |].
  intros t _. by apply isSubset_same_items.
Qed.

(** What the level loop adds satisfies every property that passes from a
    level to the frequent candidates generated from it. *)
Lemma levelLoop_Forall (P : FrequentItemset -> Prop) n k Lk_1 result out :
  2 <= k -> uniformLength k Lk_1 ->
  (forall k Lk_1 Ck F, 2 <= k -> uniformLength k Lk_1 ->
     (forall G, G ∈ Lk_1 -> P G) ->
     generateCandidates Lk_1 k = Some Ck ->
     F ∈ frequentCandidates dataset minSupport k Ck -> P F) ->
  (forall F, F ∈ Lk_1 -> P F) -> (forall F, F ∈ result -> P F) ->
  levelLoop dataset minSupport n k Lk_1 result = Some out ->
  forall F, F ∈ out -> P F.
Proof.
  intros Hk Hlen Hstep. revert k Lk_1 result Hk Hlen.
  induction n as [| n IH]; intros k Lk_1 result Hk Hlen HL Hres; simpl;
    [by intros [= <-] |].
  destruct (generateCandidates Lk_1 k) as [Ck |] eqn:Hgen; [| discriminate].
  simpl. set (Lk := frequentCandidates dataset minSupport k Ck).
  destruct (Nat.eqb (length Lk) 0); [by intros [= <-] |].
  assert (forall F, F ∈ Lk -> P F) as HLk
    by (intros F HF; exact (Hstep k Lk_1 Ck F Hk Hlen HL Hgen HF)).
  apply IH; [lia | | exact HLk |].
  - intros F HF. apply elem_of_frequentCandidates in HF as (c & Hc & -> & _).
    destruct (candidates_length Lk_1 k _ Hlen Hk Hgen c Hc) as [-> _]. lia.
  - intros F HF. apply elem_of_app in HF as [HF | HF]; auto.
Qed.

Lemma joined_items itemsets k c x :
  uniformLength k itemsets -> 2 <= k ->
  c ∈ default [] (generateCandidates itemsets k) -> x ∈ Items c ->
  exists G, G ∈ itemsets /\ x ∈ Items G.
Proof.
  intros Hlen Hk Hc Hx.
  destruct (generateCandidates itemsets k) as [Ck |] eqn:Hgen; [| inversion Hc].
  destruct (generateCandidates_origin _ _ _ _ Hlen Hk Hgen Hc)
    as (i & j & A & B & y & _ & HA & HB & Hy & -> & _).
  simpl in Hx. rewrite sortStrings_Permutation in Hx.
  apply elem_of_app in Hx as [Hx | Hx].
  - exists A. split; [eapply list_elem_of_lookup_2, HA | exact Hx].
  - apply list_elem_of_singleton in Hx as ->.
    exists B. split; [eapply list_elem_of_lookup_2, HB |].
    apply last_Some in Hy as (l' & ->). apply elem_of_app. right. left.
Qed.

(** Every itemset of the output carries the support counted for its items,
    which reaches the threshold, and its items belong to the universe. *)
Lemma FindFrequentItemsets_sound maxLen out F :
  FindFrequentItemsets dataset minSupport maxLen = Some out -> F ∈ out ->
  Support F = candidateSupport dataset (Items F) /\
  PrimFloat.leb minSupport (Support F) = true /\
  (forall x, x ∈ Items F -> x ∈ UniqueItems dataset).
Proof.
  unfold FindFrequentItemsets. simpl. intros Hout. revert F.
  set (P := fun F : FrequentItemset =>
    Support F = candidateSupport dataset (Items F) /\
    PrimFloat.leb minSupport (Support F) = true /\
    (forall x, x ∈ Items F -> x ∈ UniqueItems dataset)).
  assert (forall F, F ∈ frequentItems dataset minSupport -> P F) as HL1.
  { intros G HG. apply frequentItems_elem_of in HG as (item & Hi & Hle & ->).
    split; [apply itemSupport_candidateSupport |]. split; [exact Hle |].
    simpl. intros x Hx. by apply list_elem_of_singleton in Hx as ->. }
  apply (levelLoop_Forall P (Z.to_nat (maxLen - 1)) 2
           (frequentItems dataset minSupport)
           (frequentItems dataset minSupport) out);
    [lia | apply frequentItems_uniform | | exact HL1 | exact HL1 | exact Hout].
  intros k Lk_1 Ck F Hk Hlen HL Hgen HF.
  apply frequentCandidates_elem_of in HF as (c & Hc & Hle & ->).
  split; [reflexivity |]. split; [exact Hle |].
  simpl. intros x Hx.
  destruct (joined_items Lk_1 k c x Hlen Hk) as (G & HG & HxG);
    [by rewrite Hgen | exact Hx |].
  by apply (HL G HG).
Qed.

Lemma levelLoop_levels n k Lk_1 result out :
  2 <= k -> uniformLength k Lk_1 ->
  (forall F, F ∈ result ->
     1 <= Length F <= k - 1 /\ Z.of_nat (length (Items F)) = Length F) ->
  StronglySorted (fun F G => Length F <= Length G) result ->
  levelLoop dataset minSupport n k Lk_1 result = Some out ->
  (forall F, F ∈ out ->
     1 <= Length F <= k - 1 + Z.of_nat n /\
     Z.of_nat (length (Items F)) = Length F) /\
  StronglySorted (fun F G => Length F <= Length G) out.
Proof.
  revert k Lk_1 result.
  induction n as [| n IH]; intros k Lk_1 result Hk Hlen Hres Hsorted; simpl.
  - intros [= <-]. split; [| exact Hsorted].
    intros F HF. specialize (Hres F HF). lia.
  - destruct (generateCandidates Lk_1 k) as [Ck |] eqn:Hgen; [| discriminate].
    simpl. set (Lk := frequentCandidates dataset minSupport k Ck).
    assert (forall F, F ∈ Lk ->
              Length F = k /\ Z.of_nat (length (Items F)) = k) as HLk.
    { intros F HF. apply elem_of_frequentCandidates in HF as (c & Hc & -> & -> & _).
      destruct (candidates_length Lk_1 k _ Hlen Hk Hgen c Hc) as [-> _]. auto. }
    destruct (Nat.eqb (length Lk) 0).
    + intros [= <-]. split; [| exact Hsorted].
      intros F HF. specialize (Hres F HF). lia.
    + intros Hout.
      destruct (IH (k + 1) Lk (result ++ Lk)) as [H1 H2]; auto; [lia | | | |].
      * intros F HF. destruct (HLk F HF). lia.
      * intros F HF. apply elem_of_app in HF as [HF | HF].
        -- specialize (Hres F HF). lia.
        -- destruct (HLk F HF). lia.
      * apply StronglySorted_app_2; [| exact Hsorted |].
        -- intros F G HF HG. specialize (Hres F HF). destruct (HLk G HG). lia.
        -- assert (Forall (fun F => Length F = k) Lk) as Hall
             by (apply Forall_forall; intros F HF; by destruct (HLk F HF)).
           clear -Hall. induction Hall as [| F l HF Hall IH]; constructor; auto.
           eapply Forall_impl; [exact Hall |]. simpl. intros G HG. lia.
      * split; [| exact H2]. intros F HF. specialize (H1 F HF). lia.
Qed.

Lemma FindFrequentItemsets_levels maxLen out :
  FindFrequentItemsets dataset minSupport maxLen = Some out ->
  (forall F, F ∈ out ->
     1 <= Length F <= Z.max 1 maxLen /\
     Z.of_nat (length (Items F)) = Length F) /\
  StronglySorted (fun F G => Length F <= Length G) out.
Proof.
  unfold FindFrequentItemsets. simpl. intros Hout.
  destruct (levelLoop_levels (Z.to_nat (maxLen - 1)) 2
              (frequentItems dataset minSupport)
              (frequentItems dataset minSupport) out) as [Hbound Hsorted];
    [lia | apply frequentItems_uniform | | | exact Hout |].
  - intros F HF. apply elem_of_frequentItems in HF as (item & _ & -> & ->).
    simpl. lia.
  - assert (Forall (fun F => Length F = 1) (frequentItems dataset minSupport))
      as Hall.
    { apply Forall_forall. intros F HF.
      by apply elem_of_frequentItems in HF as (item & _ & _ & ->). }
    clear Hout.
    induction Hall as [| F l HF Hall IH]; constructor; auto.
    eapply Forall_impl; [exact Hall |]. simpl. intros G HG. lia.
  - split; [| exact Hsorted].
    intros F HF. destruct (Hbound F HF). split; [lia | assumption].
Qed.

End LevelProperties.

Section Complete.

Variable dataset : Dataset.
Variable minSupport : float.

Lemma sublist_strictlySorted (s t : list string) :
  sublist s t -> strictlySorted t -> strictlySorted s.
Proof.
  induction 1 as [| x s t Hst IH | x s t Hst IH]; intros Ht.
  - constructor.
  - apply StronglySorted_inv in Ht as [Ht Hx]. constructor; [by apply IH |].
    rewrite Forall_forall in Hx |- *. intros y Hy.
    apply Hx. by apply (sublist_elem_of s t).
  - apply StronglySorted_inv in Ht as [Ht _]. by apply IH.
Qed.

Lemma allSubsetsFrequent_sublist s s' :
  allSubsetsFrequent dataset minSupport s -> sublist s' s ->
  allSubsetsFrequent dataset minSupport s'.
Proof. intros H Hs u Hu Hne. apply H; [by transitivity s' | exact Hne]. Qed.

Hypothesis Hsorted : strictlySorted (UniqueItems dataset).

Lemma frequentItems_canonical :
  canonicalLevel (frequentItems dataset minSupport).
Proof.
  split.
  - intros F HF. apply elem_of_frequentItems in HF as (item & _ & -> & _).
    repeat constructor.
  - eapply sublist_NoDup; [| apply frequentItems_sublist].
    apply NoDup_fmap_2; [| apply strictlySorted_NoDup, Hsorted].
    intros x y [= ->]. reflexivity.
Qed.

Lemma levelLoop_complete n k Lk_1 result out :
  2 <= k -> uniformLength k Lk_1 -> canonicalLevel Lk_1 ->
  (forall s, sublist s (UniqueItems dataset) ->
     Z.of_nat (length s) = k - 1 -> allSubsetsFrequent dataset minSupport s ->
     exists F, F ∈ Lk_1 /\ Items F = s) ->
  (forall s, sublist s (UniqueItems dataset) -> s <> [] ->
     Z.of_nat (length s) <= k - 1 -> allSubsetsFrequent dataset minSupport s ->
     exists F, F ∈ result /\ Items F = s) ->
  levelLoop dataset minSupport n k Lk_1 result = Some out ->
  forall s, sublist s (UniqueItems dataset) -> s <> [] ->
    Z.of_nat (length s) <= k - 1 + Z.of_nat n ->
    allSubsetsFrequent dataset minSupport s ->
    exists F, F ∈ out /\ Items F = s.
Proof.
  revert k Lk_1 result.
  induction n as [| n IH]; intros k Lk_1 result Hk Hlen Hcanon HL Hres; simpl.
  - intros [= <-] s Hs Hne Hl Hf. apply Hres; auto. lia.
  - destruct (generateCandidates Lk_1 k) as [Ck |] eqn:Hgen; [| discriminate].
    simpl. set (Lk := frequentCandidates dataset minSupport k Ck).
    assert (forall s, sublist s (UniqueItems dataset) ->
              Z.of_nat (length s) = k -> allSubsetsFrequent dataset minSupport s ->
              exists F, F ∈ Lk /\ Items F = s) as HLk.
    { intros s Hs Hl Hf.
      destruct (candidates_cover Lk_1 k Ck Hlen Hk Hgen s) as (c & Hc & Ec);
        [by apply (sublist_strictlySorted s (UniqueItems dataset)) | exact Hl | |].
      - intros l Hlt. rewrite subsetWithout_delete.
        apply HL.
        + transitivity s; [apply sublist_delete | exact Hs].
        + rewrite length_delete by (apply lookup_lt_is_Some_2, Hlt). lia.
        + apply (allSubsetsFrequent_sublist s); [exact Hf | apply sublist_delete].
      - exists {| Items := Items c;
                  Support := candidateSupport dataset (Items c); Length := k |}.
        split; [| exact Ec].
        apply frequentCandidates_elem_of. exists c.
        split; [exact Hc |]. split; [| reflexivity].
        rewrite Ec. apply Hf; [reflexivity |].
        intros ->. simpl in Hl. lia. }
    destruct (Nat.eqb_spec (length Lk) 0) as [Hempty | Hnonempty].
    + intros [= <-] s Hs Hne Hl Hf.
      destruct (Z.le_gt_cases (Z.of_nat (length s)) (k - 1)) as [Hle | Hgt];
        [by apply Hres |].
      exfalso.
      destruct (HLk (take (Z.to_nat k) s)) as (F & HF & _).
      * transitivity s; [apply sublist_take | exact Hs].
      * rewrite length_take. lia.
      * apply (allSubsetsFrequent_sublist s); [exact Hf | apply sublist_take].
      * destruct Lk; [inversion HF | discriminate].
    + assert (forall F, F ∈ Lk ->
                exists c, c ∈ Ck /\ Items F = Items c) as Horigin.
      { intros F HF. apply elem_of_frequentCandidates in HF as (c & ? & ? & _).
        eauto. }
      intros Hout s Hs Hne Hl Hf.
      apply (IH (k + 1) Lk (result ++ Lk)); auto; [lia | | | | | lia].
      * intros F HF. destruct (Horigin F HF) as (c & Hc & ->).
        destruct (candidates_length Lk_1 k Ck Hlen Hk Hgen c Hc) as [-> _]. lia.
      * split.
        -- intros F HF. destruct (Horigin F HF) as (c & Hc & ->).
           exact (candidates_strictlySorted Lk_1 k Ck Hlen Hk Hgen Hcanon c Hc).
        -- eapply sublist_NoDup; [| apply frequentCandidates_sublist].
           exact (candidates_NoDup Lk_1 k Ck Hlen Hk Hgen Hcanon).
      * intros u Hu Hlu Hfu. apply HLk; auto. lia.
      * intros u Hu Hune Hlu Hfu.
        destruct (Z.le_gt_cases (Z.of_nat (length u)) (k - 1)) as [Hle | Hgt].
        -- destruct (Hres u Hu Hune Hle Hfu) as (F & HF & E).
           exists F. split; [apply elem_of_app; by left | exact E].
        -- destruct (HLk u Hu ltac:(lia) Hfu) as (F & HF & E).
           exists F. split; [apply elem_of_app; by right | exact E].
Qed.

Lemma FindFrequentItemsets_complete maxLen out s :
  FindFrequentItemsets dataset minSupport maxLen = Some out ->
  sublist s (UniqueItems dataset) -> s <> [] ->
  Z.of_nat (length s) <= Z.max 1 maxLen ->
  allSubsetsFrequent dataset minSupport s ->
  exists F, F ∈ out /\ Items F = s.
Proof.
  unfold FindFrequentItemsets. simpl. intros Hout Hs Hne Hl Hf.
  assert (forall s, sublist s (UniqueItems dataset) ->
            Z.of_nat (length s) = 2 - 1 -> allSubsetsFrequent dataset minSupport s ->
            exists F, F ∈ frequentItems dataset minSupport /\ Items F = s) as HL1.
  { intros u Hu Hlu Hfu.
    destruct u as [| item [| ? ?]]; simpl in Hlu; try lia.
    exists {| Items := [item]; Support := itemSupport dataset item; Length := 1 |}.
    split; [| reflexivity].
    apply frequentItems_elem_of. exists item.
    split; [apply (sublist_elem_of [item] (UniqueItems dataset)); [exact Hu | left] |].
    split; [| reflexivity].
    rewrite itemSupport_candidateSupport. apply Hfu; [reflexivity | discriminate]. }
  pose proof frequentItems_canonical as Hcanon.
  apply (levelLoop_complete (Z.to_nat (maxLen - 1)) 2
           (frequentItems dataset minSupport)
           (frequentItems dataset minSupport) out);
    auto; [lia | apply frequentItems_uniform | | lia].
  intros u Hu Hune Hlu Hfu. apply HL1; auto.
  destruct u; [contradiction | simpl in Hlu |- *; lia].
Qed.

End Complete.

(** X7.  Mining returns the itemsets level by level: every itemset holds
    as many items as its [Length] says, between 1 and [maxLen] (1 when
    [maxLen < 1]), and the lengths never decrease along the list. *)
Theorem output_levels dataset minSupport maxLen :
  exists out,
    FindFrequentItemsets dataset minSupport maxLen = Some out /\
    (forall F, F ∈ out ->
       1 <= Length F <= Z.max 1 maxLen /\
       Z.of_nat (length (Items F)) = Length F) /\
    (forall i j F G, (i <= j)%nat ->
       out !! i = Some F -> out !! j = Some G -> Length F <= Length G).
Proof.
  destruct (FindFrequentItemsets_total dataset minSupport maxLen) as [out Hout].
  exists out. split; [exact Hout |].
  destruct (FindFrequentItemsets_levels dataset minSupport maxLen out Hout)
    as [Hbound Hsorted].
  split; [exact Hbound |].
  intros i j F G Hij HF HG.
  destruct (Nat.eq_dec i j) as [-> | Hne];
    [assert (F = G) by congruence; subst; lia |].
  apply (StronglySorted_lookup _ out i j F G Hsorted); auto. lia.
Qed.

(** X8.  Every itemset that mining returns carries as [Support] the
    fraction of transactions that [isSubset] counts for its items, this
    support reaches [minSupport], and its items belong to the universe. *)
Theorem output_sound dataset minSupport maxLen :
  exists out,
    FindFrequentItemsets dataset minSupport maxLen = Some out /\
    forall F, F ∈ out ->
      Support F = candidateSupport dataset (Items F) /\
      PrimFloat.leb minSupport (Support F) = true /\
      (forall item, item ∈ Items F -> item ∈ UniqueItems dataset).
Proof.
  destruct (FindFrequentItemsets_total dataset minSupport maxLen) as [out Hout].
  exists out. split; [exact Hout |]. intros F HF.
  exact (FindFrequentItemsets_sound dataset minSupport maxLen out F Hout HF).
Qed.

(** X9.  What mining returns, exactly.  On a dataset that satisfies the
    dataset invariant, a slice is the item sequence of a returned itemset if
    and only if it is a non-empty subsequence of the universe of at most
    [maxLen] items (one item when [maxLen < 1]) every non-empty subsequence
    of which, itself included, has a counted support that reaches
    [minSupport]. *)
Theorem mining_exact dataset minSupport maxLen out s :
  DatasetInvariant dataset ->
  FindFrequentItemsets dataset minSupport maxLen = Some out ->
  ((exists F, F ∈ out /\ Items F = s) <->
   sublist s (UniqueItems dataset) /\ s <> [] /\
   Z.of_nat (length s) <= Z.max 1 maxLen /\
   allSubsetsFrequent dataset minSupport s).
Proof.
  intros Hds Hout.
  pose proof (FindFrequentItemsets_invariant _ _ _ _ Hds Hout) as Hinv.
  split.
  - intros (F & HF & <-).
    destruct (FindFrequentItemsets_sound dataset minSupport maxLen out F Hout HF)
      as (_ & _ & Huniv).
    destruct (out_length out Hinv F HF) as [Hl Hpos].
    split; [| split; [| split]].
    + apply strictlySorted_sublist;
        [apply (out_canonical out Hinv F HF) | apply Hds | exact Huniv].
    + intros E. rewrite E in Hl. simpl in Hl. lia.
    + destruct (FindFrequentItemsets_levels dataset minSupport maxLen out Hout)
        as [Hbound _].
      destruct (Hbound F HF). lia.
    + intros s' Hs' Hne.
      destruct (MiningInvariant_sublists out Hinv F s' HF Hs' Hne) as (G & HG & <-).
      destruct (FindFrequentItemsets_sound dataset minSupport maxLen out G Hout HG)
        as (<- & Hle & _).
      exact Hle.
  - intros (Hs & Hne & Hl & Hf).
    destruct Hds as [Hsorted _].
    exact (FindFrequentItemsets_complete dataset minSupport Hsorted maxLen out s
             Hout Hs Hne Hl Hf).
Qed.

Lemma mining_exact_witness :
  (exists F, F ∈ exampleItemsets /\ Items F = ["bread"; "milk"]%string) <->
  sublist ["bread"; "milk"]%string (UniqueItems exampleDataset) /\
  ["bread"; "milk"]%string <> [] /\
  Z.of_nat (length ["bread"; "milk"]%string) <= Z.max 1 2 /\
  allSubsetsFrequent exampleDataset 0.5%float ["bread"; "milk"]%string.
Proof.
  apply (mining_exact exampleDataset 0.5%float 2 exampleItemsets).
  - exact exampleDataset_invariant.
  - vm_compute. reflexivity.
Defined.

(** ** Rule generation, continued *)

Section Keys.

Local Arguments String.append !_ _ / : simpl nomatch.

Lemma hasComma_app x y : hasComma (x ++ y) = hasComma x || hasComma y.
Proof.
  induction x as [| c x IH]; simpl; [reflexivity |].
  rewrite IH. apply orb_assoc.
Qed.

Lemma comma_split x y r r' :
  hasComma x = false -> hasComma y = false ->
  (x ++ "," ++ r = y ++ "," ++ r')%string -> x = y /\ r = r'.
Proof.
  revert y. induction x as [| c x IH]; intros [| d y]; simpl; intros Hx Hy E.
  - by injection E as ->.
  - injection E as <- _. discriminate.
  - injection E as -> _. discriminate.
  - injection E as -> E.
    apply orb_false_iff in Hx as [_ Hx]. apply orb_false_iff in Hy as [_ Hy].
    destruct (IH y Hx Hy E) as [-> ->]. auto.
Qed.

Lemma Join_cons x y l :
  Go.Join (x :: y :: l) "," = (x ++ "," ++ Go.Join (y :: l) ",")%string.
Proof. reflexivity. Qed.

(** Without a comma in any item, the key determines a non-empty slice. *)
Lemma Join_inj a b :
  Forall (fun x => hasComma x = false) a ->
  Forall (fun x => hasComma x = false) b ->
  a <> [] -> b <> [] ->
  Go.Join a "," = Go.Join b "," -> a = b.
Proof.
  intros Ha. revert b.
  induction Ha as [| x a Hx Ha IH]; intros b Hb Hne Hne' E; [contradiction |].
  destruct Hb as [| y b Hy Hb]; [contradiction |].
  destruct a as [| x' a], b as [| y' b].
  - change (x = y) in E. by subst.
  - rewrite Join_cons in E. change (Go.Join [x] ",") with x in E. subst x.
    rewrite hasComma_app in Hx. simpl in Hx.
    rewrite orb_true_r in Hx. discriminate.
  - rewrite Join_cons in E. change (Go.Join [y] ",") with y in E. subst y.
    rewrite hasComma_app in Hy. simpl in Hy.
    rewrite orb_true_r in Hy. discriminate.
  - rewrite !Join_cons in E.
    destruct (comma_split _ _ _ _ Hx Hy E) as [-> E'].
    f_equal. apply IH; auto; discriminate.
Qed.

Lemma foldl_insert_notin (itemsets : list FrequentItemset)
    (m : gmap string float) key :
  key ∉ (fun F => Go.Join (Items F) ",") <$> itemsets ->
  foldl (fun m itemset =>
    <[Go.Join (Items itemset) "," := Support itemset]> m) m itemsets !! key
  = m !! key.
Proof.
  revert m. induction itemsets as [| G itemsets IH]; intros m Hnin; simpl;
    [reflexivity |].
  rewrite fmap_cons, not_elem_of_cons in Hnin. destruct Hnin as [Hne Hnin].
  rewrite IH by exact Hnin. by apply lookup_insert_ne.
Qed.

(** With pairwise distinct keys, the map gives every itemset its own
    support. *)
Lemma buildItemsetMap_exact (itemsets : list FrequentItemset) F :
  NoDup ((fun F => Go.Join (Items F) ",") <$> itemsets) ->
  F ∈ itemsets ->
  buildItemsetMap itemsets !! Go.Join (Items F) "," = Some (Support F).
Proof.
  unfold buildItemsetMap. generalize (∅ : gmap string float).
  induction itemsets as [| G itemsets IH]; intros m Hnd HF; [inversion HF |].
  rewrite fmap_cons in Hnd. apply NoDup_cons in Hnd as [Hnin Hnd]. simpl.
  apply elem_of_cons in HF as [-> | HF].
  - rewrite foldl_insert_notin by exact Hnin. apply lookup_insert_eq.
  - by apply IH.
Qed.

End Keys.

Section OutputKeys.

Variable dataset : Dataset.
Variable minSupport : float.
Variable maxLen : Z.
Variable out : list FrequentItemset.
Hypothesis Hds : DatasetInvariant dataset.
Hypothesis Hcomma : forall item, item ∈ UniqueItems dataset -> hasComma item = false.
Hypothesis Hout : FindFrequentItemsets dataset minSupport maxLen = Some out.

Lemma output_keys_NoDup :
  NoDup ((fun F => Go.Join (Items F) ",") <$> out).
Proof.
  pose proof (FindFrequentItemsets_invariant _ _ _ _ Hds Hout) as Hinv.
  assert (forall F, F ∈ out ->
            Forall (fun x => hasComma x = false) (Items F) /\ Items F <> [])
    as Hitems.
  { intros F HF. split.
    - apply Forall_forall. intros x Hx. apply Hcomma.
      by apply (FindFrequentItemsets_sound dataset minSupport maxLen out F).
    - destruct (out_length out Hinv F HF) as [E Hpos].
      intros Hnil. rewrite Hnil in E. simpl in E. lia. }
  assert (NoDup out) as Hnd by (eapply NoDup_fmap_1, (out_distinct out Hinv)).
  rewrite (list_fmap_compose Items (fun s => Go.Join s ",")).
  apply NoDup_fmap_2_strong; [| exact (out_distinct out Hinv)].
  intros s s' Hs Hs' E.
  apply list_elem_of_fmap in Hs as (F & -> & HF).
  apply list_elem_of_fmap in Hs' as (F' & -> & HF').
  destruct (Hitems F HF), (Hitems F' HF'). by apply Join_inj.
Qed.

(** The support that the map holds under the key of a non-empty
    subsequence of an itemset of the output is the support counted for that
    subsequence. *)
Lemma output_lookup F s :
  F ∈ out -> sublist s (Items F) -> s <> [] ->
  buildItemsetMap out !! Go.Join s "," = Some (candidateSupport dataset s).
Proof.
  intros HF Hs Hne.
  pose proof (FindFrequentItemsets_invariant _ _ _ _ Hds Hout) as Hinv.
  destruct (MiningInvariant_sublists out Hinv F s HF Hs Hne) as (G & HG & <-).
  rewrite (buildItemsetMap_exact out G output_keys_NoDup HG). f_equal.
  by destruct (FindFrequentItemsets_sound dataset minSupport maxLen out G Hout HG).
Qed.

End OutputKeys.

Section RuleProperties.

Lemma sublist_proper_length (s t : list string) :
  sublist s t -> s <> t -> length s <> length t.
Proof.
  intros Hs Hne Hlen. apply Hne, sublist_full; [exact Hs | lia].
Qed.

Lemma difference_same_items a b x :
  sublist b a -> (x ∈ a <-> x ∈ b ++ difference a b).
Proof.
  intros Hb. rewrite elem_of_app, difference_elem_of. split.
  - intros Hx. destruct (decide (x ∈ b)); auto.
  - intros [Hx | [Hx _]]; [| exact Hx]. by apply (sublist_elem_of b a).
Qed.

Lemma omap_concat {A B} (f : A -> option B) (ls : list (list A)) :
  omap f (concat ls) = concat (map (omap f) ls).
Proof.
  induction ls as [| l ls IH]; simpl; [reflexivity |].
  by rewrite omap_app, IH.
Qed.

(** The rules of a run, itemset by itemset. *)
Lemma GenerateAssociationRules_parts itemsets minConfidence rules :
  GenerateAssociationRules itemsets minConfidence = Some rules ->
  exists parts,
    rules = concat parts /\
    Forall2 (fun F part =>
      option_map (omap emitted)
        (itemsetSteps (buildItemsetMap itemsets) minConfidence F)
        = Some part) itemsets parts.
Proof.
  unfold GenerateAssociationRules, ruleSteps.
  destruct (mapM _ itemsets) as [steps |] eqn:Hm; [| discriminate].
  simpl. intros [= <-]. apply mapM_Some_1 in Hm.
  exists (map (omap emitted) steps). split; [apply omap_concat |].
  apply (Forall2_fmap_r (omap emitted)). eapply Forall2_impl; [exact Hm |].
  simpl. intros F r ->. reflexivity.
Qed.

Lemma emitted_antecedents (itemsetMap : gmap string float) minConfidence F
    antecedents rule :
  rule ∈ omap emitted (map (ruleStep itemsetMap minConfidence F) antecedents) ->
  Antecedent rule ∈ antecedents /\
  Consequent rule = difference (Items F) (Antecedent rule).
Proof.
  intros Hin. apply list_elem_of_omap in Hin as (step & Hstep & Hemit).
  apply list_elem_of_In, in_map_iff in Hstep as (a & <- & Ha).
  destruct (ruleStep itemsetMap minConfidence F a) eqn:E; try discriminate.
  injection Hemit as ->.
  apply ruleStep_emit in E as (_ & _ & sa & sc & _ & _ & _ & ->). simpl.
  split; [by apply list_elem_of_In | reflexivity].
Qed.

Lemma emitted_NoDup (itemsetMap : gmap string float) minConfidence F antecedents :
  NoDup antecedents ->
  NoDup ((fun rule => (Antecedent rule, Consequent rule)) <$>
    omap emitted (map (ruleStep itemsetMap minConfidence F) antecedents)).
Proof.
  induction 1 as [| a l Ha Hnd IH]; simpl; [constructor |].
  destruct (ruleStep itemsetMap minConfidence F a) eqn:E; simpl; try exact IH.
  apply ruleStep_emit in E as (_ & _ & sa & sc & _ & _ & _ & ->). simpl.
  constructor; [| exact IH].
  intros Hin. apply list_elem_of_fmap in Hin as (rule' & [= E1 E2] & Hin).
  apply emitted_antecedents in Hin as [Hin _]. rewrite <- E1 in Hin.
  contradiction.
Qed.

End RuleProperties.


(** X10.  The metrics of the rules.  On an output of mining for a dataset
    that satisfies the dataset invariant and has no comma in any item name,
    every rule has as [Support] the counted support of the items of its two
    sides together, as confidence this support divided by the counted
    support of the antecedent, which reaches [minConfidence], and lift,
    leverage and conviction computed from these and the counted support of
    the consequent. *)
Theorem rule_metrics dataset minSupport maxLen out minConfidence rules rule :
  DatasetInvariant dataset ->
  (forall item, item ∈ UniqueItems dataset -> hasComma item = false) ->
  FindFrequentItemsets dataset minSupport maxLen = Some out ->
  GenerateAssociationRules out minConfidence = Some rules ->
  rule ∈ rules ->
  let support :=
    candidateSupport dataset (Antecedent rule ++ Consequent rule) in
  let antecedentSupport := candidateSupport dataset (Antecedent rule) in
  let consequentSupport := candidateSupport dataset (Consequent rule) in
  RuleSupport rule = support /\
  Confidence rule = PrimFloat.div support antecedentSupport /\
  PrimFloat.leb minConfidence (Confidence rule) = true /\
  Lift rule = PrimFloat.div (Confidence rule) consequentSupport /\
  LeverageMetric rule =
    PrimFloat.sub support (PrimFloat.mul antecedentSupport consequentSupport) /\
  ConvictionMetric rule = conviction consequentSupport (Confidence rule).
Proof.
  intros Hds Hcomma Hout Hrules Hin.
  pose proof (FindFrequentItemsets_invariant _ _ _ _ Hds Hout) as Hinv.
  destruct (GenerateAssociationRules_origin _ _ _ _ Hrules Hin)
    as (F & antecedents & antecedent & HF & Hk & Hgen & Ha & Hstep).
  apply ruleStep_emit in Hstep as (Hne & Hproper & sa & sc & Hsa & Hsc & Hle & ->).
  pose proof (generateAllSubsets_sublist _ _ _ Hgen Ha) as Hsub.
  rewrite (output_lookup dataset minSupport maxLen out Hds Hcomma Hout F antecedent)
    in Hsa; [| exact HF | exact Hsub | by destruct antecedent].
  rewrite (output_lookup dataset minSupport maxLen out Hds Hcomma Hout F
             (difference (Items F) antecedent)) in Hsc;
    [| exact HF | apply difference_sublist |].
  2:{ apply difference_nonempty; auto.
      apply strictlySorted_NoDup, (out_canonical out Hinv F HF). }
  injection Hsa as <-. injection Hsc as <-.
  destruct (FindFrequentItemsets_sound dataset minSupport maxLen out F Hout HF)
    as (HsF & _ & _).
  assert (Support F =
          candidateSupport dataset (antecedent ++ difference (Items F) antecedent))
    as E.
  { rewrite HsF. apply candidateSupport_same_items.
    intros x. by apply difference_same_items. }
  simpl. rewrite <- E. repeat split; auto.
Qed.

Lemma rule_metrics_witness :
  let rule := exampleRule "butter" "bread" 0.5 0.5 0.75 in
  let support :=
    candidateSupport exampleDataset (Antecedent rule ++ Consequent rule) in
  let antecedentSupport := candidateSupport exampleDataset (Antecedent rule) in
  let consequentSupport := candidateSupport exampleDataset (Consequent rule) in
  RuleSupport rule = support /\
  Confidence rule = PrimFloat.div support antecedentSupport /\
  PrimFloat.leb confidence06 (Confidence rule) = true /\
  Lift rule = PrimFloat.div (Confidence rule) consequentSupport /\
  LeverageMetric rule =
    PrimFloat.sub support (PrimFloat.mul antecedentSupport consequentSupport) /\
  ConvictionMetric rule = conviction consequentSupport (Confidence rule).
Proof.
  apply (rule_metrics exampleDataset 0.5%float 2 exampleItemsets confidence06
           (default [] (GenerateAssociationRules exampleItemsets confidence06))).
  - exact exampleDataset_invariant.
  - intros item Hitem. simpl in Hitem.
    repeat (apply elem_of_cons in Hitem as [-> | Hitem]); [reflexivity .. |].
    inversion Hitem.
  - vm_compute. reflexivity.
  - vm_compute. reflexivity.
  - vm_compute. right. left.
Defined.

(** X11.  No rule is missed.  Under the same conditions, for every
    returned itemset and every non-empty proper subsequence of its items
    whose confidence reaches [minConfidence], the rule with that antecedent
    and the remaining items as consequent is among the rules. *)
Theorem rules_complete dataset minSupport maxLen out minConfidence rules
    F antecedent :
  DatasetInvariant dataset ->
  (forall item, item ∈ UniqueItems dataset -> hasComma item = false) ->
  FindFrequentItemsets dataset minSupport maxLen = Some out ->
  GenerateAssociationRules out minConfidence = Some rules ->
  F ∈ out -> sublist antecedent (Items F) ->
  antecedent <> [] -> antecedent <> Items F ->
  PrimFloat.leb minConfidence
    (PrimFloat.div (Support F) (candidateSupport dataset antecedent)) = true ->
  exists rule, rule ∈ rules /\
    Antecedent rule = antecedent /\
    Consequent rule = difference (Items F) antecedent.
Proof.
  intros Hds Hcomma Hout Hrules HF Hsub Hne Hproper Hle.
  pose proof (FindFrequentItemsets_invariant _ _ _ _ Hds Hout) as Hinv.
  destruct (GenerateAssociationRules_parts _ _ _ Hrules) as (parts & -> & Hall).
  apply list_elem_of_lookup in HF as (i & Hi).
  destruct (Forall2_lookup_l _ _ _ _ _ Hall Hi) as (part & Hpart & Hsteps).
  assert (F ∈ out) as HF by (eapply list_elem_of_lookup_2, Hi).
  pose proof (sublist_proper_length _ _ Hsub Hproper) as Hlen.
  assert (1 < Length F) as Hk.
  { destruct (out_length out Hinv F HF) as [-> _].
    apply sublist_length in Hsub. destruct antecedent; [contradiction |].
    simpl in *. lia. }
  unfold itemsetSteps in Hsteps.
  destruct (Z.leb_spec (Length F) 1) as [| _]; [lia |].
  destruct (generateAllSubsets (Items F)) as [antecedents |] eqn:Hgen;
    [| discriminate].
  injection Hsteps as <-.
  pose proof (generateAllSubsets_elem_of _ _ _ Hgen Hsub Hne) as Ha.
  set (rule := {|
    Antecedent := antecedent;
    Consequent := difference (Items F) antecedent;
    RuleSupport := Support F;
    Confidence := PrimFloat.div (Support F) (candidateSupport dataset antecedent);
    Lift := PrimFloat.div
      (PrimFloat.div (Support F) (candidateSupport dataset antecedent))
      (candidateSupport dataset (difference (Items F) antecedent));
    LeverageMetric := PrimFloat.sub (Support F)
      (PrimFloat.mul (candidateSupport dataset antecedent)
         (candidateSupport dataset (difference (Items F) antecedent)));
    ConvictionMetric :=
      conviction (candidateSupport dataset (difference (Items F) antecedent))
        (PrimFloat.div (Support F) (candidateSupport dataset antecedent)) |}).
  exists rule. split; [| split; reflexivity].
  apply list_elem_of_In, in_concat.
  exists (omap emitted
            (map (ruleStep (buildItemsetMap out) minConfidence F) antecedents)).
  split; [eapply list_elem_of_In, list_elem_of_lookup_2, Hpart |].
  apply list_elem_of_In, list_elem_of_omap.
  exists (ruleStep (buildItemsetMap out) minConfidence F antecedent).
  split; [apply list_elem_of_In, in_map, list_elem_of_In, Ha |].
  unfold ruleStep.
  destruct (Nat.eqb_spec (length antecedent) 0) as [H0 | _];
    [destruct antecedent; [contradiction | discriminate] |].
  destruct (Nat.eqb_spec (length antecedent) (length (Items F))) as [H1 | _];
    [contradiction |].
  simpl.
  rewrite (output_lookup dataset minSupport maxLen out Hds Hcomma Hout F antecedent)
    by assumption.
  rewrite Hle.
  rewrite (output_lookup dataset minSupport maxLen out Hds Hcomma Hout F
             (difference (Items F) antecedent));
    [reflexivity | exact HF | apply difference_sublist |].
  apply difference_nonempty; auto.
  apply strictlySorted_NoDup, (out_canonical out Hinv F HF).
Qed.

Lemma rules_complete_witness :
  exists rule,
    rule ∈ default [] (GenerateAssociationRules exampleItemsets confidence06) /\
    Antecedent rule = ["butter"]%string /\
    Consequent rule = difference ["bread"; "butter"]%string ["butter"]%string.
Proof.
  apply (rules_complete exampleDataset 0.5%float 2 exampleItemsets confidence06
           (default [] (GenerateAssociationRules exampleItemsets confidence06))
           {| Items := ["bread"; "butter"]%string; Support := 0.5; Length := 2 |}
           ["butter"]%string).
  - exact exampleDataset_invariant.
  - intros item Hitem. simpl in Hitem.
    repeat (apply elem_of_cons in Hitem as [-> | Hitem]); [reflexivity .. |].
    inversion Hitem.
  - vm_compute. reflexivity.
  - vm_compute. reflexivity.
  - right. right. right. left.
  - simpl. apply sublist_cons. reflexivity.
  - discriminate.
  - discriminate.
  - vm_compute. reflexivity.
Defined.

(** X12.  On an output of mining for a dataset that satisfies the dataset
    invariant, no two rules have the same antecedent and the same
    consequent. *)
Theorem rules_distinct dataset minSupport maxLen out minConfidence rules :
  DatasetInvariant dataset ->
  FindFrequentItemsets dataset minSupport maxLen = Some out ->
  GenerateAssociationRules out minConfidence = Some rules ->
  NoDup ((fun rule => (Antecedent rule, Consequent rule)) <$> rules).
Proof.
  intros Hds Hout Hrules.
  pose proof (FindFrequentItemsets_invariant _ _ _ _ Hds Hout) as Hinv.
  destruct (GenerateAssociationRules_parts _ _ _ Hrules) as (parts & -> & Hall).
  assert (forall F part rule, F ∈ out ->
    option_map (omap emitted)
      (itemsetSteps (buildItemsetMap out) minConfidence F) = Some part ->
    rule ∈ part ->
    exists antecedents,
      generateAllSubsets (Items F) = Some antecedents /\
      part = omap emitted
        (map (ruleStep (buildItemsetMap out) minConfidence F) antecedents))
    as Hpart.
  { intros F part rule HF Hp Hr. unfold itemsetSteps in Hp.
    destruct (Length F <=? 1); [injection Hp as <-; inversion Hr |].
    destruct (generateAllSubsets (Items F)) as [antecedents |]; [| discriminate].
    injection Hp as <-. eauto. }
  apply (NoDup_concat_keys
           (fun rule => (Antecedent rule, Consequent rule))
           (fun F => option_map (omap emitted)
              (itemsetSteps (buildItemsetMap out) minConfidence F)) out);
    [eapply NoDup_fmap_1, (out_distinct out Hinv) | exact Hall | |].
  - intros F part HF Hp.
    destruct part as [| rule part]; [constructor |].
    destruct (Hpart F _ rule HF Hp) as (antecedents & Hgen & ->); [left |].
    apply emitted_NoDup.
    apply (generateAllSubsets_NoDup _ _ Hgen).
    apply strictlySorted_NoDup, (out_canonical out Hinv F HF).
  - intros F F' part part' rule rule' HF HF' Hp Hp' Hr Hr' [= EA EC].
    destruct (Hpart F _ rule HF Hp Hr) as (antecedents & Hgen & ->).
    destruct (Hpart F' _ rule' HF' Hp' Hr') as (antecedents' & Hgen' & ->).
    apply emitted_antecedents in Hr as [Ha Hc], Hr' as [Ha' Hc'].
    pose proof (generateAllSubsets_sublist _ _ _ Hgen Ha) as Hsub.
    pose proof (generateAllSubsets_sublist _ _ _ Hgen' Ha') as Hsub'.
    assert (Items F = Items F') as E.
    { apply strictlySorted_unique;
        [apply (out_canonical out Hinv F HF) | apply (out_canonical out Hinv F' HF') |].
      apply NoDup_Permutation;
        [apply strictlySorted_NoDup, (out_canonical out Hinv F HF)
        | apply strictlySorted_NoDup, (out_canonical out Hinv F' HF') |].
      intros x.
      rewrite (difference_same_items _ _ x Hsub),
              (difference_same_items _ _ x Hsub').
      rewrite <- Hc, <- Hc', EA, EC. reflexivity. }
    apply list_elem_of_lookup in HF as (i & Hi), HF' as (j & Hj).
    assert (i = j) as ->.
    { apply (NoDup_lookup _ i j (Items F) (out_distinct out Hinv));
        rewrite list_lookup_fmap; [by rewrite Hi | by rewrite Hj, E]. }
    congruence.
Qed.

Lemma rules_distinct_witness :
  NoDup ((fun rule => (Antecedent rule, Consequent rule)) <$>
    default [] (GenerateAssociationRules exampleItemsets confidence06)).
Proof.
  apply (rules_distinct exampleDataset 0.5%float 2 exampleItemsets confidence06).
  - exact exampleDataset_invariant.
  - vm_compute. reflexivity.
  - vm_compute. reflexivity.
Defined.

(** ** The loader *)

Section LoaderProperties.

Variable TrimSpace : string -> string.
Variable ToLower : string -> string.

Lemma addRecord_fst state i record :
  (addRecord TrimSpace state i record).1 =
    match rowOf TrimSpace record with
    | Some row => addRow state.1 row
    | None => state.1
    end.
Proof.
  unfold addRecord, rowOf.
  destruct record as [| first [| second rest]]; try reflexivity.
  destruct (String.eqb (TrimSpace first) "" || String.eqb (TrimSpace second) "");
    reflexivity.
Qed.

Lemma groupLoop_rows i records state :
  (groupLoop TrimSpace ToLower (S i) records state).1 =
    foldl addRow state.1 (omap (rowOf TrimSpace) records).
Proof.
  revert i state. induction records as [| record rest IH]; intros i state;
    [reflexivity |].
  simpl. rewrite IH, addRecord_fst.
  destruct (rowOf TrimSpace record); reflexivity.
Qed.

Lemma groupByBasket_rows records :
  (groupByBasket TrimSpace ToLower records).1 =
    foldl addRow ∅ (keptRows TrimSpace ToLower records).
Proof.
  unfold groupByBasket, keptRows.
  destruct records as [| record rest]; [reflexivity |].
  simpl groupLoop. destruct (isHeader ToLower record); simpl andb; cbv iota.
  - apply groupLoop_rows.
  - rewrite groupLoop_rows, addRecord_fst. simpl.
    destruct (rowOf TrimSpace record); reflexivity.
Qed.

Lemma addRows_lookup rows (m : gmap string (list string)) basket :
  foldl addRow m rows !! basket =
    match itemsOf rows basket with
    | [] => m !! basket
    | items => Some (default [] (m !! basket) ++ items)
    end.
Proof.
  revert m. induction rows as [| [b x] rows IH]; intros m; [reflexivity |].
  simpl foldl. rewrite IH.
  assert (addRow m (b, x) !! basket =
          if decide (b = basket) then Some (default [] (m !! b) ++ [x])
          else m !! basket) as ->.
  { unfold addRow. simpl. destruct (decide (b = basket)) as [-> | Hne];
      [apply lookup_insert_eq | by apply lookup_insert_ne]. }
  assert (itemsOf ((b, x) :: rows) basket =
          if decide (b = basket) then x :: itemsOf rows basket
          else itemsOf rows basket) as ->.
  { unfold itemsOf. rewrite filter_cons. simpl.
    destruct (decide (b = basket)); reflexivity. }
  destruct (decide (b = basket)) as [-> | Hne]; [| reflexivity].
  destruct (itemsOf rows basket) as [| y l]; [reflexivity |].
  simpl. by rewrite <- app_assoc.
Qed.

Lemma basketMap_lookup records basket items :
  (groupByBasket TrimSpace ToLower records).1 !! basket = Some items <->
  items <> [] /\ items = itemsOf (keptRows TrimSpace ToLower records) basket.
Proof.
  rewrite groupByBasket_rows, addRows_lookup, lookup_empty. simpl.
  destruct (itemsOf _ basket) as [| y l].
  - split; [discriminate | intros [H ->]; contradiction].
  - split; [intros [= <-]; split; [discriminate | reflexivity] |].
    intros [_ ->]. reflexivity.
Qed.

Lemma elem_of_itemsOf rows basket item :
  item ∈ itemsOf rows basket <-> (basket, item) ∈ rows.
Proof.
  unfold itemsOf. rewrite list_elem_of_fmap. split.
  - intros ([b x] & -> & Hin). apply list_elem_of_filter in Hin as [E Hin].
    simpl in E. by subst.
  - intros Hin. exists (basket, item). split; [reflexivity |].
    apply list_elem_of_filter. auto.
Qed.

Lemma markItems_lookup items (m : gmap string bool) x :
  markItems m items !! x = if decide (x ∈ items) then Some true else m !! x.
Proof. apply bMap_lookup. Qed.

Lemma markAll_concat (baskets : list (string * list string))
    (m : gmap string bool) :
  foldl (fun m basket => markItems m basket.2) m baskets =
    markItems m (concat baskets.*2).
Proof.
  revert m. induction baskets as [| basket baskets IH]; intros m; simpl;
    [reflexivity |].
  rewrite IH. unfold markItems. by rewrite foldl_app.
Qed.

Lemma elem_of_baskets (baskets : list (string * list string)) x :
  x ∈ concat baskets.*2 <-> exists basket, basket ∈ baskets /\ x ∈ basket.2.
Proof.
  rewrite list_elem_of_In, in_concat. split.
  - intros (l & Hl & Hx).
    apply list_elem_of_In, list_elem_of_fmap in Hl as (basket & -> & Hb).
    exists basket. split; [exact Hb | by apply list_elem_of_In].
  - intros (basket & Hb & Hx). exists basket.2.
    split; [| by apply list_elem_of_In].
    apply list_elem_of_In, list_elem_of_fmap. eauto.
Qed.

(** The keys of a map that is visited in some order. *)
Lemma rangesOver_keys {V} (m : gmap string V) entries :
  rangesOver m entries ->
  NoDup entries.*1 /\ forall k, k ∈ entries.*1 <-> is_Some (m !! k).
Proof.
  unfold rangesOver. intros Hp. split.
  - rewrite Hp. apply NoDup_fst_map_to_list.
  - intros k. rewrite Hp, list_elem_of_fmap. split.
    + intros ([k' v] & -> & Hin). apply elem_of_map_to_list in Hin. eauto.
    + intros [v Hv]. exists (k, v). split; [reflexivity |].
      by apply elem_of_map_to_list.
Qed.

Lemma transaction_items (items : list string) entries :
  rangesOver (markItems ∅ items) entries ->
  NoDup entries.*1 /\ forall x, x ∈ entries.*1 <-> x ∈ items.
Proof.
  intros Hr. apply rangesOver_keys in Hr as [Hnd Hkeys].
  split; [exact Hnd |]. intros x. rewrite Hkeys, markItems_lookup, lookup_empty.
  destruct (decide (x ∈ items)) as [H | H]; split; intros H'.
  - exact H.
  - eauto.
  - destruct H' as [v Hv]. discriminate.
  - contradiction.
Qed.

(** What every run of the loader returns, in terms of the baskets of
    [basketMap] in the order in which the run visited them. *)
Lemma LoadFromCSV_spec records dataset :
  LoadFromCSV TrimSpace ToLower records dataset ->
  exists baskets : list (string * list string),
    NoDup baskets.*1 /\
    (forall basket items, (basket, items) ∈ baskets <->
       items <> [] /\ items = itemsOf (keptRows TrimSpace ToLower records) basket) /\
    Forall2 (fun basket transaction =>
      NoDup transaction /\ forall x, x ∈ transaction <-> x ∈ basket.2)
      baskets (Transactions dataset) /\
    strictlySorted (UniqueItems dataset) /\
    (forall x, x ∈ UniqueItems dataset <->
       exists basket, basket ∈ baskets /\ x ∈ basket.2) /\
    (forall x, ItemsMap dataset !! x =
       if decide (x ∈ UniqueItems dataset) then Some true else None).
Proof.
  intros (baskets & universe & Hb & Ht & Hm & Hu & Hs).
  exists baskets.
  assert (forall x, ItemsMap dataset !! x =
            if decide (x ∈ concat baskets.*2) then Some true else None) as Hmap.
  { intros x. rewrite Hm, markAll_concat, markItems_lookup, lookup_empty.
    reflexivity. }
  apply rangesOver_keys in Hu as [Hund Hukeys].
  assert (forall x, x ∈ UniqueItems dataset <-> x ∈ concat baskets.*2) as Huniv.
  { intros x. rewrite Hs, sortStrings_Permutation, Hukeys, Hmap.
    destruct (decide (x ∈ concat baskets.*2)) as [H | H]; split; intros H'.
    - exact H.
    - eauto.
    - destruct H' as [v Hv]. discriminate.
    - contradiction. }
  split; [| split; [| split; [| split; [| split]]]].
  - unfold rangesOver in Hb. rewrite Hb. apply NoDup_fst_map_to_list.
  - intros basket items. unfold rangesOver in Hb.
    rewrite Hb, elem_of_map_to_list. apply basketMap_lookup.
  - eapply Forall2_impl; [exact Ht |]. simpl.
    intros basket transaction (entries & He & ->).
    by apply transaction_items.
  - rewrite Hs. by apply sortStrings_strict.
  - intros x. rewrite Huniv. apply elem_of_baskets.
  - intros x. rewrite Hmap.
    destruct (decide (x ∈ concat baskets.*2)) as [H | H].
    + rewrite decide_True by (by apply Huniv). reflexivity.
    + rewrite decide_False by (by rewrite Huniv). reflexivity.
Qed.

(** The loader has a run on every list of records. *)
Lemma loadInMapOrder_loads records :
  LoadFromCSV TrimSpace ToLower records (loadInMapOrder TrimSpace ToLower records).
Proof.
  unfold LoadFromCSV, rangesOver.
  exists (map_to_list (groupByBasket TrimSpace ToLower records).1).
  exists (map_to_list (ItemsMap (loadInMapOrder TrimSpace ToLower records))).
  split; [reflexivity |]. split; [| split; [reflexivity | split; reflexivity]].
  simpl. apply Forall2_fmap_r, Forall_Forall2_diag, Forall_forall.
  intros basket _. simpl. eexists. split; reflexivity.
Qed.

End LoaderProperties.


(** X13.  Every dataset that the loader returns satisfies the dataset
    invariant that mining relies on: the universe is strictly sorted and
    holds exactly the items of the transactions.  No transaction is empty
    or holds an item twice, and [ItemsMap] maps exactly the items of the
    universe to [true]. *)
Theorem loaded_dataset_invariant TrimSpace ToLower records dataset :
  LoadFromCSV TrimSpace ToLower records dataset ->
  DatasetInvariant dataset /\
  (forall transaction, transaction ∈ Transactions dataset ->
     NoDup transaction /\ transaction <> []) /\
  (forall item, item ∈ UniqueItems dataset <->
     exists transaction, transaction ∈ Transactions dataset /\ item ∈ transaction) /\
  (forall item, ItemsMap dataset !! item = Some true <-> item ∈ UniqueItems dataset).
Proof.
  intros Hload.
  destruct (LoadFromCSV_spec _ _ _ _ Hload)
    as (baskets & Hnd & Hb & Ht & Hs & Hu & Hm).
  assert (forall item, item ∈ UniqueItems dataset <->
     exists transaction, transaction ∈ Transactions dataset /\ item ∈ transaction)
    as Huniv.
  { intros item. rewrite Hu. split.
    - intros (basket & Hin & Hx).
      apply list_elem_of_lookup in Hin as (i & Hi).
      destruct (Forall2_lookup_l _ _ _ _ _ Ht Hi) as (t & Hti & _ & Hsame).
      exists t. split; [eapply list_elem_of_lookup_2, Hti | by apply Hsame].
    - intros (t & Hin & Hx).
      apply list_elem_of_lookup in Hin as (i & Hi).
      destruct (Forall2_lookup_r _ _ _ _ _ Ht Hi) as (basket & Hbi & _ & Hsame).
      exists basket. split; [eapply list_elem_of_lookup_2, Hbi | by apply Hsame]. }
  split; [| split; [| split]].
  - split; [exact Hs |]. intros t item Hin Hx. apply Huniv. eauto.
  - intros t Hin.
    apply list_elem_of_lookup in Hin as (i & Hi).
    destruct (Forall2_lookup_r _ _ _ _ _ Ht Hi) as ([b items] & Hbi & Hndt & Hsame).
    split; [exact Hndt |].
    apply list_elem_of_lookup_2, Hb in Hbi as [Hne _]. simpl in Hsame.
    intros ->. destruct items as [| y l]; [contradiction |].
    specialize (Hsame y). rewrite elem_of_nil in Hsame.
    apply Hsame. left.
  - exact Huniv.
  - intros item. rewrite Hm.
    destruct (decide (item ∈ UniqueItems dataset)) as [H | H]; split; intros H';
      [exact H | reflexivity | discriminate | contradiction].
Qed.

Lemma loaded_dataset_invariant_witness :
  let records :=
    [ ["basket"; "item"]; ["1"; "milk"]; ["1"; "bread"]; ["2"; "milk"];
      ["3"]; ["1"; "milk"] ]%string in
  let dataset := loadInMapOrder id id records in
  DatasetInvariant dataset /\
  (forall transaction, transaction ∈ Transactions dataset ->
     NoDup transaction /\ transaction <> []) /\
  (forall item, item ∈ UniqueItems dataset <->
     exists transaction, transaction ∈ Transactions dataset /\ item ∈ transaction) /\
  (forall item, ItemsMap dataset !! item = Some true <-> item ∈ UniqueItems dataset).
Proof.
  intros records dataset.
  apply (loaded_dataset_invariant id id records dataset).
  apply loadInMapOrder_loads.
Defined.

(** X14.  The transactions that the loader returns are the baskets of
    the file: one transaction for each basket that occurs in a kept row, in
    an order that depends on the run, each holding exactly the items of the
    kept rows of its basket, once each. *)
Theorem loaded_transactions TrimSpace ToLower records dataset :
  LoadFromCSV TrimSpace ToLower records dataset ->
  exists baskets : list string,
    NoDup baskets /\
    (forall basket, basket ∈ baskets <->
       exists item, (basket, item) ∈ keptRows TrimSpace ToLower records) /\
    Forall2 (fun basket transaction =>
      NoDup transaction /\
      forall item, item ∈ transaction <->
        (basket, item) ∈ keptRows TrimSpace ToLower records)
      baskets (Transactions dataset).
Proof.
  intros Hload.
  destruct (LoadFromCSV_spec _ _ _ _ Hload)
    as (baskets & Hnd & Hb & Ht & _).
  exists baskets.*1. split; [exact Hnd |]. split.
  - intros basket. rewrite list_elem_of_fmap. split.
    + intros ([b items] & -> & Hin). apply Hb in Hin as [Hne ->]. simpl.
      destruct (itemsOf _ b) as [| item l] eqn:E; [contradiction |].
      exists item. apply elem_of_itemsOf. rewrite E. left.
    + intros (item & Hin).
      exists (basket, itemsOf (keptRows TrimSpace ToLower records) basket).
      split; [reflexivity |]. apply Hb. split; [| reflexivity].
      apply elem_of_itemsOf in Hin. intros E. rewrite E in Hin. inversion Hin.
  - apply Forall2_fmap_l, Forall2_same_length_lookup.
    split; [by eapply Forall2_length |].
    intros i [b items] t Hi Hti. simpl.
    destruct (Forall2_lookup_lr _ _ _ _ _ _ Ht Hi Hti) as [Hndt Hsame].
    split; [exact Hndt |]. intros item. rewrite Hsame. simpl.
    apply list_elem_of_lookup_2, Hb in Hi as [_ ->].
    apply elem_of_itemsOf.
Qed.

Lemma loaded_transactions_witness :
  let records :=
    [ ["basket"; "item"]; ["1"; "milk"]; ["1"; "bread"]; ["2"; "milk"];
      ["3"]; ["1"; "milk"] ]%string in
  let dataset := loadInMapOrder id id records in
  exists baskets : list string,
    NoDup baskets /\
    (forall basket, basket ∈ baskets <->
       exists item, (basket, item) ∈ keptRows id id records) /\
    Forall2 (fun basket transaction =>
      NoDup transaction /\
      forall item, item ∈ transaction <-> (basket, item) ∈ keptRows id id records)
      baskets (Transactions dataset).
Proof.
  intros records dataset.
  apply (loaded_transactions id id records dataset).
  apply loadInMapOrder_loads.
Defined.

(** X15.  A file without a kept row (empty, or a header only, or short
    and blank rows only) loads as the dataset without transactions and
    without items, on which mining returns no itemset for every threshold
    and every length. *)
Theorem load_no_data TrimSpace ToLower records dataset minSupport maxLen :
  LoadFromCSV TrimSpace ToLower records dataset ->
  keptRows TrimSpace ToLower records = [] ->
  Transactions dataset = [] /\ UniqueItems dataset = [] /\
  ItemsMap dataset = ∅ /\
  FindFrequentItemsets dataset minSupport maxLen = Some [].
Proof.
  intros Hload Hnone.
  destruct (LoadFromCSV_spec _ _ _ _ Hload)
    as (baskets & Hnd & Hb & Ht & Hs & Hu & Hm).
  assert (baskets = []) as ->.
  { destruct baskets as [| [b items] baskets]; [reflexivity |]. exfalso.
    destruct (proj1 (Hb b items) ltac:(left)) as [Hne E].
    rewrite Hnone in E. by subst. }
  apply Forall2_nil_inv_l in Ht.
  assert (UniqueItems dataset = []) as HU.
  { destruct (UniqueItems dataset) as [| x l]; [reflexivity |]. exfalso.
    destruct (proj1 (Hu x) ltac:(left)) as (basket & Hin & _). inversion Hin. }
  split; [exact Ht |]. split; [exact HU |]. split.
  - apply map_eq. intros x. rewrite Hm, HU, lookup_empty.
    rewrite decide_False; [reflexivity | apply not_elem_of_nil].
  - unfold FindFrequentItemsets, frequentItems. rewrite HU. simpl.
    destruct (Z.to_nat (maxLen - 1)); reflexivity.
Qed.

Lemma load_no_data_witness :
  let records := [ ["basket"; "item"]; ["3"]; [" "; ""] ]%string in
  let dataset := loadInMapOrder id id records in
  Transactions dataset = [] /\ UniqueItems dataset = [] /\
  ItemsMap dataset = ∅ /\
  FindFrequentItemsets dataset 0.5%float 3 = Some [].
Proof.
  intros records dataset.
  apply (load_no_data id id records dataset 0.5%float 3).
  - apply loadInMapOrder_loads.
  - reflexivity.
Defined.

(** ** The commands *)

Lemma lengthCounts_lookup (itemsets : list FrequentItemset) (m : gmap Z Z) k :
  foldl (fun lengths itemset =>
    <[Length itemset := default 0 (lengths !! Length itemset) + 1]> lengths)
    m itemsets !! k =
  match length (filter (fun F => Length F = k) itemsets) with
  | O => m !! k
  | S n => Some (default 0 (m !! k) + Z.of_nat (S n))
  end.
Proof.
  revert m. induction itemsets as [| F itemsets IH]; intros m; [reflexivity |].
  simpl foldl. rewrite IH, filter_cons.
  destruct (decide (Length F = k)) as [<- | Hne].
  - rewrite lookup_insert_eq. simpl.
    destruct (length (filter _ itemsets)); f_equal; lia.
  - rewrite lookup_insert_ne by exact Hne. reflexivity.
Qed.

(** X16.  The table of lengths that the command prints: the entry of a
    length is the number of itemsets with that [Length], and a length that
    no itemset has is not a key. *)
Theorem length_counts frequentItemsets k :
  lengthCounts frequentItemsets !! k =
    let count := length (filter (fun F => Length F = k) frequentItemsets) in
    if decide (count = 0%nat) then None else Some (Z.of_nat count).
Proof.
  unfold lengthCounts. rewrite lengthCounts_lookup, lookup_empty. simpl.
  destruct (length (filter _ frequentItemsets)); [reflexivity |].
  rewrite decide_False by discriminate. f_equal.
Qed.

Section LoadResultsProperties.

Variable strconvError : Type.
Variable ParseFloat : string -> strconvError + float.
Variable Atoi : string -> strconvError + Z.
Variable ParseInt : string -> strconvError + Z.

Lemma parseRecord_line i record e :
  parseRecord strconvError ParseFloat Atoi ParseInt i record = inl e ->
  errorLine strconvError e = Some (Z.of_nat i + 2).
Proof.
  unfold parseRecord, parsed.
  repeat (destruct record as [| ? record]; [by intros [= <-] |]).
  repeat match goal with
  | |- context [match ?p with inl _ => _ | inr _ => _ end] =>
      destruct p; [by intros [= <-] |]
  end.
  discriminate.
Qed.

Lemma parseLoop_spec i records results :
  match parseLoop strconvError ParseFloat Atoi ParseInt i records results with
  | inr out =>
      exists parsed, out = results ++ parsed /\
        Forall2 (fun record result => exists k,
          parseRecord strconvError ParseFloat Atoi ParseInt k record = inr result)
          records parsed /\
        forall k record, records !! k = Some record ->
          exists result, parsed !! k = Some result /\
            parseRecord strconvError ParseFloat Atoi ParseInt (i + k) record
              = inr result
  | inl e =>
      exists k record, records !! k = Some record /\
        parseRecord strconvError ParseFloat Atoi ParseInt (i + k) record = inl e /\
        forall k' record', (k' < k)%nat -> records !! k' = Some record' ->
          exists result,
            parseRecord strconvError ParseFloat Atoi ParseInt (i + k') record'
              = inr result
  end.
Proof.
  revert i results. induction records as [| record rest IH]; intros i results.
  - simpl. exists []. split; [by rewrite app_nil_r |]. split; [constructor |].
    intros k record Hk. inversion Hk.
  - simpl.
    destruct (parseRecord strconvError ParseFloat Atoi ParseInt i record)
      as [e | result] eqn:Hp.
    + exists 0%nat, record. split; [reflexivity |].
      split; [by rewrite Nat.add_0_r |]. intros k' record' Hk'. lia.
    + specialize (IH (S i) (results ++ [result])).
      destruct (parseLoop _ _ _ _ (S i) rest (results ++ [result])) as [e | out].
      * destruct IH as (k & record' & Hk & He & Hbefore).
        exists (S k), record'. split; [exact Hk |].
        split; [by rewrite Nat.add_succ_r |].
        intros [| k'] record'' Hlt Hk'.
        -- simpl in Hk'. injection Hk' as <-. rewrite Nat.add_0_r. eauto.
        -- rewrite Nat.add_succ_r. apply (Hbefore k' record''); [lia | exact Hk'].
      * destruct IH as (parsed & -> & Hall & Hk).
        exists (result :: parsed). split; [by rewrite <- app_assoc |].
        split; [constructor; eauto |].
        intros [| k] record' Hk'.
        -- simpl in Hk'. injection Hk' as <-. rewrite Nat.add_0_r. eauto.
        -- rewrite Nat.add_succ_r. apply (Hk k record' Hk').
Qed.

End LoadResultsProperties.

(** X17.  [loadBenchmarkResults] on the records of the file.  With fewer
    than two records the error is that there is no data.  Otherwise the
    first record is dropped unread, and either every other record parses
    and the results are their values in the order of the file, or the error
    is that of the first record that does not parse, and the line it names
    is the position of that record in the file, the header being line 1. *)
Theorem load_results strconvError ParseFloat Atoi ParseInt records :
  match loadBenchmarkResults strconvError ParseFloat Atoi ParseInt records with
  | inr results =>
      (2 <= length records)%nat /\
      length results = (length records - 1)%nat /\
      forall i record, records !! S i = Some record ->
        exists result, results !! i = Some result /\
          parseRecord strconvError ParseFloat Atoi ParseInt i record = inr result
  | inl e =>
      ((length records < 2)%nat /\ e = NoData strconvError) \/
      exists i record,
        (2 <= length records)%nat /\
        records !! S i = Some record /\
        parseRecord strconvError ParseFloat Atoi ParseInt i record = inl e /\
        errorLine strconvError e = Some (Z.of_nat i + 2) /\
        forall i' record', (i' < i)%nat -> records !! S i' = Some record' ->
          exists result,
            parseRecord strconvError ParseFloat Atoi ParseInt i' record'
              = inr result
  end.
Proof.
  unfold loadBenchmarkResults.
  destruct (Nat.ltb_spec (length records) 2) as [Hlt | Hge]; [by left |].
  pose proof (parseLoop_spec strconvError ParseFloat Atoi ParseInt 0
                (drop 1 records) []) as Hspec.
  destruct (parseLoop _ _ _ _ 0 (drop 1 records) []) as [e | results].
  - right. destruct Hspec as (k & record & Hk & He & Hbefore).
    rewrite lookup_drop in Hk. simpl in He.
    exists k, record. split; [exact Hge |]. split; [exact Hk |].
    split; [exact He |]. split; [by apply parseRecord_line in He |].
    intros i' record' Hlt Hi'. apply (Hbefore i' record' Hlt).
    by rewrite lookup_drop.
  - destruct Hspec as (parsed & -> & Hall & Hk). simpl.
    split; [exact Hge |]. split.
    + apply Forall2_length in Hall. rewrite <- Hall, length_drop. reflexivity.
    + intros i record Hi. apply (Hk i record). by rewrite lookup_drop.
Qed.

Section ExchangeSort.

Variable gt : Result -> Result -> bool.

(** The elements on which the test is an order: all of them for a test on
    integers, the ones whose key is a number for a test on floats. *)
Variable valid : Result -> Prop.

Hypothesis gt_trans : forall a b c, valid a -> valid b -> valid c ->
  notGreater gt a b -> notGreater gt b c -> notGreater gt a c.
Hypothesis gt_total : forall a b, valid a -> valid b ->
  gt a b = true -> notGreater gt b a.

Lemma swap_Permutation (l : list Result) i j ri rj :
  (i < j)%nat -> l !! i = Some ri -> l !! j = Some rj ->
  <[j := ri]> (<[i := rj]> l) ≡ₚ l /\
  take i (<[j := ri]> (<[i := rj]> l)) = take i l /\
  drop i (<[j := ri]> (<[i := rj]> l)) ≡ₚ drop i l.
Proof.
  intros Hij Hi Hj.
  pose proof (lookup_lt_Some _ _ _ Hi) as Hil.
  pose proof (lookup_lt_Some _ _ _ Hj) as Hjl.
  set (m := drop (S i) l).
  assert (l = take i l ++ ri :: m) as El
    by (symmetry; apply take_drop_middle, Hi).
  assert (m !! (j - S i)%nat = Some rj) as Hm.
  { unfold m. rewrite lookup_drop. rewrite <- Hj. f_equal. lia. }
  assert (m = take (j - S i) m ++ rj :: drop (S (j - S i)) m) as Em
    by (symmetry; apply take_drop_middle, Hm).
  assert (length (take i l) = i) as Hti by (rewrite length_take; lia).
  assert (<[j := ri]> (<[i := rj]> l) =
          take i l ++ rj :: (take (j - S i) m ++ ri :: drop (S (j - S i)) m)) as E.
  { rewrite El at 1.
    replace i with (length (take i l) + 0)%nat at 1 by lia.
    rewrite insert_app_r. simpl.
    replace j with (length (take i l) + S (j - S i))%nat at 1 by lia.
    rewrite insert_app_r. simpl. do 2 f_equal.
    rewrite Em at 1.
    replace (j - S i)%nat with (length (take (j - S i) m) + 0)%nat at 1.
    - rewrite insert_app_r. reflexivity.
    - rewrite length_take. apply lookup_lt_Some in Hm. lia. }
  assert (rj :: take (j - S i) m ++ ri :: drop (S (j - S i)) m ≡ₚ ri :: m) as Hp.
  { rewrite Em at 3. rewrite <- !Permutation_middle. apply perm_swap. }
  split; [| split].
  - rewrite E. etransitivity; [apply Permutation_app_head, Hp |].
    by rewrite <- El.
  - rewrite E. by rewrite take_app_length'.
  - rewrite E. rewrite drop_app_length' by (by symmetry).
    etransitivity; [exact Hp |].
    rewrite El at 1. by rewrite drop_app_length'.
Qed.

Lemma exchangeInner_spec i n j (l : list Result) :
  Forall valid l ->
  (i < j)%nat -> (j + n = length l)%nat ->
  (forall j' x y, (i < j' < j)%nat ->
     l !! i = Some x -> l !! j' = Some y -> notGreater gt x y) ->
  exists l', exchangeInner gt i j n l = Some l' /\ Forall valid l' /\
    length l' = length l /\ take i l' = take i l /\
    drop i l' ≡ₚ drop i l /\
    (forall j' x y, (i < j')%nat ->
       l' !! i = Some x -> l' !! j' = Some y -> notGreater gt x y).
Proof.
  revert j l. induction n as [| n IH]; intros j l Hvalid Hij Hlen Hmin; simpl.
  - exists l. repeat split; auto.
    intros j' x y Hj' Hx Hy. apply (Hmin j' x y); auto.
    apply lookup_lt_Some in Hy. lia.
  - destruct (lookup_lt_is_Some_2 l i) as [ri Hi]; [lia |].
    destruct (lookup_lt_is_Some_2 l j) as [rj Hj]; [lia |].
    pose proof (Forall_lookup_1 _ _ _ _ Hvalid Hi) as Hvi.
    pose proof (Forall_lookup_1 _ _ _ _ Hvalid Hj) as Hvj.
    unfold swapIfGreater. rewrite Hi, Hj. simpl.
    destruct (gt ri rj) eqn:Hgt.
    + destruct (swap_Permutation l i j ri rj Hij Hi Hj) as (_ & Htake & Hdrop).
      set (l1 := <[j := ri]> (<[i := rj]> l)) in *.
      assert (length l1 = length l) as Hl1
        by (unfold l1; by rewrite !length_insert).
      assert (l1 !! i = Some rj) as Hi1.
      { unfold l1. rewrite list_lookup_insert_ne by lia.
        apply list_lookup_insert_eq. lia. }
      assert (Forall valid l1) as Hvalid1
        by (unfold l1; by repeat apply Forall_insert).
      destruct (IH (S j) l1) as (l' & Hrun & Hv' & Hl' & Ht' & Hd' & Hmin');
        [exact Hvalid1 | lia | lia | |].
      * intros j' x y Hj' Hx Hy. rewrite Hi1 in Hx. injection Hx as <-.
        destruct (Nat.eq_dec j' j) as [-> | Hne].
        -- unfold l1 in Hy. rewrite list_lookup_insert_eq in Hy
             by (rewrite length_insert; lia).
           injection Hy as <-. by apply gt_total.
        -- unfold l1 in Hy. rewrite !list_lookup_insert_ne in Hy by lia.
           pose proof (Forall_lookup_1 _ _ _ _ Hvalid Hy) as Hvy.
           apply (gt_trans _ ri);
             [exact Hvj | exact Hvi | exact Hvy | by apply gt_total |].
           apply (Hmin j' ri y); auto. lia.
      * exists l'. split; [exact Hrun |]. split; [exact Hv' |]. split; [lia |].
        split; [congruence |]. split; [by rewrite Hd' | exact Hmin'].
    + destruct (IH (S j) l) as (l' & Hrun & Hv' & Hl' & Ht' & Hd' & Hmin');
        [exact Hvalid | lia | lia | |].
      * intros j' x y Hj' Hx Hy.
        destruct (Nat.eq_dec j' j) as [-> | Hne].
        -- rewrite Hi in Hx. rewrite Hj in Hy. injection Hx as <-.
           injection Hy as <-. exact Hgt.
        -- apply (Hmin j' x y); auto. lia.
      * exists l'. split; [exact Hrun |]. split; [exact Hv' |].
        split; [exact Hl' |]. split; [exact Ht' |].
        split; [exact Hd' | exact Hmin'].
Qed.

Lemma exchangeOuter_spec n i (l : list Result) :
  Forall valid l ->
  (i + n = length l)%nat ->
  StronglySorted (notGreater gt) (take i l) ->
  (forall x y, x ∈ take i l -> y ∈ drop i l -> notGreater gt x y) ->
  exists l', exchangeOuter gt i n l = Some l' /\ l' ≡ₚ l /\
    StronglySorted (notGreater gt) l'.
Proof.
  revert i l.
  induction n as [| n IH]; intros i l Hvalid Hlen Hsorted Hsplit; simpl.
  - exists l. split; [reflexivity |]. split; [reflexivity |].
    rewrite take_ge in Hsorted by lia. exact Hsorted.
  - destruct (exchangeInner_spec i (length l - S i) (S i) l)
      as (l1 & Hrun & Hv1 & Hl1 & Ht1 & Hd1 & Hmin);
      [exact Hvalid | lia | lia | intros; lia |].
    rewrite Hrun. simpl.
    destruct (lookup_lt_is_Some_2 l1 i) as [x Hx]; [lia |].
    assert (forall y, y ∈ drop i l1 <-> y ∈ drop i l) as Hsame
      by (intros y; by rewrite Hd1).
    assert (drop i l1 = x :: drop (S i) l1) as Edrop
      by (by apply drop_S).
    destruct (IH (S i) l1) as (l' & Hrun' & Hp' & Hs');
      [exact Hv1 | lia | | |].
    + rewrite (take_S_r l1 i x Hx), Ht1.
      apply StronglySorted_app_2; [| exact Hsorted | repeat constructor].
      intros a b Ha Hb. apply list_elem_of_singleton in Hb as ->.
      apply Hsplit; [exact Ha |]. apply Hsame. rewrite Edrop. left.
    + intros a b Ha Hb. rewrite (take_S_r l1 i x Hx), Ht1 in Ha.
      apply elem_of_app in Ha as [Ha | Ha].
      * apply Hsplit; [exact Ha |]. apply Hsame. rewrite Edrop. by right.
      * apply list_elem_of_singleton in Ha as ->.
        apply list_elem_of_lookup in Hb as (k & Hk).
        rewrite lookup_drop in Hk.
        apply (Hmin (S i + k)%nat x b); auto. lia.
    + exists l'. split; [exact Hrun' |]. split; [| exact Hs'].
      rewrite Hp'.
      transitivity (take i l1 ++ drop i l1); [by rewrite take_drop |].
      transitivity (take i l ++ drop i l); [| by rewrite take_drop].
      rewrite Ht1. by apply Permutation_app_head.
Qed.

(** The sort returns a sorted rearrangement of the slice. *)
Lemma exchangeSort_spec (l : list Result) :
  Forall valid l ->
  exists l', exchangeSort gt l = Some l' /\ l' ≡ₚ l /\
    StronglySorted (notGreater gt) l'.
Proof.
  intros Hvalid.
  apply exchangeOuter_spec; [exact Hvalid | reflexivity | constructor |].
  intros x y Hx. inversion Hx.
Qed.

End ExchangeSort.

Lemma mapM_lookup_seq {A} (l : list A) k n :
  (k + n <= length l)%nat ->
  mapM (fun i => l !! i) (seq k n) = Some (take n (drop k l)).
Proof.
  revert k. induction n as [| n IH]; intros k Hle; [reflexivity |].
  destruct (lookup_lt_is_Some_2 l k) as [x Hx]; [lia |].
  simpl. rewrite Hx. simpl. rewrite IH by lia. simpl.
  by rewrite (drop_S l x k Hx).
Qed.

Lemma StronglySorted_weaken {A} (R R' : A -> A -> Prop) (l : list A) :
  (forall x y, R x y -> R' x y) -> StronglySorted R l -> StronglySorted R' l.
Proof.
  intros HR. induction 1 as [| x l Hl IH Hx]; constructor; [exact IH |].
  eapply Forall_impl; [exact Hx | apply HR].
Qed.

(** X18.  The table of the fastest configurations.  The exchange sort
    returns for every slice (it never indexes out of range), its result is
    a rearrangement of the slice in non-decreasing order of [TotalTime],
    and the rows printed are its first five elements, or all of them when
    there are fewer. *)
Theorem fastest_configurations results :
  exists sorted rows,
    exchangeSort slower results = Some sorted /\
    sorted ≡ₚ results /\
    StronglySorted (fun a b => TotalTime a <= TotalTime b) sorted /\
    fastestConfigurations results = Some rows /\
    rows = take 5 sorted.
Proof.
  destruct (exchangeSort_spec slower (fun _ => True)) with (l := results)
    as (sorted & Hrun & Hp & Hs).
  - unfold notGreater, slower. intros a b c _ _ _ H1 H2.
    apply Z.ltb_ge in H1, H2. apply Z.ltb_ge. lia.
  - unfold notGreater, slower. intros a b _ _ H.
    apply Z.ltb_lt in H. apply Z.ltb_ge. lia.
  - by apply Forall_true.
  - exists sorted, (take 5 sorted). split; [exact Hrun |]. split; [exact Hp |].
    split; [| split; [| reflexivity]].
    + eapply StronglySorted_weaken; [| exact Hs].
      unfold notGreater, slower. intros a b H. by apply Z.ltb_ge in H.
    + unfold fastestConfigurations. rewrite Hrun. simpl.
      destruct (Nat.ltb_spec (length sorted) 5) as [Hlt | Hge].
      * rewrite mapM_lookup_seq by lia. rewrite drop_0.
        by rewrite !take_ge by lia.
      * rewrite mapM_lookup_seq by lia. by rewrite drop_0.
Qed.

(** ** The order of binary64 and the rounding of a quotient *)

Section FloatOrder.

Lemma compare_cont_Eq m1 m2 : Pos.compare_cont Eq m1 m2 = (m1 ?= m2)%positive.
Proof. reflexivity. Qed.

Ltac order_cases :=
  repeat match goal with
  | H : context [PosDef.Pos.compare_cont Eq ?a ?b] |- _ =>
      change (PosDef.Pos.compare_cont Eq a b) with (Pos.compare a b) in H
  | |- context [PosDef.Pos.compare_cont Eq ?a ?b] =>
      change (PosDef.Pos.compare_cont Eq a b) with (Pos.compare a b)
  end;
  repeat match goal with
  | H : context [Z.compare ?a ?b] |- _ =>
      destruct (Z.compare_spec a b); simpl in H; try discriminate
  | |- context [Z.compare ?a ?b] =>
      destruct (Z.compare_spec a b); simpl; try reflexivity
  | H : context [Pos.compare ?a ?b] |- _ =>
      destruct (Pos.compare_spec a b); simpl in H; try discriminate
  | |- context [Pos.compare ?a ?b] =>
      destruct (Pos.compare_spec a b); simpl; try reflexivity
  end; try lia.

Lemma SFleb_trans a b c :
  SFleb a b = true -> SFleb b c = true -> SFleb a c = true.
Proof.
  unfold SFleb, SFcompare.
  destruct a as [[] | [] | | [] ma ea], b as [[] | [] | | [] mb eb],
    c as [[] | [] | | [] mc ec]; simpl; try discriminate; try reflexivity;
    rewrite ?compare_cont_Eq; intros H1 H2; order_cases.
Qed.

Lemma SFltb_leb_trans a b c :
  SFltb a b = true -> SFleb b c = true -> SFltb a c = true.
Proof.
  unfold SFltb, SFleb, SFcompare.
  destruct a as [[] | [] | | [] ma ea], b as [[] | [] | | [] mb eb],
    c as [[] | [] | | [] mc ec]; simpl; try discriminate; try reflexivity;
    rewrite ?compare_cont_Eq; intros H1 H2; order_cases.
Qed.

(** Two numbers are comparable: when the first is not below the second,
    the second is at most the first. *)
Lemma SFltb_false_leb a b :
  a <> S754_nan -> b <> S754_nan -> SFltb a b = false -> SFleb b a = true.
Proof.
  unfold SFltb, SFleb, SFcompare.
  destruct a as [[] | [] | | [] ma ea], b as [[] | [] | | [] mb eb];
    simpl; try discriminate; try reflexivity; try congruence;
    rewrite ?compare_cont_Eq; intros _ _ H1; order_cases.
Qed.

Lemma SFleb_not_ltb a b : SFleb a b = true -> SFltb b a = false.
Proof.
  unfold SFltb, SFleb, SFcompare.
  destruct a as [[] | [] | | [] ma ea], b as [[] | [] | | [] mb eb];
    simpl; try discriminate; try reflexivity;
    rewrite ?compare_cont_Eq; intros H1; order_cases.
Qed.

Lemma SFltb_leb a b : SFltb a b = true -> SFleb a b = true.
Proof.
  unfold SFltb, SFleb. destruct (SFcompare a b) as [[] |]; congruence.
Qed.

Lemma SFleb_refl a : a <> S754_nan -> SFleb a a = true.
Proof.
  unfold SFleb, SFcompare.
  destruct a as [[] | [] | | [] ma ea]; simpl; try reflexivity; try congruence;
    rewrite ?compare_cont_Eq; intros _; order_cases.
Qed.

End FloatOrder.

Section Rounding.

Lemma new_location_compare b r :
  0 < b -> 0 <= r < b ->
  new_location b r =
    if r =? 0 then loc_Exact else loc_Inexact (2 * r ?= b).
Proof.
  intros Hb Hr. unfold new_location, new_location_even, new_location_odd.
  change (Z.eqb r Z0) with (r =? 0).
  change (Z.mul (Zpos 2) r) with (2 * r).
  change (Z.add (2 * r) (Zpos 1)) with (2 * r + 1).
  destruct (Z.even b) eqn:Heven; [reflexivity |].
  destruct (r =? 0); [reflexivity |]. f_equal.
  assert (Z.odd b = true) as Hodd by (rewrite <- Z.negb_even, Heven; reflexivity).
  apply Z.odd_spec in Hodd as [k Hk].
  destruct (Z.compare_spec (2 * r + 1) b), (Z.compare_spec (2 * r) b);
    try reflexivity; lia.
Qed.

Lemma division_position a b :
  0 <= a -> 0 < b ->
  4 * (a / b) + locationCode (new_location b (a mod b)) = gridPosition a b.
Proof.
  intros Ha Hb. unfold gridPosition.
  pose proof (Z.mod_pos_bound a b Hb) as Hr.
  pose proof (Z.div_mod a b ltac:(lia)) as Hdiv.
  rewrite new_location_compare by assumption.
  set (q := a / b) in *. set (r := a mod b) in *.
  destruct (Z.compare_spec (2 * r) b) as [E | E | E].
  - assert (2 * a = b * (2 * q + 1) + 0) as E2 by lia.
    replace (2 * a / b) with (2 * q + 1) by (apply Z.div_unique with (0); lia).
    replace ((2 * a) mod b) with (0) by (apply Z.mod_unique with (2 * q + 1); lia).
    destruct (Z.eqb_spec r 0); simpl; lia.
  - replace (2 * a / b) with (2 * q) by (apply Z.div_unique with (2 * r); lia).
    replace ((2 * a) mod b) with (2 * r) by (apply Z.mod_unique with (2 * q); lia).
    destruct (Z.eqb_spec r 0), (Z.eqb_spec (2 * r) 0); simpl; lia.
  - replace (2 * a / b) with (2 * q + 1) by (apply Z.div_unique with (2 * r - b); lia).
    replace ((2 * a) mod b) with (2 * r - b)
      by (apply Z.mod_unique with (2 * q + 1); lia).
    destruct (Z.eqb_spec r 0), (Z.eqb_spec (2 * r - b) 0); simpl; lia.
Qed.

Lemma gridPosition_mono a b a' b' :
  0 <= a -> 0 < b -> 0 <= a' -> 0 < b' -> a * b' <= a' * b ->
  gridPosition a b <= gridPosition a' b'.
Proof.
  intros Ha Hb Ha' Hb' Hle. unfold gridPosition.
  pose proof (Z.div_mod (2 * a) b ltac:(lia)) as E.
  pose proof (Z.div_mod (2 * a') b' ltac:(lia)) as E'.
  pose proof (Z.mod_pos_bound (2 * a) b Hb) as Hr.
  pose proof (Z.mod_pos_bound (2 * a') b' Hb') as Hr'.
  set (K := 2 * a / b) in *. set (r := (2 * a) mod b) in *.
  set (K' := 2 * a' / b') in *. set (r' := (2 * a') mod b') in *.
  assert (K <= K') as HK.
  { destruct (Z.le_gt_cases K K') as [H | H]; [exact H | exfalso].
    assert (b * b' * (K' + 1) <= b * b' * K) by nia.
    assert (2 * a' * b < b * b' * (K' + 1)) by nia.
    assert (b * b' * K <= 2 * a * b') by nia.
    nia. }
  destruct (Z.eqb_spec r 0), (Z.eqb_spec r' 0); try lia.
  destruct (Z.eq_dec K K') as [HKeq | HKne]; [exfalso | lia].
  assert (2 * a * b' = b * b' * K + r * b') by nia.
  assert (2 * a' * b = b * b' * K) by nia.
  nia.
Qed.

Lemma gridPosition_double a b :
  0 <= a -> 0 < b ->
  gridPosition a (2 * b) = 2 * (a / b) + (if a mod b =? 0 then 0 else 1).
Proof.
  intros Ha Hb. unfold gridPosition.
  rewrite Z.div_mul_cancel_l by lia.
  rewrite Z.mul_mod_distr_l by lia.
  destruct (Z.eqb_spec (a mod b) 0), (Z.eqb_spec (2 * (a mod b)) 0); lia.
Qed.

Lemma gridPosition_scale a b k :
  0 < k -> 0 < b -> gridPosition (a * k) (b * k) = gridPosition a b.
Proof.
  intros Hk Hb. unfold gridPosition.
  rewrite Z.mul_assoc, Z.div_mul_cancel_r by lia.
  rewrite Z.mul_mod_distr_r by lia.
  destruct (Z.eqb_spec (2 * a mod b) 0), (Z.eqb_spec ((2 * a) mod b * k) 0);
    try lia; nia.
Qed.

Lemma gridPosition_quarter a b :
  0 <= a -> 0 < b -> gridPosition a b / 4 = a / b.
Proof.
  intros Ha Hb. unfold gridPosition.
  set (u := 2 * a).
  pose proof (Z.div_mod (u / b) 2 ltac:(lia)) as E.
  pose proof (Z.mod_pos_bound (u / b) 2 ltac:(lia)) as Hr.
  replace (a / b) with (u / b / 2)
    by (unfold u; rewrite Z.div_div, (Z.mul_comm b 2), Z.div_mul_cancel_l by lia;
        reflexivity).
  symmetry.
  apply Z.div_unique with
    (2 * ((u / b) mod 2) + (if u mod b =? 0 then 0 else 1));
    [destruct (u mod b =? 0); lia | lia].
Qed.

Lemma recordPosition_of_loc m l :
  recordPosition (shr_record_of_loc m l) = 4 * m + locationCode l.
Proof. destruct l as [| []]; reflexivity. Qed.

Lemma recordPosition_shr_1 m l :
  0 <= m ->
  recordPosition (shr_1 (shr_record_of_loc m l)) =
    2 * m + (if locationCode l =? 0 then 0 else 1).
Proof.
  intros Hm. unfold recordPosition.
  destruct l as [| []]; destruct m as [| [p | p |] | p]; simpl; lia.
Qed.

Lemma round_nearest_even_position mrs :
  0 <= shr_m mrs ->
  round_nearest_even (shr_m mrs) (loc_of_shr_record mrs) =
    roundPosition (recordPosition mrs).
Proof.
  intros Hm. unfold roundPosition, recordPosition.
  set (m := shr_m mrs) in *. set (l := loc_of_shr_record mrs).
  assert (0 <= locationCode l < 4) as Hc by (destruct l as [| []]; simpl; lia).
  replace ((4 * m + locationCode l) / 4) with m
    by (apply Z.div_unique with (locationCode l); lia).
  replace ((4 * m + locationCode l) mod 4) with (locationCode l)
    by (apply Z.mod_unique with m; lia).
  destruct l as [| []]; reflexivity.
Qed.

Lemma roundPosition_bounds p :
  p / 4 <= roundPosition p <= p / 4 + 1.
Proof.
  unfold roundPosition.
  destruct (p mod 4 <? 2); [lia |].
  destruct (p mod 4 =? 2); [destruct (Z.even (p / 4)) |]; lia.
Qed.

Lemma roundPosition_mono p p' :
  p <= p' -> roundPosition p <= roundPosition p'.
Proof.
  intros Hle.
  pose proof (Z.div_mod p 4 ltac:(lia)) as E.
  pose proof (Z.div_mod p' 4 ltac:(lia)) as E'.
  pose proof (Z.mod_pos_bound p 4 ltac:(lia)) as Hr.
  pose proof (Z.mod_pos_bound p' 4 ltac:(lia)) as Hr'.
  destruct (Z.eq_dec (p / 4) (p' / 4)) as [Heq | Hne].
  - unfold roundPosition. rewrite <- Heq.
    destruct (Z.ltb_spec (p mod 4) 2), (Z.ltb_spec (p' mod 4) 2); try lia;
      destruct (Z.eqb_spec (p mod 4) 2), (Z.eqb_spec (p' mod 4) 2); try lia;
      destruct (Z.even (p / 4)); lia.
  - pose proof (roundPosition_bounds p). pose proof (roundPosition_bounds p').
    assert (p / 4 < p' / 4); [| lia].
    assert (p / 4 <= p' / 4) by (apply Z.div_le_mono; lia). lia.
Qed.

End Rounding.

Section Quotients.

Lemma Zdigits2_exact q k :
  0 < k -> 2 ^ (k - 1) <= q < 2 ^ k -> Zdigits2 q = k.
Proof.
  intros Hk [Hlo Hhi].
  assert (0 < 2 ^ (k - 1)) as Hpos by (apply Z.pow_pos_nonneg; lia).
  destruct q as [| p | p]; [lia | | lia]. simpl.
  pose proof (digits2_pos_upper p) as Hu.
  pose proof (digits2_pos_lower p) as Hl.
  assert (k - 1 < Zpos (digits2_pos p)) as H1
    by (apply (Z.pow_lt_mono_r_iff 2); lia).
  assert (Zpos (digits2_pos p) - 1 < k) as H2
    by (apply (Z.pow_lt_mono_r_iff 2); lia).
  lia.
Qed.

(** Rounding a quotient of 53 or 54 digits: the mantissa is rounded at its
    position on the grid of the exponent that leaves 53 digits, and a carry
    into the 54th digit moves to the next exponent. *)
Lemma binary_round_aux_normal q e l :
  2 ^ 52 <= q < 2 ^ 54 -> -1021 <= e <= 900 ->
  binary_round_aux prec emax false q e l =
    if q <? 2 ^ 53
    then normalFloat (roundPosition (4 * q + locationCode l)) e
    else normalFloat
           (roundPosition (2 * q + (if locationCode l =? 0 then 0 else 1)))
           (e + 1).
Proof.
  intros Hq He.
  assert (forall m e1, 2 ^ 52 <= m <= 2 ^ 53 -> -1021 <= e1 <= 901 ->
    (let '(mrs, e2) := shr_fexp prec emax m e1 loc_Exact in
     match shr_m mrs with
     | 0 => S754_zero false
     | Zpos p =>
         if Z.leb e2 (Z.sub emax prec) then S754_finite false p e2
         else S754_infinity false
     | Zneg _ => S754_nan
     end) = normalFloat m e1) as Hfinal.
  { intros m e1 Hm He1. unfold normalFloat, shr_fexp.
    destruct (Z.ltb_spec m (2 ^ 53)) as [Hlt | Hge].
    - rewrite (Zdigits2_exact m 53) by (change (53 - 1) with 52; lia).
      change (Z.add 53 e1) with (53 + e1). rewrite fexp_eq.
      change (Z.sub (Z.max (53 + e1 - 53) (-1074)) e1)
        with (Z.max (53 + e1 - 53) (-1074) - e1).
      replace (Z.max (53 + e1 - 53) (-1074) - e1) with 0 by lia.
      simpl. change (Z.sub emax prec) with 971.
      destruct m as [| p | p]; [lia | | lia].
      destruct (Z.leb_spec e1 971); [reflexivity | lia].
    - assert (m = 2 ^ 53) as -> by lia.
      change (Z.add (Zdigits2 (2 ^ 53)) e1) with (54 + e1). rewrite fexp_eq.
      change (Z.sub (Z.max (54 + e1 - 53) (-1074)) e1)
        with (Z.max (54 + e1 - 53) (-1074) - e1).
      replace (Z.max (54 + e1 - 53) (-1074) - e1) with 1 by lia.
      simpl. change (Z.sub emax prec) with 971.
      change (Z.add e1 1) with (e1 + 1).
      destruct (Z.leb_spec (e1 + 1) 971); [reflexivity | lia]. }
  unfold binary_round_aux.
  destruct (Z.ltb_spec q (2 ^ 53)) as [Hlt | Hge].
  - assert (shr_fexp prec emax q e l = (shr_record_of_loc q l, e)) as ->.
    { unfold shr_fexp.
      rewrite (Zdigits2_exact q 53) by (change (53 - 1) with 52; lia).
      change (Z.add 53 e) with (53 + e). rewrite fexp_eq.
      change (Z.sub (Z.max (53 + e - 53) (-1074)) e)
        with (Z.max (53 + e - 53) (-1074) - e).
      replace (Z.max (53 + e - 53) (-1074) - e) with 0 by lia. reflexivity. }
    rewrite round_nearest_even_position, recordPosition_of_loc
      by (rewrite shr_record_of_loc_m; lia).
    apply Hfinal; [| lia].
    pose proof (roundPosition_bounds (4 * q + locationCode l)) as Hb.
    assert (0 <= locationCode l < 4) as Hc by (destruct l as [| []]; simpl; lia).
    replace ((4 * q + locationCode l) / 4) with q in Hb
      by (apply Z.div_unique with (locationCode l); lia).
    lia.
  - assert (shr_fexp prec emax q e l = (shr_1 (shr_record_of_loc q l), e + 1))
      as ->.
    { unfold shr_fexp.
      rewrite (Zdigits2_exact q 54) by (change (54 - 1) with 53; lia).
      change (Z.add 54 e) with (54 + e). rewrite fexp_eq.
      change (Z.sub (Z.max (54 + e - 53) (-1074)) e)
        with (Z.max (54 + e - 53) (-1074) - e).
      replace (Z.max (54 + e - 53) (-1074) - e) with 1 by lia. reflexivity. }
    assert (0 <= shr_m (shr_1 (shr_record_of_loc q l))) as Hm.
    { rewrite shr_1_m by (rewrite shr_record_of_loc_m; lia).
      rewrite shr_record_of_loc_m. apply Z.div_pos; lia. }
    rewrite round_nearest_even_position by exact Hm.
    rewrite recordPosition_shr_1 by lia.
    apply Hfinal; [| lia].
    set (f := if locationCode l =? 0 then 0 else 1).
    assert (0 <= f <= 1) as Hf by (unfold f; destruct (locationCode l =? 0); lia).
    pose proof (roundPosition_bounds (2 * q + f)) as Hb.
    assert ((2 * q + f) / 4 = q / 2) as Hdiv.
    { pose proof (Z.div_mod q 2 ltac:(lia)) as Eq.
      pose proof (Z.mod_pos_bound q 2 ltac:(lia)) as Hr.
      symmetry. apply Z.div_unique with (2 * (q mod 2) + f); lia. }
    rewrite Hdiv in Hb.
    assert (2 ^ 52 <= q / 2) by (apply Z.div_le_lower_bound; lia).
    assert (q / 2 < 2 ^ 53) by (apply Z.div_lt_upper_bound; lia).
    lia.
Qed.

Lemma normalFloat_le m e m' e' :
  2 ^ 52 <= m <= 2 ^ 53 -> 2 ^ 52 <= m' <= 2 ^ 53 ->
  e < e' \/ (e = e' /\ m <= m') ->
  SFleb (normalFloat m e) (normalFloat m' e') = true.
Proof.
  intros Hm Hm' Hle. unfold normalFloat, SFleb, SFcompare.
  destruct (Z.ltb_spec m (2 ^ 53)), (Z.ltb_spec m' (2 ^ 53)).
  - destruct (Z.compare_spec e e'); [| reflexivity | lia].
    change (PosDef.Pos.compare_cont Eq (Z.to_pos m) (Z.to_pos m'))
      with (Pos.compare (Z.to_pos m) (Z.to_pos m')).
    destruct (Pos.compare_spec (Z.to_pos m) (Z.to_pos m')) as [E | E | E];
      try reflexivity.
    apply Pos2Z.pos_lt_pos in E. rewrite !Z2Pos.id in E by lia. lia.
  - destruct (Z.compare_spec e (e' + 1)); [lia | reflexivity | lia].
  - destruct (Z.compare_spec (e + 1) e'); [| reflexivity | lia].
    change (PosDef.Pos.compare_cont Eq 4503599627370496 (Z.to_pos m'))
      with (Pos.compare 4503599627370496 (Z.to_pos m')).
    destruct (Pos.compare_spec 4503599627370496 (Z.to_pos m')) as [E | E | E];
      try reflexivity.
    apply Pos2Z.pos_lt_pos in E. rewrite Z2Pos.id in E by lia.
    change (Zpos 4503599627370496) with (2 ^ 52) in E. lia.
  - destruct (Z.compare_spec (e + 1) (e' + 1)); [| reflexivity | lia].
    reflexivity.
Qed.

End Quotients.

Section CountRatios.

(** The quotient of two counts as a float: the ratio is rounded at its
    position on the grid of the exponent [e] at which it has 53 digits. *)
Lemma ratio_normal c n :
  (0 < c)%nat -> (0 < n)%nat -> Z.of_nat c < 2 ^ 53 -> Z.of_nat n < 2 ^ 53 ->
  exists e, -106 <= e <= 0 /\
    2 ^ 52 <= Z.of_nat c * 2 ^ (- e) / Z.of_nat n < 2 ^ 53 /\
    Prim2SF (PrimFloat.div (Go.float64 c) (Go.float64 n)) =
      normalFloat
        (roundPosition (gridPosition (Z.of_nat c * 2 ^ (- e)) (Z.of_nat n))) e.
Proof.
  intros Hc Hn Hcl Hnl. rewrite FloatAxioms.div_spec.
  destruct (float64_exact c Hc Hcl) as (mx & ex & Hx & Hdx & Hex & Hxv).
  destruct (float64_exact n Hn Hnl) as (my & ey & Hy & Hdy & Hey & Hyv).
  rewrite Hx, Hy. unfold SF64div, SFdiv.
  rewrite SFdiv_core_normal by assumption. simpl xorb.
  pose proof (digits2_pos_upper mx) as Hxu. pose proof (digits2_pos_lower mx) as Hxl.
  pose proof (digits2_pos_upper my) as Hyu. pose proof (digits2_pos_lower my) as Hyl.
  rewrite Hdx in Hxu, Hxl. rewrite Hdy in Hyu, Hyl.
  change (53 - 1) with 52 in Hxl, Hyl.
  set (a := Zpos mx * 2 ^ 53) in *. set (b := Zpos my) in *.
  assert (2 ^ 52 <= a / b) as Hqlo by (apply Z.div_le_lower_bound; unfold a; lia).
  assert (a / b < 2 ^ 54) as Hqhi by (apply Z.div_lt_upper_bound; unfold a; lia).
  rewrite binary_round_aux_normal by lia.
  assert (0 < 2 ^ (- ex)) as Hpx by (apply Z.pow_pos_nonneg; lia).
  assert (0 < 2 ^ (- ey)) as Hpy by (apply Z.pow_pos_nonneg; lia).
  destruct (Z.ltb_spec (a / b) (2 ^ 53)) as [Hlt | Hge].
  - exists (ex - ey - 53). split; [lia |].
    assert (Z.of_nat c * 2 ^ (- (ex - ey - 53)) * 2 ^ (- ey) = a) as Ea.
    { unfold a. rewrite Hxv, <- !Z.mul_assoc, <- !Z.pow_add_r by lia.
      f_equal. f_equal. lia. }
    assert (Z.of_nat n * 2 ^ (- ey) = b) as Eb by (unfold b; lia).
    split.
    + rewrite <- (Z.div_mul_cancel_r _ _ (2 ^ (- ey))) by lia.
      rewrite Ea, Eb. lia.
    + rewrite division_position by (unfold a, b; lia).
      f_equal. f_equal.
      rewrite <- (gridPosition_scale (Z.of_nat c * 2 ^ (- (ex - ey - 53)))
                    (Z.of_nat n) (2 ^ (- ey))) by lia.
      by rewrite Ea, Eb.
  - exists (ex - ey - 53 + 1). split; [lia |].
    assert (Z.of_nat c * 2 ^ (- (ex - ey - 53 + 1)) * 2 ^ (1 - ey) = a) as Ea.
    { unfold a. rewrite Hxv, <- !Z.mul_assoc, <- !Z.pow_add_r by lia.
      f_equal. f_equal. lia. }
    assert (Z.of_nat n * 2 ^ (1 - ey) = 2 * b) as Eb.
    { replace (1 - ey) with (1 + - ey) by lia.
      rewrite Z.pow_add_r by lia. change (2 ^ 1) with 2. lia. }
    assert (0 < 2 ^ (1 - ey)) as Hp1 by (apply Z.pow_pos_nonneg; lia).
    split.
    + rewrite <- (Z.div_mul_cancel_r _ _ (2 ^ (1 - ey))) by lia.
      rewrite Ea, Eb.
      pose proof (Z.mul_div_le a b ltac:(lia)) as H1.
      pose proof (Z.mul_succ_div_gt a b ltac:(lia)) as H2.
      split; [apply Z.div_le_lower_bound; nia | apply Z.div_lt_upper_bound; nia].
    + f_equal.
      rewrite new_location_compare; [| lia | apply Z.mod_pos_bound; lia].
      rewrite <- (gridPosition_scale (Z.of_nat c * 2 ^ (- (ex - ey - 53 + 1)))
                    (Z.of_nat n) (2 ^ (1 - ey))) by lia.
      rewrite Ea, Eb, gridPosition_double by (unfold a, b; lia).
      f_equal. f_equal.
      destruct (Z.eqb_spec (a mod b) 0); [reflexivity |].
      destruct (2 * (a mod b) ?= b); reflexivity.
Qed.

Lemma float64_zero : Prim2SF (Go.float64 0) = S754_zero false.
Proof. reflexivity. Qed.

(** The float quotient of counts by a fixed count does not decrease when
    the numerator grows. *)
Lemma ratio_mono c c' n :
  (c <= c')%nat -> (0 < n)%nat ->
  Z.of_nat c' < 2 ^ 53 -> Z.of_nat n < 2 ^ 53 ->
  PrimFloat.leb (PrimFloat.div (Go.float64 c) (Go.float64 n))
                (PrimFloat.div (Go.float64 c') (Go.float64 n)) = true.
Proof.
  intros Hle Hn Hcl Hnl. rewrite FloatAxioms.leb_spec.
  destruct (Nat.eq_dec c' 0%nat) as [-> | Hc'].
  - assert (c = 0%nat) as -> by lia.
    rewrite FloatAxioms.div_spec, float64_zero.
    destruct (float64_exact n Hn Hnl) as (my & ey & Hy & _). rewrite Hy.
    reflexivity.
  - destruct (ratio_normal c' n) as (e' & He' & Hq' & ->); [lia .. |].
    set (P' := gridPosition (Z.of_nat c' * 2 ^ (- e')) (Z.of_nat n)).
    pose proof (roundPosition_bounds P') as Hb'.
    destruct (Nat.eq_dec c 0%nat) as [-> | Hc].
    + rewrite FloatAxioms.div_spec, float64_zero.
      destruct (float64_exact n Hn Hnl) as (my & ey & Hy & _). rewrite Hy.
      simpl SF64div. unfold normalFloat.
      destruct (roundPosition P' <? 2 ^ 53); reflexivity.
    + destruct (ratio_normal c n) as (e & He & Hq & ->); [lia .. |].
      set (P := gridPosition (Z.of_nat c * 2 ^ (- e)) (Z.of_nat n)).
      pose proof (roundPosition_bounds P) as Hb.
      assert (0 < 2 ^ (- e)) as Hpe by (apply Z.pow_pos_nonneg; lia).
      assert (0 < 2 ^ (- e')) as Hpe' by (apply Z.pow_pos_nonneg; lia).
      assert (P / 4 = Z.of_nat c * 2 ^ (- e) / Z.of_nat n) as HP
        by (apply gridPosition_quarter; lia).
      assert (P' / 4 = Z.of_nat c' * 2 ^ (- e') / Z.of_nat n) as HP'
        by (apply gridPosition_quarter; lia).
      apply normalFloat_le; [lia | lia |].
      destruct (Z.lt_trichotomy e e') as [Hlt | [Heq | Hgt]]; [by left | |].
      * right. split; [exact Heq |]. subst e'.
        apply roundPosition_mono, gridPosition_mono; try lia. nia.
      * exfalso.
        pose proof (Z.mul_div_le (Z.of_nat c * 2 ^ (- e)) (Z.of_nat n) ltac:(lia))
          as H1.
        pose proof (Z.mul_succ_div_gt (Z.of_nat c' * 2 ^ (- e')) (Z.of_nat n)
                      ltac:(lia)) as H2.
        assert (2 ^ (- e') = 2 ^ (- e) * 2 ^ (e - e')) as Hpow
          by (rewrite <- Z.pow_add_r by lia; f_equal; lia).
        assert (2 <= 2 ^ (e - e')) as H3
          by (change 2 with (2 ^ 1) at 1; apply Z.pow_le_mono_r; lia).
        assert (Z.of_nat n * 2 ^ 52 <= Z.of_nat c * 2 ^ (- e)) as H4 by nia.
        assert (Z.of_nat c' * 2 ^ (- e') < Z.of_nat n * 2 ^ 53) as H5 by nia.
        assert (Z.of_nat c * 2 ^ (- e) * 2 <= Z.of_nat c' * 2 ^ (- e')) as H6.
        { rewrite Hpow. nia. }
        lia.
Qed.

End CountRatios.

(** ** Supports and confidences as rounded quotients of counts *)

Section SupportOrder.

Lemma leb_trans a b c :
  PrimFloat.leb a b = true -> PrimFloat.leb b c = true ->
  PrimFloat.leb a c = true.
Proof. rewrite !FloatAxioms.leb_spec. apply SFleb_trans. Qed.

Lemma ltb_leb_trans a b c :
  PrimFloat.ltb a b = true -> PrimFloat.leb b c = true ->
  PrimFloat.ltb a c = true.
Proof.
  rewrite !FloatAxioms.ltb_spec, FloatAxioms.leb_spec. apply SFltb_leb_trans.
Qed.

Lemma countWhere_mono p q transactions :
  (forall t, p t = true -> q t = true) ->
  (countWhere p transactions <= countWhere q transactions)%nat.
Proof.
  intros Hpq. induction transactions as [| t rest IH]; simpl; [lia |].
  destruct (p t) eqn:Hp.
  - rewrite (Hpq t Hp). lia.
  - destruct (q t); lia.
Qed.

(** The counted support does not grow when items are added. *)
Lemma candidateSupport_antimonotone dataset s s' :
  Transactions dataset <> [] ->
  Z.of_nat (length (Transactions dataset)) < 2 ^ 53 ->
  (forall x, x ∈ s' -> x ∈ s) ->
  PrimFloat.leb (candidateSupport dataset s) (candidateSupport dataset s') = true.
Proof.
  intros Hne Hsize Hsub. unfold candidateSupport.
  pose proof (countWhere_le (fun t => isSubset s' t) (Transactions dataset)) as Hle.
  apply ratio_mono; [| | lia | exact Hsize].
  - apply countWhere_mono. intros t Ht.
    apply isSubset_elem_of. intros x Hx.
    by apply (proj1 (isSubset_elem_of s t) Ht), Hsub.
  - destruct (Transactions dataset); [contradiction | simpl; lia].
Qed.

(** Below [2^53] transactions, an itemset that reaches the threshold has
    only subsets that reach it. *)
Lemma frequent_subsets dataset minSupport s :
  Z.of_nat (length (Transactions dataset)) < 2 ^ 53 ->
  PrimFloat.leb minSupport (candidateSupport dataset s) = true ->
  allSubsetsFrequent dataset minSupport s.
Proof.
  intros Hsize Hle s' Hs' _.
  destruct (Transactions dataset) as [| t ts] eqn:Ht.
  - rewrite candidateSupport_no_transactions, leb_nan_r in Hle by exact Ht.
    discriminate.
  - apply (leb_trans _ _ _ Hle).
    apply candidateSupport_antimonotone; [by rewrite Ht | by rewrite Ht |].
    intros x. by apply sublist_elem_of.
Qed.

End SupportOrder.

Section QuotientOfSupports.

Lemma normalFloat_shape m e :
  2 ^ 52 <= m <= 2 ^ 53 ->
  exists p e', normalFloat m e = S754_finite false p e' /\
    Zpos (digits2_pos p) = 53 /\ e <= e' <= e + 1.
Proof.
  intros Hm. unfold normalFloat.
  destruct (Z.ltb_spec m (2 ^ 53)) as [Hlt | Hge].
  - exists (Z.to_pos m), e. split; [reflexivity |]. split; [| lia].
    destruct m as [| p | p]; [lia | | lia]. simpl Z.to_pos.
    apply (Zdigits2_exact (Zpos p) 53); [lia |]. change (53 - 1) with 52. lia.
  - exists 4503599627370496%positive, (e + 1).
    split; [reflexivity |]. split; [reflexivity | lia].
Qed.

(** The shape of the float quotient of two counts. *)
Lemma ratio_shape c n :
  (0 < n)%nat -> Z.of_nat c < 2 ^ 53 -> Z.of_nat n < 2 ^ 53 ->
  Prim2SF (PrimFloat.div (Go.float64 c) (Go.float64 n)) = S754_zero false \/
  exists p e,
    Prim2SF (PrimFloat.div (Go.float64 c) (Go.float64 n)) = S754_finite false p e /\
    Zpos (digits2_pos p) = 53 /\ -106 <= e <= 1.
Proof.
  intros Hn Hcl Hnl.
  destruct (Nat.eq_dec c 0%nat) as [-> | Hc].
  - left. rewrite FloatAxioms.div_spec, float64_zero.
    destruct (float64_exact n Hn Hnl) as (my & ey & Hy & _). rewrite Hy.
    reflexivity.
  - right. destruct (ratio_normal c n) as (e & He & Hq & ->); [lia .. |].
    set (P := gridPosition (Z.of_nat c * 2 ^ (- e)) (Z.of_nat n)).
    pose proof (roundPosition_bounds P) as Hb.
    assert (0 < 2 ^ (- e)) as Hpe by (apply Z.pow_pos_nonneg; lia).
    assert (2 ^ 52 <= P / 4 < 2 ^ 53) as HP
      by (unfold P; rewrite gridPosition_quarter by lia; exact Hq).
    destruct (normalFloat_shape (roundPosition P) e) as (p & e' & E & Hd & He');
      [lia |].
    exists p, e'. split; [exact E |]. split; [exact Hd | lia].
Qed.

End QuotientOfSupports.

Section Confidence.

Lemma SFdiv_core_53 mx ex my ey :
  Zpos (digits2_pos mx) = 53 -> Zpos (digits2_pos my) = 53 ->
  -1021 <= ex - ey - 53 ->
  SFdiv_core_binary prec emax (Zpos mx) ex (Zpos my) ey =
    (Zpos mx * 2 ^ 53 / Zpos my, ex - ey - 53,
     new_location (Zpos my) ((Zpos mx * 2 ^ 53) mod Zpos my)).
Proof.
  intros Hdx Hdy He. rewrite SFdiv_core_spec, Hdx, Hdy, fexp_eq.
  replace (Z.min (Z.max (53 + ex - (53 + ey) - 53) (-1074)) (ex - ey))
    with (ex - ey - 53) by lia.
  replace (ex - ey - (ex - ey - 53)) with 53 by lia. reflexivity.
Qed.

(** A positive normal float divided by one that is not smaller is at most
    one. *)
Lemma SFdiv_le_one ma ea mb eb :
  Zpos (digits2_pos ma) = 53 -> Zpos (digits2_pos mb) = 53 ->
  -200 <= ea <= 100 -> -200 <= eb <= 100 ->
  SFleb (S754_finite false ma ea) (S754_finite false mb eb) = true ->
  atMostOne false
    (SFdiv prec emax (S754_finite false ma ea) (S754_finite false mb eb)).
Proof.
  intros Hda Hdb Hea Heb Hle. unfold SFdiv.
  rewrite SFdiv_core_53 by (assumption || lia). simpl xorb.
  pose proof (digits2_pos_upper ma) as Hau. pose proof (digits2_pos_lower ma) as Hal.
  pose proof (digits2_pos_upper mb) as Hbu. pose proof (digits2_pos_lower mb) as Hbl.
  rewrite Hda in Hau, Hal. rewrite Hdb in Hbu, Hbl.
  change (53 - 1) with 52 in Hal, Hbl.
  assert (ea < eb \/ (ea = eb /\ Zpos ma < Zpos mb) \/ (ea = eb /\ ma = mb))
    as Hcases.
  { unfold SFleb, SFcompare in Hle.
    destruct (Z.compare_spec ea eb) as [E | E | E]; [| by left | discriminate].
    right.
    change (PosDef.Pos.compare_cont Eq ma mb) with (Pos.compare ma mb) in Hle.
    destruct (Pos.compare_spec ma mb) as [E' | E' | E']; [by right | | discriminate].
    left. split; [exact E |]. by apply Pos2Z.pos_lt_pos. }
  destruct Hcases as [Hlt | [[-> Hlt] | [-> ->]]].
  - apply binary_round_aux_below; [apply Z.div_pos; lia | lia |].
    apply Z.div_lt_upper_bound; [lia |].
    replace (- (ea - eb - 53)) with (53 + (eb - ea)) by lia.
    rewrite Z.pow_add_r by lia.
    assert (2 <= 2 ^ (eb - ea))
      by (change 2 with (2 ^ 1) at 1; apply Z.pow_le_mono_r; lia).
    nia.
  - apply binary_round_aux_below; [apply Z.div_pos; lia | lia |].
    apply Z.div_lt_upper_bound; [lia |].
    replace (- (eb - eb - 53)) with 53 by lia. nia.
  - rewrite Z.mul_comm, Z.div_mul, Z.mod_mul by lia.
    replace (eb - eb - 53) with (-53) by lia.
    rewrite new_location_compare by lia.
    change (0 =? 0) with true. cbv iota.
    assert (binary_round_aux prec emax false (2 ^ 53) (-53) loc_Exact = sfOne)
      as -> by (vm_compute; reflexivity).
    simpl. split; [reflexivity |]. split; [lia | reflexivity].
Qed.

(** The quotient of the supports of two counts, the first of which is not
    the larger, is not a number or lies in [0, 1]. *)
Lemma support_quotient cF cA n :
  (cF <= cA)%nat -> (cA <= n)%nat -> (0 < n)%nat -> Z.of_nat n < 2 ^ 53 ->
  let sF := PrimFloat.div (Go.float64 cF) (Go.float64 n) in
  let sA := PrimFloat.div (Go.float64 cA) (Go.float64 n) in
  Prim2SF (PrimFloat.div sF sA) = S754_nan \/
  atMostOne false (Prim2SF (PrimFloat.div sF sA)).
Proof.
  intros HFA HAn Hn Hnl sF sA.
  pose proof (ratio_mono cF cA n HFA Hn ltac:(lia) Hnl) as Hle.
  fold sF sA in Hle. rewrite FloatAxioms.leb_spec in Hle.
  rewrite FloatAxioms.div_spec.
  destruct (ratio_shape cF n Hn ltac:(lia) Hnl) as [EF | (pF & eF & EF & HdF & HeF)];
    destruct (ratio_shape cA n Hn ltac:(lia) Hnl) as [EA | (pA & eA & EA & HdA & HeA)];
    fold sF in EF; fold sA in EA; rewrite EF, EA in Hle |- *.
  - by left.
  - right. reflexivity.
  - discriminate.
  - right. apply SFdiv_le_one; auto; lia.
Qed.

End Confidence.

(** ** The output in terms of supports *)

(** X19.  The output of the mining, in terms of support alone.  For a
    dataset that satisfies its invariant and has fewer than [2^53]
    transactions, an itemset is in the output exactly when it is a
    non-empty subsequence of the sorted unique items, has at most
    [max 1 maxLen] items and its support, the rounded quotient that the
    code computes, reaches [minSupport]: the pruning by the previous level
    loses nothing, because the rounded support of a subset is never below
    the rounded support of the set. *)
Theorem frequent_itemsets_exact dataset minSupport maxLen out s :
  DatasetInvariant dataset ->
  Z.of_nat (length (Transactions dataset)) < 2 ^ 53 ->
  FindFrequentItemsets dataset minSupport maxLen = Some out ->
  ((exists F, F ∈ out /\ Items F = s) <->
   sublist s (UniqueItems dataset) /\ s <> [] /\
   Z.of_nat (length s) <= Z.max 1 maxLen /\
   PrimFloat.leb minSupport (candidateSupport dataset s) = true).
Proof.
  intros Hds Hsize Hout.
  pose proof (FindFrequentItemsets_invariant _ _ _ _ Hds Hout) as Hinv.
  split.
  - intros (F & HF & <-).
    destruct (FindFrequentItemsets_sound dataset minSupport maxLen out F Hout HF)
      as (HsF & Hle & Huniv).
    destruct (out_length out Hinv F HF) as [Hl Hpos].
    destruct (FindFrequentItemsets_levels dataset minSupport maxLen out Hout)
      as [Hbound _].
    split; [| split; [| split]].
    + apply strictlySorted_sublist;
        [apply (out_canonical out Hinv F HF) | apply Hds | exact Huniv].
    + intros E. rewrite E in Hl. simpl in Hl. lia.
    + destruct (Hbound F HF). lia.
    + by rewrite <- HsF.
  - intros (Hs & Hne & Hl & Hle).
    destruct Hds as [Hsorted _].
    apply (FindFrequentItemsets_complete dataset minSupport Hsorted maxLen out s
             Hout Hs Hne Hl).
    by apply frequent_subsets.
Qed.

Lemma frequent_itemsets_exact_witness :
  (exists F, F ∈ exampleItemsets /\ Items F = ["bread"; "milk"]%string) <->
  sublist ["bread"; "milk"]%string (UniqueItems exampleDataset) /\
  ["bread"; "milk"]%string <> [] /\
  Z.of_nat (length ["bread"; "milk"]%string) <= Z.max 1 2 /\
  PrimFloat.leb 0.5%float
    (candidateSupport exampleDataset ["bread"; "milk"]%string) = true.
Proof.
  apply (frequent_itemsets_exact exampleDataset 0.5%float 2 exampleItemsets).
  - exact exampleDataset_invariant.
  - simpl. lia.
  - vm_compute. reflexivity.
Defined.

(** X20.  The supports of the output.  With fewer than [2^53]
    transactions every support of the output is in [[0, 1]], it is
    positive when [minSupport] is, and an itemset whose items include the
    items of another one of the output has at most the support of that
    one. *)
Theorem supports_ordered dataset minSupport maxLen out :
  Z.of_nat (length (Transactions dataset)) < 2 ^ 53 ->
  FindFrequentItemsets dataset minSupport maxLen = Some out ->
  (forall F, F ∈ out ->
     PrimFloat.leb 0%float (Support F) = true /\
     PrimFloat.leb (Support F) 1%float = true /\
     (PrimFloat.ltb 0%float minSupport = true ->
      PrimFloat.ltb 0%float (Support F) = true)) /\
  (forall F G, F ∈ out -> G ∈ out ->
     (forall item, item ∈ Items G -> item ∈ Items F) ->
     PrimFloat.leb (Support F) (Support G) = true).
Proof.
  intros Hsize Hout.
  pose proof (FindFrequentItemsets_unitSupports _ _ _ _ Hsize Hout) as Hunit.
  split.
  - intros F HF. destruct (Hunit F HF) as [H0 H1].
    split; [exact H0 |]. split; [exact H1 |].
    intros Hpos.
    destruct (FindFrequentItemsets_sound dataset minSupport maxLen out F Hout HF)
      as (_ & Hle & _).
    exact (ltb_leb_trans _ _ _ Hpos Hle).
  - intros F G HF HG Hsub.
    destruct (FindFrequentItemsets_sound dataset minSupport maxLen out F Hout HF)
      as (-> & _ & _).
    destruct (FindFrequentItemsets_sound dataset minSupport maxLen out G Hout HG)
      as (-> & _ & _).
    apply candidateSupport_antimonotone; [| exact Hsize | exact Hsub].
    intros Ht.
    rewrite (FindFrequentItemsets_no_transactions dataset _ _ Ht) in Hout.
    injection Hout as <-. inversion HF.
Qed.

Lemma supports_ordered_witness :
  (forall F, F ∈ exampleItemsets ->
     PrimFloat.leb 0%float (Support F) = true /\
     PrimFloat.leb (Support F) 1%float = true /\
     (PrimFloat.ltb 0%float 0.5%float = true ->
      PrimFloat.ltb 0%float (Support F) = true)) /\
  (forall F G, F ∈ exampleItemsets -> G ∈ exampleItemsets ->
     (forall item, item ∈ Items G -> item ∈ Items F) ->
     PrimFloat.leb (Support F) (Support G) = true).
Proof.
  apply (supports_ordered exampleDataset 0.5%float 2 exampleItemsets).
  - simpl. lia.
  - vm_compute. reflexivity.
Defined.

(** X21.  The confidence of a rule is in [[0, 1]] when the rules are
    generated from the output of the mining of a dataset that satisfies
    its invariant, has comma-free item names and fewer than [2^53]
    transactions. *)
Theorem confidence_unit dataset minSupport maxLen out minConfidence rules rule :
  DatasetInvariant dataset ->
  (forall item, item ∈ UniqueItems dataset -> hasComma item = false) ->
  Z.of_nat (length (Transactions dataset)) < 2 ^ 53 ->
  FindFrequentItemsets dataset minSupport maxLen = Some out ->
  GenerateAssociationRules out minConfidence = Some rules ->
  rule ∈ rules ->
  PrimFloat.leb 0%float (Confidence rule) = true /\
  PrimFloat.leb (Confidence rule) 1%float = true.
Proof.
  intros Hds Hcomma Hsize Hout Hrules Hin.
  destruct (GenerateAssociationRules_origin _ _ _ _ Hrules Hin)
    as (F & antecedents & antecedent & HF & Hk & Hgen & Ha & Hstep).
  apply ruleStep_emit in Hstep as (Hne & Hproper & sa & sc & Hsa & Hsc & Hle & ->).
  pose proof (generateAllSubsets_sublist _ _ _ Hgen Ha) as Hsub.
  rewrite (output_lookup dataset minSupport maxLen out Hds Hcomma Hout F antecedent)
    in Hsa; [| exact HF | exact Hsub | by destruct antecedent].
  injection Hsa as <-.
  destruct (FindFrequentItemsets_sound dataset minSupport maxLen out F Hout HF)
    as (HsF & _ & _).
  rewrite HsF in Hle |- *. simpl.
  set (confidence := PrimFloat.div (candidateSupport dataset (Items F))
                       (candidateSupport dataset antecedent)) in *.
  destruct (Transactions dataset) as [| t ts] eqn:Ht.
  { rewrite (FindFrequentItemsets_no_transactions dataset _ _ Ht) in Hout.
    injection Hout as <-. inversion HF. }
  assert (Prim2SF confidence = S754_nan \/ atMostOne false (Prim2SF confidence))
    as [Hnan | Hone].
  { unfold confidence, candidateSupport. rewrite Ht.
    apply support_quotient; [| apply countWhere_le | simpl; lia | exact Hsize].
    apply countWhere_mono. intros t' Ht'. apply isSubset_elem_of.
    intros x Hx. apply (proj1 (isSubset_elem_of (Items F) t') Ht').
    by apply (sublist_elem_of antecedent). }
  - rewrite FloatAxioms.leb_spec, Hnan in Hle.
    unfold SFleb, SFcompare in Hle.
    destruct (Prim2SF minConfidence); discriminate.
  - rewrite !FloatAxioms.leb_spec, Prim2SF_one, Prim2SF_zero.
    apply atMostOne_unit; [apply Prim2SF_valid | exact Hone].
Qed.

Lemma confidence_unit_witness :
  PrimFloat.leb 0%float
    (Confidence (exampleRule "bread" "butter" 0.5 0.75 0.5)) = true /\
  PrimFloat.leb (Confidence (exampleRule "bread" "butter" 0.5 0.75 0.5))
    1%float = true.
Proof.
  apply (confidence_unit exampleDataset 0.5%float 2 exampleItemsets confidence06
           (default [] (GenerateAssociationRules exampleItemsets confidence06))).
  - exact exampleDataset_invariant.
  - intros item Hitem. simpl in Hitem.
    repeat (apply elem_of_cons in Hitem as [-> | Hitem]); [reflexivity .. |].
    inversion Hitem.
  - simpl. lia.
  - vm_compute. reflexivity.
  - vm_compute. reflexivity.
  - vm_compute. left.
Defined.

(** ** The table of the optimal configurations *)

Section TimePerRule.

Lemma binary_round_aux_number s m e l :
  0 <= m -> binary_round_aux prec emax s m e l <> S754_nan.
Proof.
  intros Hm. unfold binary_round_aux.
  destruct (shr_fexp_spec m e l Hm) as [_ Hm1].
  destruct (shr_fexp prec emax m e l) as [mrs' e']. simpl in Hm1.
  pose proof (round_nearest_even_bounds (shr_m mrs') (loc_of_shr_record mrs'))
    as Hr.
  set (mr := round_nearest_even (shr_m mrs') (loc_of_shr_record mrs')) in *.
  assert (0 <= shr_m mrs') as Hpos.
  { rewrite Hm1. apply Z.div_pos; [exact Hm |]. apply Z.pow_pos_nonneg; lia. }
  destruct (shr_fexp_spec mr e' loc_Exact ltac:(lia)) as [_ Hm2].
  destruct (shr_fexp prec emax mr e' loc_Exact) as [mrs'' e''].
  simpl in Hm2.
  assert (0 <= shr_m mrs'') as Hpos2.
  { rewrite Hm2. apply Z.div_pos; [lia |]. apply Z.pow_pos_nonneg; lia. }
  destruct (shr_m mrs'') as [| p | p]; simpl; [discriminate | | lia].
  destruct (Z.leb e'' (Z.sub emax prec)); discriminate.
Qed.

Lemma float64OfInt_zero : Prim2SF (float64OfInt 0) = S754_zero false.
Proof. reflexivity. Qed.

(** The conversion of a positive integer is a positive finite number. *)
Lemma float64OfInt_pos x :
  0 < x < 2 ^ 63 ->
  exists m e, Prim2SF (float64OfInt x) = S754_finite false m e.
Proof.
  intros Hx. unfold float64OfInt.
  destruct (Z.eqb_spec x (- 2 ^ 63)) as [E | _]; [lia |].
  destruct (Z.ltb_spec x 0) as [H | _]; [lia |].
  rewrite FloatAxioms.of_uint63_spec, Uint63.of_Z_spec.
  rewrite Z.mod_small by (change wB with (2 ^ 63); lia).
  destruct x as [| p | p]; [lia | | lia]. simpl binary_normalize.
  pose proof (binary_round_upper 63 false p 0 ltac:(lia) ltac:(lia)
                ltac:(simpl; lia)) as Hu.
  assert (atLeast 0 (Zpos p) 0) as Hat by (left; simpl; lia).
  pose proof (binary_round_lower 0 false p 0 ltac:(lia) Hat) as Hl.
  destruct (binary_round prec emax false p 0) as [s | s | | s m e];
    simpl in Hu, Hl; try contradiction.
  destruct Hu as [-> _]. by exists m, e.
Qed.

(** The conversion of a 64-bit integer is a zero or a finite number. *)
Lemma float64OfInt_finite x :
  - 2 ^ 63 <= x < 2 ^ 63 ->
  Prim2SF (float64OfInt x) = S754_zero false \/
  exists s m e, Prim2SF (float64OfInt x) = S754_finite s m e.
Proof.
  intros Hx.
  destruct (Z.eq_dec x 0) as [-> | Hne]; [left; reflexivity |]. right.
  destruct (Z.ltb_spec x 0) as [Hneg | Hpos].
  - unfold float64OfInt.
    destruct (Z.eqb_spec x (- 2 ^ 63)) as [E | Hmin].
    + vm_compute. eauto.
    + destruct (Z.ltb_spec x 0) as [_ | H]; [| lia].
      destruct (float64OfInt_pos (- x) ltac:(lia)) as (m & e & Hm).
      unfold float64OfInt in Hm.
      destruct (Z.eqb_spec (- x) (- 2 ^ 63)) as [E | _]; [lia |].
      destruct (Z.ltb_spec (- x) 0) as [H | _]; [lia |].
      rewrite FloatAxioms.opp_spec, Hm. simpl. eauto.
  - destruct (float64OfInt_pos x ltac:(lia)) as (m & e & Hm). eauto.
Qed.

(** The time per rule of a result with rules is a number. *)
Lemma timePerRule_number r :
  - 2 ^ 63 <= TotalTime r < 2 ^ 63 -> 0 < RuleCount r < 2 ^ 63 ->
  Prim2SF (timePerRule r) <> S754_nan.
Proof.
  intros Ht Hc. unfold timePerRule. rewrite FloatAxioms.div_spec.
  destruct (float64OfInt_pos _ Hc) as (my & ey & ->).
  destruct (float64OfInt_finite _ Ht) as [-> | (sx & mx & ex & ->)];
    [discriminate |].
  unfold SF64div, SFdiv. rewrite SFdiv_core_spec.
  apply binary_round_aux_number.
  apply Z.div_pos; [| lia].
  apply Z.mul_nonneg_nonneg; [lia |]. apply Z.pow_nonneg. lia.
Qed.

End TimePerRule.

(** X22.  The table of the optimal configurations.  When the fields of
    the results are 64-bit integers, the second exchange sort returns (it
    never indexes out of range), its result is a rearrangement of the
    results with [RuleCount > 0], every ratio of time to rules in it is a
    number (the filter leaves no division by zero, so no NaN reaches the
    comparison), the ratios are in non-decreasing order, and the rows
    printed are its first five elements, or all of them when there are
    fewer.  This holds for the slice as the first sort left it and for any
    other. *)
Theorem optimal_configurations results :
  Forall (fun r => - 2 ^ 63 <= TotalTime r < 2 ^ 63 /\ RuleCount r < 2 ^ 63)
    results ->
  exists sorted rows,
    exchangeSort worseRatio (filter (fun r => 0 < RuleCount r) results)
      = Some sorted /\
    sorted ≡ₚ filter (fun r => 0 < RuleCount r) results /\
    Forall (fun r =>
      PrimFloat.leb (timePerRule r) (timePerRule r) = true) sorted /\
    StronglySorted (fun a b =>
      PrimFloat.leb (timePerRule a) (timePerRule b) = true) sorted /\
    optimalConfigurations results = Some rows /\
    rows = take 5 sorted.
Proof.
  intros Hrange.
  set (valid := fun r : Result =>
    - 2 ^ 63 <= TotalTime r < 2 ^ 63 /\ 0 < RuleCount r < 2 ^ 63).
  assert (forall r, valid r -> Prim2SF (timePerRule r) <> S754_nan) as Hnum
    by (intros r [Ht Hc]; by apply timePerRule_number).
  assert (forall a b, valid a -> valid b -> notGreater worseRatio a b ->
            PrimFloat.leb (timePerRule a) (timePerRule b) = true) as Hle.
  { intros a b Ha Hb H. unfold notGreater, worseRatio in H.
    rewrite FloatAxioms.ltb_spec in H. rewrite FloatAxioms.leb_spec.
    apply SFltb_false_leb; auto. }
  assert (forall a b, PrimFloat.leb (timePerRule a) (timePerRule b) = true ->
            notGreater worseRatio a b) as Hge.
  { intros a b H. unfold notGreater, worseRatio.
    rewrite FloatAxioms.ltb_spec. rewrite FloatAxioms.leb_spec in H.
    by apply SFleb_not_ltb. }
  assert (Forall valid (filter (fun r => 0 < RuleCount r) results)) as Hvalid.
  { apply Forall_forall. intros r Hr. apply list_elem_of_filter in Hr as [Hc Hr].
    rewrite Forall_forall in Hrange. destruct (Hrange r Hr). unfold valid. lia. }
  destruct (exchangeSort_spec worseRatio valid)
    with (l := filter (fun r => 0 < RuleCount r) results)
    as (sorted & Hrun & Hp & Hs).
  - intros a b c Ha Hb Hc H1 H2. apply Hge.
    apply (leb_trans _ (timePerRule b)); by apply Hle.
  - intros a b Ha Hb H. apply Hge. unfold worseRatio in H.
    rewrite FloatAxioms.ltb_spec in H. rewrite FloatAxioms.leb_spec.
    by apply SFltb_leb.
  - exact Hvalid.
  - assert (Forall valid sorted) as Hvs by (by rewrite Hp).
    exists sorted, (take 5 sorted). split; [exact Hrun |]. split; [exact Hp |].
    split; [| split; [| split; [| reflexivity]]].
    + eapply Forall_impl; [exact Hvs |]. intros r Hr.
      rewrite FloatAxioms.leb_spec. apply SFleb_refl. by apply Hnum.
    + clear Hrun Hp. induction Hs as [| x l Hl IH Hx]; constructor.
      * apply IH. by inversion Hvs.
      * inversion Hvs as [| ? ? Hvx Hvl]; subst.
        rewrite Forall_forall in Hx, Hvl |- *. intros y Hy.
        apply Hle; auto.
    + unfold optimalConfigurations. rewrite Hrun. simpl.
      destruct (Nat.ltb_spec (length sorted) 5) as [Hlt | Hge5].
      * rewrite mapM_lookup_seq by lia. rewrite drop_0.
        by rewrite !take_ge by lia.
      * rewrite mapM_lookup_seq by lia. by rewrite drop_0.
Qed.

Lemma optimal_configurations_witness :
  exists sorted rows,
    exchangeSort worseRatio (filter (fun r => 0 < RuleCount r) exampleResults)
      = Some sorted /\
    sorted ≡ₚ filter (fun r => 0 < RuleCount r) exampleResults /\
    Forall (fun r =>
      PrimFloat.leb (timePerRule r) (timePerRule r) = true) sorted /\
    StronglySorted (fun a b =>
      PrimFloat.leb (timePerRule a) (timePerRule b) = true) sorted /\
    optimalConfigurations exampleResults = Some rows /\
    rows = take 5 sorted.
Proof.
  apply (optimal_configurations exampleResults).
  unfold exampleResults.
  repeat (constructor; [simpl; lia |]). constructor.
Defined.

(** * Determinism of the pipeline *)

Section Determinism.

#[local] Instance str_le_antisym : AntiSymm (=) Go.str_le.
Proof.
  intros a b. rewrite !str_le_lt_eq. intros [H1 | ->] [H2 | H2]; auto.
  destruct (str_lt_asym _ _ H1 H2).
Qed.


Lemma countWhere_Permutation p ts ts' :
  ts ≡ₚ ts' -> countWhere p ts = countWhere p ts'.
Proof.
  induction 1 as [| t ts ts' _ IH | t1 t2 ts | ts1 ts2 ts3 _ IH1 _ IH2]; simpl.
  - reflexivity.
  - by rewrite IH.
  - by destruct (p t1), (p t2).
  - congruence.
Qed.

Lemma countWhere_sameItems p ts ts' :
  (forall t t', sameItems t t' -> p t = p t') ->
  Forall2 sameItems ts ts' -> countWhere p ts = countWhere p ts'.
Proof.
  intros Hp. induction 1 as [| t t' ts ts' Ht _ IH]; simpl; [reflexivity |].
  by rewrite (Hp t t' Ht), IH.
Qed.

Lemma countWhere_sameTransactions p ts ts' :
  (forall t t', sameItems t t' -> p t = p t') ->
  sameTransactions ts ts' -> countWhere p ts = countWhere p ts'.
Proof.
  intros Hp (ts0 & Hperm & Hsame).
  rewrite (countWhere_Permutation p ts ts0 Hperm).
  by apply countWhere_sameItems.
Qed.

Lemma sameTransactions_length ts ts' :
  sameTransactions ts ts' -> length ts = length ts'.
Proof.
  intros (ts0 & Hperm & Hsame).
  rewrite (Permutation_length Hperm). by eapply Forall2_length.
Qed.

Lemma containsItem_sameItems item t t' :
  sameItems t t' -> containsItem t item = containsItem t' item.
Proof.
  intros H. apply eq_true_iff_eq. rewrite !containsItem_elem_of. apply H.
Qed.

Lemma isSubset_sameItems items t t' :
  sameItems t t' -> isSubset items t = isSubset items t'.
Proof.
  intros H. apply eq_true_iff_eq. rewrite !isSubset_elem_of.
  split; intros Hall x Hx; apply H, Hall, Hx.
Qed.

Lemma itemSupport_sameTransactions dataset dataset' item :
  sameTransactions (Transactions dataset) (Transactions dataset') ->
  itemSupport dataset item = itemSupport dataset' item.
Proof.
  intros Hsame. unfold itemSupport.
  rewrite (sameTransactions_length _ _ Hsame).
  rewrite (countWhere_sameTransactions (fun t => containsItem t item) _ _
             (fun t t' => containsItem_sameItems item t t') Hsame).
  reflexivity.
Qed.

Lemma candidateSupport_sameTransactions dataset dataset' items :
  sameTransactions (Transactions dataset) (Transactions dataset') ->
  candidateSupport dataset items = candidateSupport dataset' items.
Proof.
  intros Hsame. unfold candidateSupport.
  rewrite (sameTransactions_length _ _ Hsame).
  rewrite (countWhere_sameTransactions (fun t => isSubset items t) _ _
             (fun t t' => isSubset_sameItems items t t') Hsame).
  reflexivity.
Qed.

(** The level loop reads the dataset through the supports only. *)
Lemma levelLoop_sameSupports dataset dataset' minSupport n k Lk_1 result :
  (forall items,
     candidateSupport dataset items = candidateSupport dataset' items) ->
  levelLoop dataset minSupport n k Lk_1 result =
  levelLoop dataset' minSupport n k Lk_1 result.
Proof.
  intros Hs. revert k Lk_1 result.
  induction n as [| n IH]; intros k Lk_1 result; simpl; [reflexivity |].
  destruct (generateCandidates Lk_1 k) as [Ck |]; simpl; [| reflexivity].
  assert (frequentCandidates dataset minSupport k Ck =
          frequentCandidates dataset' minSupport k Ck) as ->.
  { unfold frequentCandidates. apply flat_map_ext. intros C.
    by rewrite Hs. }
  destruct (Nat.eqb _ 0); [reflexivity | apply IH].
Qed.

(** Mining returns the same list for two datasets with the same universe
    and the same transactions. *)
Lemma FindFrequentItemsets_sameTransactions dataset dataset' minSupport maxLen :
  UniqueItems dataset = UniqueItems dataset' ->
  sameTransactions (Transactions dataset) (Transactions dataset') ->
  FindFrequentItemsets dataset minSupport maxLen =
  FindFrequentItemsets dataset' minSupport maxLen.
Proof.
  intros Hu Hsame. unfold FindFrequentItemsets.
  assert (frequentItems dataset minSupport = frequentItems dataset' minSupport)
    as ->.
  { unfold frequentItems. rewrite <- Hu. apply flat_map_ext. intros item.
    by rewrite (itemSupport_sameTransactions dataset dataset' item Hsame). }
  apply levelLoop_sameSupports. intros items.
  by apply candidateSupport_sameTransactions.
Qed.

End Determinism.



(** ** Two runs of the loader *)

Section LoadOrder.

Variable TrimSpace : string -> string.
Variable ToLower : string -> string.

Lemma loadInReverseOrder_loads records :
  LoadFromCSV TrimSpace ToLower records
    (loadInReverseOrder TrimSpace ToLower records).
Proof.
  unfold LoadFromCSV, rangesOver.
  exists (reverse (map_to_list (groupByBasket TrimSpace ToLower records).1)).
  exists (reverse (map_to_list
            (ItemsMap (loadInReverseOrder TrimSpace ToLower records)))).
  split; [apply reverse_Permutation |].
  split; [| split; [reflexivity | split; [apply reverse_Permutation | reflexivity]]].
  simpl. apply Forall2_fmap_r, Forall_Forall2_diag, Forall_forall.
  intros basket _. simpl. eexists.
  split; [apply reverse_Permutation | reflexivity].
Qed.

Lemma Forall2_Permutation_l {A B} (R : A -> B -> Prop) l l' k :
  l ≡ₚ l' -> Forall2 R l k -> exists k', k ≡ₚ k' /\ Forall2 R l' k'.
Proof.
  intros Hp. revert k.
  induction Hp as [| a l l' _ IH | a1 a2 l | l1 l2 l3 _ IH1 _ IH2]; intros k Hk.
  - exists k. split; [reflexivity | exact Hk].
  - inversion Hk as [| ? b ? k0 Hab Hrest]; subst.
    destruct (IH k0 Hrest) as (k' & Hpk & HF).
    exists (b :: k'). split; [by constructor | by constructor].
  - inversion Hk as [| ? b1 ? k1 H1 Hrest1]; subst.
    inversion Hrest1 as [| ? b2 ? k2 H2 Hrest2]; subst.
    exists (b2 :: b1 :: k2). split; [apply perm_swap | by repeat constructor].
  - destruct (IH1 k Hk) as (k1 & Hp1 & HF1).
    destruct (IH2 k1 HF1) as (k2 & Hp2 & HF2).
    exists k2. split; [by transitivity k1 | exact HF2].
Qed.

Lemma Forall2_common_l {A B} (R : A -> B -> Prop) (S : B -> B -> Prop) l k k' :
  (forall a b b', R a b -> R a b' -> S b b') ->
  Forall2 R l k -> Forall2 R l k' -> Forall2 S k k'.
Proof.
  intros HS Hk. revert k'.
  induction Hk as [| a b l k Hab _ IH]; intros k' Hk'.
  - inversion Hk'. constructor.
  - inversion Hk' as [| ? b' ? k0 Hab' Hrest]; subst.
    constructor; [by apply (HS a) | by apply IH].
Qed.

(** Two runs of the loader on the same records return the same universe
    and the same map of items, and the same transactions up to the order of
    the transactions and of the items within them. *)
Lemma LoadFromCSV_agree records dataset dataset' :
  LoadFromCSV TrimSpace ToLower records dataset ->
  LoadFromCSV TrimSpace ToLower records dataset' ->
  UniqueItems dataset = UniqueItems dataset' /\
  ItemsMap dataset = ItemsMap dataset' /\
  sameTransactions (Transactions dataset) (Transactions dataset').
Proof.
  intros Hload Hload'.
  destruct (LoadFromCSV_spec _ _ _ _ Hload)
    as (baskets & Hnd & Hb & Ht & Hs & Hu & Hm).
  destruct (LoadFromCSV_spec _ _ _ _ Hload')
    as (baskets' & Hnd' & Hb' & Ht' & Hs' & Hu' & Hm').
  assert (baskets ≡ₚ baskets') as Hperm.
  { apply NoDup_Permutation.
    - by apply (NoDup_fmap_1 fst).
    - by apply (NoDup_fmap_1 fst).
    - intros [basket items]. by rewrite Hb, Hb'. }
  assert (UniqueItems dataset = UniqueItems dataset') as HU.
  { apply strictlySorted_unique; [exact Hs | exact Hs' |].
    apply NoDup_Permutation; [by apply strictlySorted_NoDup ..|].
    intros x. rewrite Hu, Hu'.
    split; intros (basket & Hin & Hx); exists basket;
      (split; [| exact Hx]); [by rewrite <- Hperm | by rewrite Hperm]. }
  split; [exact HU |]. split.
  - apply map_eq. intros x. by rewrite Hm, Hm', HU.
  - destruct (Forall2_Permutation_l _ _ _ _ Hperm Ht) as (ts0 & Hp0 & Ht0).
    exists ts0. split; [exact Hp0 |].
    apply (Forall2_common_l _ _ _ _ _ (fun basket t t'
             (H : NoDup t /\ forall x, x ∈ t <-> x ∈ basket.2)
             (H' : NoDup t' /\ forall x, x ∈ t' <-> x ∈ basket.2) =>
             (fun x => iff_trans (proj2 H x) (iff_sym (proj2 H' x)))
             : sameItems t t') Ht0 Ht').
Qed.

End LoadOrder.

(** X23.  Two runs of the loader on the same records, whatever the
    orders in which they visit the maps, return the same universe, the same
    map of items and the same transactions up to order, and mining and rule
    generation return the same lists for both. *)
Theorem load_order_irrelevant TrimSpace ToLower records dataset dataset'
    minSupport maxLen minConfidence :
  LoadFromCSV TrimSpace ToLower records dataset ->
  LoadFromCSV TrimSpace ToLower records dataset' ->
  UniqueItems dataset = UniqueItems dataset' /\
  ItemsMap dataset = ItemsMap dataset' /\
  sameTransactions (Transactions dataset) (Transactions dataset') /\
  FindFrequentItemsets dataset minSupport maxLen =
    FindFrequentItemsets dataset' minSupport maxLen /\
  (out ← FindFrequentItemsets dataset minSupport maxLen;
   GenerateAssociationRules out minConfidence) =
  (out ← FindFrequentItemsets dataset' minSupport maxLen;
   GenerateAssociationRules out minConfidence).
Proof.
  intros Hload Hload'.
  destruct (LoadFromCSV_agree _ _ _ _ _ Hload Hload') as (HU & HM & HT).
  pose proof (FindFrequentItemsets_sameTransactions dataset dataset'
                minSupport maxLen HU HT) as E.
  repeat split; auto. by rewrite E.
Qed.

Lemma load_order_irrelevant_witness :
  let records :=
    [ ["basket"; "item"]; ["1"; "milk"]; ["1"; "bread"]; ["2"; "milk"];
      ["3"]; ["2"; "butter"]; ["1"; "milk"] ]%string in
  let dataset := loadInMapOrder id id records in
  let dataset' := loadInReverseOrder id id records in
  UniqueItems dataset = UniqueItems dataset' /\
  ItemsMap dataset = ItemsMap dataset' /\
  sameTransactions (Transactions dataset) (Transactions dataset') /\
  FindFrequentItemsets dataset 0.5%float 2 =
    FindFrequentItemsets dataset' 0.5%float 2 /\
  (out ← FindFrequentItemsets dataset 0.5%float 2;
   GenerateAssociationRules out 0.5%float) =
  (out ← FindFrequentItemsets dataset' 0.5%float 2;
   GenerateAssociationRules out 0.5%float).
Proof.
  intros records dataset dataset'.
  apply (load_order_irrelevant id id records dataset dataset').
  - apply loadInMapOrder_loads.
  - apply loadInReverseOrder_loads.
Defined.
